(** * Lookup-table composition dataset: a model of make_lookup_tables.py

    The development follows the script top down: Python string helpers,
    the pandas Series used as "table", the composer and the formatter on
    table values, then the store of Series objects, the random sources and
    the whole of [table_lookup_dataset] in a state-and-exception monad.

    Conventions.
    - A Python [str] is a [string]; a character is a code point below 256.
    - A Python [int] is a [Z]; list lengths are [nat].
    - A pandas Series is a name and its rows (index label, value).
    - A Series object lives in a store and lists hold references to it,
      because [format_input] assigns to [table.index] in place. *)

From Stdlib Require Import String Ascii List ZArith Lia Bool Permutation.
From Stdlib Require QArith.
From Stdlib Require Import DecimalString DecimalNat.
Import ListNotations.
Local Open Scope list_scope.
Local Open Scope string_scope.

(** ** Python strings *)

Module PyStr.

(** [str.isspace] on the code points below 256: tab to carriage return,
    the four separators 0x1c-0x1f, the space, NEL (0x85) and the
    no-break space (0xa0). *)
Definition is_space (c : ascii) : bool :=
  let n := nat_of_ascii c in
  (((9 <=? n) && (n <=? 13)) || ((28 <=? n) && (n <=? 32))
   || (n =? 133) || (n =? 160))%nat.

(** The fields between consecutive white-space characters, empty ones
    included; never the empty list. *)
Fixpoint fields (s : string) : list string :=
  match s with
  | EmptyString => [""]
  | String c s' =>
      if is_space c then "" :: fields s'
      else match fields s' with
           | w :: ws => String c w :: ws
           | [] => [String c ""]
           end
  end.

Definition nonempty (s : string) : bool :=
  match s with EmptyString => false | _ => true end.

(** [s.split()]: the maximal runs of characters that are not white space. *)
Definition split (s : string) : list string := filter nonempty (fields s).

(** [sep.join(l)]. *)
Fixpoint join (sep : string) (l : list string) : string :=
  match l with
  | [] => ""
  | [x] => x
  | x :: xs => x ++ sep ++ join sep xs
  end.

(** [s.split("_")[0]]: the text before the first underscore. *)
Fixpoint before_underscore (s : string) : string :=
  match s with
  | EmptyString => ""
  | String c s' => if Ascii.eqb c "_" then "" else String c (before_underscore s')
  end.

(** [l[-1]] on a list that may be empty. *)
Fixpoint last_opt {A} (l : list A) : option A :=
  match l with
  | [] => None
  | [x] => Some x
  | _ :: xs => last_opt xs
  end.

(** [s.split()[-1]] as the pandas accessor [.str.split().str[-1]] gives
    it: no value (NaN) when the string has no token. *)
Definition last_token (s : string) : option string := last_opt (split s).

(** ["{}".format(n)] for a natural number. *)
Definition str_of_nat (n : nat) : string :=
  NilEmpty.string_of_uint (Nat.to_uint n).

End PyStr.
Import PyStr.

(** ** Exceptions *)

Inductive exn : Type :=
| ValueError | TypeError | IndexError | KeyError | AssertionError.

Inductive result (A : Type) : Type :=
| Ok (a : A)
| Raise (e : exn).
Arguments Ok {A} a.
Arguments Raise {A} e.

Definition and_then {A B} (r : result A) (k : A -> result B) : result B :=
  match r with
  | Ok a => k a
  | Raise e => Raise e
  end.

(** ** Tables *)

(** A pandas Series of strings indexed by strings. *)
Record Series : Type := mkSeries {
  name : string;
  rows : list (string * string)
}.

Definition index (t : Series) : list string := map fst (rows t).
Definition data (t : Series) : list string := map snd (rows t).

(** A split, the result of [pd.concat]: the rows only (the name of the
    concatenated Series is never read). *)
Definition Split : Type := list (string * string).

(** ** 4.2 The composer *)

(** [pd.merge(left, right, left_index=True, right_on='next_input')]: an
    inner join of the index of [left] with the last token of the value of
    [right]. Rows come in the order of the left keys; a merged row keeps
    the index label of the right row. A right row whose value has no token
    has a missing key and joins with nothing. *)
Definition merge (left right : list (string * string))
  : list (string * (string * string)) :=
  flat_map (fun l =>
    flat_map (fun r =>
      match last_token (snd r) with
      | Some k => if String.eqb k (fst l) then [(fst r, (snd l, snd r))] else []
      | None => []
      end) right) left.

(** The two column labels of the merged frame. pandas adds the suffixes
    [_x] and [_y] to a label that both frames carry. A table called like
    the scratch column breaks the code: as the left table its column
    clashes with the scratch column, both get a suffix and the [drop]
    raises; as the right table its only column is overwritten and the
    unpacking of two labels raises. *)
Definition merged_columns (lname rname : string) : result (string * string) :=
  if String.eqb lname "next_input" then Raise KeyError
  else if String.eqb rname "next_input" then Raise ValueError
  else if String.eqb lname rname then Ok (lname ++ "_x", rname ++ "_y")
  else Ok (lname, rname).

Definition compose_table_lookups (table1 table2 : Series)
    (is_intermediate : bool) : result Series :=
  let merged_df := merge (rows table1) (rows table2) in
  match merged_columns (name table1) (name table2) with
  | Raise e => Raise e
  | Ok (left_col, right_col) =>
      let merged_serie :=
        if is_intermediate
        then map (fun m => (fst m, snd (snd m) ++ " " ++ fst (snd m))) merged_df
        else map (fun m => (fst m, fst (snd m))) merged_df in
      Ok {| name := join " " [before_underscore left_col;
                              before_underscore right_col];
            rows := merged_serie |}
  end.

(** ** 4.6 The formatter, on the label of one row *)

Definition format_name (table_name i : string) : string :=
  table_name ++ " " ++ i.

Definition format_reverse (i : string) : string := join " " (rev (split i)).

Definition format_eos (eos i : string) : string := i ++ " " ++ eos.

Definition format_key (table_name : string) (is_reverse : bool)
    (eos : option string) (i : string) : string :=
  let i1 := format_name table_name i in
  let i2 := if is_reverse then format_reverse i1 else i1 in
  match eos with
  | Some e => if nonempty e then format_eos e i2 else i2
  | None => i2
  end.

Definition map_index (f : string -> string) (t : Series) : Series :=
  {| name := name t; rows := map (fun r => (f (fst r), snd r)) (rows t) |}.

(** The table [format_input] leaves behind and returns. *)
Definition formatted (is_reverse : bool) (eos : option string) (t : Series)
  : Series :=
  map_index (format_key (name t) is_reverse eos) t.


(** ** Python lists *)

Module PyList.

(** The position a slice bound [j] denotes in a list of length [len]:
    a negative bound counts from the end, and both ends clip. *)
Definition slice_bound (j : Z) (len : nat) : nat :=
  if (j <? 0)%Z then Z.to_nat (Z.max (Z.of_nat len + j) 0)
  else Nat.min (Z.to_nat j) len.

(** [l[:j]] and [l[j:]]. *)
Definition slice_to {A} (j : Z) (l : list A) : list A :=
  firstn (slice_bound j (length l)) l.
Definition slice_from {A} (j : Z) (l : list A) : list A :=
  skipn (slice_bound j (length l)) l.

(** [range(a, b)]. *)
Definition py_range (a b : Z) : list Z :=
  map (fun i => (a + Z.of_nat i)%Z) (seq 0 (Z.to_nat (b - a))).

(** [itertools.product(l, repeat=n)], first component slowest. *)
Fixpoint product {A} (l : list A) (n : nat) : list (list A) :=
  match n with
  | O => [[]]
  | S n' => flat_map (fun x => map (cons x) (product l n')) l
  end.

(** Every way to take one element out of a list, by position. *)
Fixpoint selections {A} (l : list A) : list (A * list A) :=
  match l with
  | [] => []
  | x :: xs => (x, xs) :: map (fun s => (fst s, x :: snd s)) (selections xs)
  end.

Fixpoint permutations_upto {A} (n : nat) (l : list A) : list (list A) :=
  match n with
  | O => [[]]
  | S n' =>
      flat_map (fun s => map (cons (fst s)) (permutations_upto n' (snd s)))
               (selections l)
  end.

(** [itertools.permutations(l)], in the order of the positions. *)
Definition permutations {A} (l : list A) : list (list A) :=
  permutations_upto (length l) l.

(** [[l[i] for i in positions]] for positions inside the list. *)
Definition pick {A} (l : list A) (positions : list nat) : list A :=
  flat_map (fun i => match nth_error l i with
                     | Some x => [x]
                     | None => []
                     end) positions.

Definition mem (x : string) (l : list string) : bool :=
  existsb (String.eqb x) l.

End PyList.
Import PyList.

(** ** 4.3 The partitioner *)

(** [set(composed_table.name.split()).intersection(tables)]. *)
Definition _table_is_composed_of (composed_name : string)
    (tables : list string) : list string :=
  filter (fun tok => mem tok tables) (nodup string_dec (split composed_name)).

(** Truth value of a Python collection. *)
Definition truthy {A} (l : list A) : bool :=
  match l with [] => false | _ => true end.

Section Partitioner.
Context {A : Type} (name_of : A -> string).

Definition is_seen (name_test : list string) (t : A) : bool :=
  negb (truthy (_table_is_composed_of (name_of t) name_test)).
Definition is_new (name_train : list string) (t : A) : bool :=
  negb (truthy (_table_is_composed_of (name_of t) name_train)).
Definition is_unseen (name_train name_test : list string) (t : A) : bool :=
  truthy (_table_is_composed_of (name_of t) name_test)
  && truthy (_table_is_composed_of (name_of t) name_train).

Definition _split_seen_unseen_new (dfs : list A)
    (name_train name_test : list string) : list A * list A * list A :=
  let seen := filter (is_seen name_test) dfs in
  let new := filter (is_new name_train) dfs in
  let unseen := filter (is_unseen name_train name_test) dfs in
  (seen, unseen, new).

End Partitioner.

(** ** 4.7 The invariant checker *)

Definition assert_equal (a b : Z) : result unit :=
  if (a =? b)%Z then Ok tt else Raise AssertionError.

Definition sum_Z (l : list Z) : Z := fold_right Z.add 0%Z l.

(** [len(set("".join(values)))]. *)
Definition distinct_chars (values : list string) : nat :=
  length (nodup ascii_dec (list_ascii_of_string (String.concat "" values))).

Definition _size_permute_compose (max_length n_inputs n_tables : Z) : Z :=
  sum_Z (map (fun i => (n_tables ^ i * n_inputs)%Z) (py_range 2 (max_length + 1))).

(** The six building blocks, in the order of the tuple. *)
Record Blocks : Type := mkBlocks {
  b_unary : Split;
  b_multiary_train : Split;
  b_heldout_inputs : Split;
  b_heldout_compositions : Split;
  b_heldout_tables : Split;
  b_new_compositions : Split
}.

Definition len (s : Split) : Z := Z.of_nat (length s).

Definition _check_sizes (dfs : Blocks)
    (max_length n_unary_tables n_heldout_tables n_heldout_compositions
     n_heldout_inputs : Z) : result unit :=
  match b_unary dfs with
  | [] => Raise IndexError
  | first :: _ =>
      let n_repeats := Z.of_nat (String.length (snd first)) in
      let alphabet := Z.of_nat (distinct_chars (map snd (b_unary dfs))) in
      let n_inputs := (alphabet ^ n_repeats)%Z in
      let n_train_tables := (n_unary_tables - n_heldout_tables)%Z in
      let n_train_compositions :=
        (sum_Z (map (fun i => n_train_tables ^ i)%Z (py_range 2 (max_length + 1)))
         - n_heldout_compositions)%Z in
      let spc := _size_permute_compose max_length n_inputs in
      and_then (assert_equal (len (b_unary dfs))
                  (n_unary_tables * n_inputs)%Z) (fun _ =>
      and_then (assert_equal (len (b_multiary_train dfs))
                  (n_train_compositions * (n_inputs - n_heldout_inputs))%Z) (fun _ =>
      and_then (assert_equal (len (b_heldout_inputs dfs))
                  (n_train_compositions * n_heldout_inputs)%Z) (fun _ =>
      and_then (assert_equal (len (b_heldout_compositions dfs))
                  (n_heldout_compositions * n_inputs)%Z) (fun _ =>
      and_then (assert_equal (len (b_heldout_tables dfs))
                  (spc (n_train_tables + n_heldout_tables)
                   - spc n_train_tables - spc n_heldout_tables)%Z) (fun _ =>
      assert_equal (len (b_new_compositions dfs)) (spc n_heldout_tables))))))
  end.

(** ** The libraries behind the script

    The generators of [random] and [numpy.random], [DataFrame.sample],
    scikit-learn's [train_test_split] and the iteration order of a set of
    strings are not part of the script. A [Library] gives them: each
    generator is a state and the draws that advance it; a draw of
    positions stands for the draw of elements at these positions. *)
Record Library : Type := mkLibrary {
  PyState : Type;
  NpState : Type;
  (** [random.seed(s)] and [np.random.seed(s)] *)
  py_seed : Z -> PyState;
  np_seed : Z -> NpState;
  (** [random.shuffle] of a list of the given length: the new order *)
  py_shuffle : nat -> PyState -> list nat * PyState;
  (** [random.sample(population, k)]: the positions drawn *)
  py_sample : nat -> Z -> PyState -> result (list nat) * PyState;
  (** [np.random.choice(a, size, replace=False)]: the positions drawn *)
  np_choice : nat -> Z -> NpState -> result (list nat) * NpState;
  (** [df.sample(frac=1, random_state=s)] on so many rows: the new order *)
  df_sample : Z -> nat -> list nat;
  (** [train_test_split(data, test_size, random_state, stratify)] *)
  train_test_split :
    Split -> QArith_base.Q -> Z -> option (list (list bool * nat)) ->
    result (Split * Split);
  (** the order in which a set with these members is iterated *)
  set_order : list string -> list string
}.

(** What the script relies on from the generators. *)
Definition positions_of (n : nat) (k : Z) (l : list nat) : Prop :=
  NoDup l /\ Forall (fun i => (i < n)%nat) l /\ Z.of_nat (length l) = k.

Definition np_choice_spec (L : Library) : Prop :=
  forall n k g l g', np_choice L n k g = (Ok l, g') -> positions_of n k l.

Definition py_shuffle_spec (L : Library) : Prop :=
  forall n g, Permutation (fst (py_shuffle L n g)) (seq 0 n).

Definition df_sample_spec (L : Library) : Prop :=
  forall s n, Permutation (df_sample L s n) (seq 0 n).

(** ** The generation options *)

Record Params : Type := mkParams {
  validation_size : QArith_base.Q;
  max_composition_train : Z;
  n_unary_tables : Z;
  n_heldout_tables : Z;
  n_heldout_compositions : Z;
  n_heldout_inputs : Z;
  add_composition_test : Z;
  is_intermediate : bool;
  is_shuffle : bool;
  is_reverse : bool;
  is_stratify : bool;
  eos : option string;
  max_longer : Z;
  seed : Z;
  (** the [kwargs] handed on to [create_N_table_lookup] *)
  alphabet : list string;
  n_repeats : Z;
  namer : nat -> string
}.

(** [lambda i: "t{}".format(i + 1)] *)
Definition default_namer (i : nat) : string := "t" ++ str_of_nat (i + 1).

(** The nine values [table_lookup_dataset] returns. *)
Record Dataset : Type := mkDataset {
  train : Split;
  validation : Split;
  heldout_inputs : Split;
  heldout_compositions : Split;
  heldout_tables : Split;
  new_compositions : Split;
  longer_seens : list Split;
  longer_incrementals : list Split;
  longer_news : list Split
}.

(** ** Series values: selection and removal by label *)

(** [table[labels]]: for each label the rows that carry it. *)
Definition getitem (t : Series) (labels : list string) : result Series :=
  if forallb (fun l => mem l (index t)) labels
  then Ok {| name := name t;
             rows := flat_map (fun l =>
                       filter (fun r => String.eqb (fst r) l) (rows t)) labels |}
  else Raise KeyError.

(** [table.drop(labels)]: a new Series without the rows that carry one. *)
Definition drop (t : Series) (labels : list string) : result Series :=
  if forallb (fun l => mem l (index t)) labels
  then Ok {| name := name t;
             rows := filter (fun r => negb (mem (fst r) labels)) (rows t) |}
  else Raise KeyError.

(** The inputs of the domain, and the table made of one choice of outputs. *)
Definition domain_inputs (alphabet : list string) (n_repeats : Z)
  : list string :=
  map (String.concat "") (product alphabet (Z.to_nat n_repeats)).

Definition unary_table (namer : nat -> string) (inputs : list string)
    (io : nat * list string) : Series :=
  {| name := namer (fst io); rows := combine inputs (snd io) |}.

(** [reduce(operator.add, l)] of [flatten]. *)
Definition flatten {A} (l : list (list A)) : result (list A) :=
  match l with
  | [] => Raise TypeError
  | x :: xs => Ok (fold_left (@app A) xs x)
  end.

Definition enumerate {A} (l : list A) : list (nat * A) :=
  combine (seq 0 (length l)) l.

Fixpoint update {A} (i : nat) (x : A) (l : list A) : list A :=
  match l, i with
  | [], _ => []
  | _ :: l', O => x :: l'
  | y :: l', S i' => y :: update i' x l'
  end.

(** The stratification frame of [_uniform_split]: for each row, the
    membership of each table name among the tokens of the row label, and
    the number of tokens. *)
Definition stratify_frame (names : list string) (to_split : Split)
  : list (list bool * nat) :=
  map (fun r => (map (fun n => mem n (split (fst r))) names,
                 length (split (fst r)))) to_split.

(** ** The script, in a monad of store, generators and exceptions *)

Section Pipeline.
Variable L : Library.

(** A reference to a Series object: its position in the store. *)
Definition ref : Type := nat.

Record World : Type := mkWorld {
  heap : list Series;
  py_rng : PyState L;
  np_rng : NpState L
}.

Definition M (A : Type) : Type := World -> result A * World.

Definition ret {A} (a : A) : M A := fun w => (Ok a, w).
Definition raise {A} (e : exn) : M A := fun w => (Raise e, w).
Definition bind {A B} (c : M A) (k : A -> M B) : M B :=
  fun w => match c w with
           | (Ok a, w') => k a w'
           | (Raise e, w') => (Raise e, w')
           end.
Definition lift {A} (r : result A) : M A := fun w => (r, w).

Notation "x <- c ;; k" := (bind c (fun x => k))
  (at level 61, c at next level, right associativity).
Notation "c ;;; k" := (bind c (fun _ => k))
  (at level 61, right associativity).

Fixpoint mapM {A B} (f : A -> M B) (l : list A) : M (list B) :=
  match l with
  | [] => ret []
  | x :: xs => y <- f x ;; ys <- mapM f xs ;; ret (y :: ys)
  end.

Fixpoint foldM {A B} (f : A -> B -> M A) (a : A) (l : list B) : M A :=
  match l with
  | [] => ret a
  | x :: xs => a' <- f a x ;; foldM f a' xs
  end.

(** [functools.reduce(f, l)] without an initial value. *)
Definition reduce {A} (f : A -> A -> M A) (l : list A) : M A :=
  match l with
  | [] => raise TypeError
  | x :: xs => foldM f x xs
  end.

(** *** The store *)

Definition no_table : Series := {| name := ""; rows := [] |}.
Definition deref (h : list Series) (r : ref) : Series := nth r h no_table.

Definition name_in (h : list Series) (r : ref) : string := name (deref h r).

Definition load (r : ref) : M Series := fun w => (Ok (deref (heap w) r), w).

Definition alloc (t : Series) : M ref :=
  fun w => (Ok (length (heap w)),
            mkWorld (heap w ++ [t]) (py_rng w) (np_rng w)).

(** [table.index = [f(i) for i in table.index]] *)
Definition set_index (r : ref) (f : string -> string) : M unit :=
  fun w => (Ok tt,
            mkWorld (update r (map_index f (deref (heap w) r)) (heap w))
                    (py_rng w) (np_rng w)).

(** *** The generators *)

Definition random_seed (s : Z) : M unit :=
  fun w => (Ok tt, mkWorld (heap w) (py_seed L s) (np_rng w)).

Definition np_random_seed (s : Z) : M unit :=
  fun w => (Ok tt, mkWorld (heap w) (py_rng w) (np_seed L s)).

Definition random_shuffle {A} (l : list A) : M (list A) :=
  fun w => let (order, g) := py_shuffle L (length l) (py_rng w) in
           (Ok (pick l order), mkWorld (heap w) g (np_rng w)).

Definition random_sample {A} (l : list A) (k : Z) : M (list A) :=
  fun w => let (r, g) := py_sample L (length l) k (py_rng w) in
           (and_then r (fun ps => Ok (pick l ps)), mkWorld (heap w) g (np_rng w)).

Definition np_random_choice {A} (a : list A) (size : Z) : M (list A) :=
  fun w => let (r, g) := np_choice L (length a) size (np_rng w) in
           (and_then r (fun ps => Ok (pick a ps)), mkWorld (heap w) (py_rng w) g).

(** *** 4.1 The table generator *)

Definition create_N_table_lookup (N : option Z) (alphabet : list string)
    (n_repeats : Z) (namer : nat -> string) (seed : Z) : M (list ref) :=
  np_random_seed seed ;;;
  if (n_repeats <? 0)%Z then raise ValueError else
  let inputs := domain_inputs alphabet n_repeats in
  let all_outputs := permutations inputs in
  iter_outputs <- match N with
                  | Some n => np_random_choice all_outputs n
                  | None => ret all_outputs
                  end ;;
  mapM (fun io => alloc (unary_table namer inputs io))
       (enumerate iter_outputs).

(** *** The functions of the script on Series objects *)

Definition compose_ref (is_intermediate : bool) (table1 table2 : ref) : M ref :=
  t1 <- load table1 ;;
  t2 <- load table2 ;;
  merged_serie <- lift (compose_table_lookups t1 t2 is_intermediate) ;;
  alloc merged_serie.

Definition format_input (is_reverse : bool) (eos : option string)
    (table : ref) : M ref :=
  t <- load table ;;
  set_index table (format_name (name t)) ;;;
  (if is_reverse then set_index table format_reverse else ret tt) ;;;
  match eos with
  | Some e => if nonempty e then set_index table (format_eos e) else ret tt
  | None => ret tt
  end ;;;
  ret table.

Definition getitem_ref (table : ref) (labels : list string) : M ref :=
  t <- load table ;; s <- lift (getitem t labels) ;; alloc s.

Definition drop_ref (table : ref) (labels : list string) : M ref :=
  t <- load table ;; s <- lift (drop t labels) ;; alloc s.

(** [pd.concat(tables, axis=0)]: no objects to concatenate is an error. *)
Definition pd_concat (tables : list ref) : M Split :=
  match tables with
  | [] => raise ValueError
  | _ => fun w => (Ok (flat_map (fun r => rows (deref (heap w) r)) tables), w)
  end.

Definition sample_frac1 (seed : Z) (df : Split) : Split :=
  pick df (df_sample L seed (length df)).

Definition _merge_format_inputs (list_dfs : list (list ref)) (is_shuffle : bool)
    (seed : Z) (is_reverse : bool) (eos : option string) : M (list Split) :=
  list_df <- mapM (fun dfs =>
               fs <- mapM (format_input is_reverse eos) dfs ;; pd_concat fs)
             list_dfs ;;
  ret (if is_shuffle then map (sample_frac1 seed) list_df else list_df).

Definition split_refs (dfs : list ref) (name_train name_test : list string)
  : M (list ref * list ref * list ref) :=
  fun w => (Ok (_split_seen_unseen_new (fun r => name (deref (heap w) r))
                  dfs name_train name_test), w).

Definition names_of (tables : list ref) : M (list string) :=
  mapM (fun r => t <- load r ;; ret (name t)) tables.

Definition _uniform_split (to_split : Split) (table_names : list string)
    (validation_size : QArith_base.Q) (seed : Z) (is_stratify : bool)
  : result (Split * Split) :=
  let df := stratify_frame (set_order L table_names) to_split in
  let stratify := if is_stratify then Some df else None in
  match train_test_split L to_split validation_size seed stratify with
  | Raise ValueError => train_test_split L to_split validation_size seed None
  | r => r
  end.

(** *** table_lookup_dataset, stage by stage *)

(** The unary tables, the two sets of names, every composition of 2 to
    [max_composition_train] tables and its three-way split. *)
Record Tables : Type := mkTables {
  tb_unary : list ref;
  tb_names_train : list string;
  tb_names_test : list string;
  tb_multiary : list ref;
  tb_seen : list ref;
  tb_unseen : list ref;
  tb_new : list ref
}.

Definition make_tables (p : Params) : M Tables :=
  np_random_seed (seed p) ;;;
  random_seed (seed p) ;;;
  unary_functions <- create_N_table_lookup (Some (n_unary_tables p))
                       (alphabet p) (n_repeats p) (namer p) (seed p) ;;
  names_unary_train <-
    names_of (slice_to (- n_heldout_tables p) unary_functions) ;;
  names_unary_test <-
    names_of (slice_from (- n_heldout_tables p) unary_functions) ;;
  per_depth <-
    mapM (fun repeat =>
            mapM (reduce (compose_ref (is_intermediate p)))
                 (product unary_functions (Z.to_nat repeat)))
         (py_range 2 (max_composition_train p + 1)) ;;
  multiary_functions <- lift (flatten per_depth) ;;
  parts <- split_refs multiary_functions names_unary_train names_unary_test ;;
  ret (mkTables unary_functions names_unary_train names_unary_test
         multiary_functions (fst (fst parts)) (snd (fst parts)) (snd parts)).

(** The lines under [# heldout], from the shuffled list on: the training
    tables that remain, the held-out inputs, the held-out compositions. *)
Definition heldout_split (p : Params) (multiary_train : list ref)
  : M (list ref * list ref * list ref) :=
  let heldout_compositions :=
    slice_from (- n_heldout_compositions p) multiary_train in
  let multiary_train := slice_to (- n_heldout_compositions p) multiary_train in
  drop_inputs <-
    mapM (fun table => t <- load table ;;
                       np_random_choice (index t) (n_heldout_inputs p))
         multiary_train ;;
  heldout_inputs <-
    mapM (fun ht => getitem_ref (snd ht) (fst ht))
         (combine drop_inputs multiary_train) ;;
  multiary_train <-
    mapM (fun ht => drop_ref (snd ht) (fst ht))
         (combine drop_inputs multiary_train) ;;
  ret (multiary_train, heldout_inputs, heldout_compositions).

Definition compose_pairs (tables1 tables2 : list ref) : M (list ref) :=
  mapM (fun xy => compose_ref true (fst xy) (snd xy))
       (list_prod tables1 tables2).

Definition Longer : Type :=
  (list (list ref) * list (list ref) * list (list ref))%type.

Fixpoint longer_loop (n : nat) (tb : Tables) (max_longer : Z)
    (longer : list ref) (acc : Longer) : M Longer :=
  match n with
  | O => ret acc
  | S n' =>
      longer <- (if (max_longer <? Z.of_nat (length longer))%Z
                 then random_sample longer max_longer
                 else ret longer) ;;
      parts <- split_refs longer (tb_names_train tb) (tb_names_test tb) ;;
      let acc' := (fst (fst acc) ++ [fst (fst parts)],
                   snd (fst acc) ++ [snd (fst parts)],
                   snd acc ++ [snd parts])%list in
      longer <- compose_pairs (tb_unary tb) longer ;;
      longer_loop n' tb max_longer longer acc'
  end.

(** The lines under [# longer]. *)
Definition longer_tables (p : Params) (tb : Tables) : M Longer :=
  longest <- (fun w =>
     (Ok (filter (fun t =>
            (Z.of_nat (length (split (name (deref (heap w) t))))
             =? max_composition_train p)%Z) (tb_multiary tb)), w)) ;;
  longer <- compose_pairs (tb_unary tb) longest ;;
  longer_loop (Z.to_nat (add_composition_test p)) tb (max_longer p) longer
              ([], [], []).

Definition merge_format (p : Params) (list_dfs : list (list ref))
  : M (list Split) :=
  _merge_format_inputs list_dfs (is_shuffle p) (seed p) (is_reverse p) (eos p).

(** The six building blocks after [_merge_format_inputs]. *)
Definition build_blocks (p : Params) (tb : Tables)
    (ho : list ref * list ref * list ref) : M Blocks :=
  building_blocks <-
    merge_format p [tb_unary tb; fst (fst ho); snd (fst ho); snd ho;
                    tb_unseen tb; tb_new tb] ;;
  match building_blocks with
  | [b1; b2; b3; b4; b5; b6] => ret (mkBlocks b1 b2 b3 b4 b5 b6)
  | _ => raise ValueError
  end.

Definition check_blocks (p : Params) (b : Blocks) : result unit :=
  _check_sizes b (max_composition_train p) (n_unary_tables p)
    (n_heldout_tables p) (n_heldout_compositions p) (n_heldout_inputs p).

(** The lines of [table_lookup_dataset] down to the end of [# heldout]:
    the tables, the shuffled training list and its three-way split. *)
Definition heldout_stage (p : Params)
  : M (Tables * list ref * (list ref * list ref * list ref)) :=
  tb <- make_tables p ;;
  multiary_train <- random_shuffle (tb_seen tb) ;;
  (* heldout *)
  ho <- heldout_split p multiary_train ;;
  ret (tb, multiary_train, ho).

(** ... and down to the end of [# formats]: the tables, the three lists of
    longer splits and the six building blocks. *)
Definition building_blocks (p : Params)
  : M (Tables * (list Split * list Split * list Split) * Blocks) :=
  hs <- heldout_stage p ;;
  let tb := fst (fst hs) in
  (* longer *)
  lg <- longer_tables p tb ;;
  (* formats *)
  longer_seens <- merge_format p (fst (fst lg)) ;;
  longer_incrementals <- merge_format p (snd (fst lg)) ;;
  longer_news <- merge_format p (snd lg) ;;
  b <- build_blocks p tb (snd hs) ;;
  ret (tb, (longer_seens, longer_incrementals, longer_news), b).

Definition table_lookup_dataset (p : Params) : M Dataset :=
  bb <- building_blocks p ;;
  let tb := fst (fst bb) in
  let b := snd bb in
  lift (check_blocks p b) ;;;
  (* validation *)
  tv <- lift (_uniform_split (b_multiary_train b) (tb_names_train tb)
                (validation_size p) (seed p) true) ;;
  ret (mkDataset (b_unary b ++ fst tv)%list (snd tv)
         (b_heldout_inputs b) (b_heldout_compositions b)
         (b_heldout_tables b) (b_new_compositions b)
         (fst (fst (snd (fst bb)))) (snd (fst (snd (fst bb))))
         (snd (snd (fst bb)))).

(** The lines of [table_lookup_dataset] up to the unary tables. *)
Definition unary_tables (p : Params) : M (list ref) :=
  np_random_seed (seed p) ;;;
  random_seed (seed p) ;;;
  create_N_table_lookup (Some (n_unary_tables p)) (alphabet p)
    (n_repeats p) (namer p) (seed p).

(** A call starts with no Series object of its own in the store. *)
Definition fresh_world (py : PyState L) (np : NpState L) : World :=
  mkWorld [] py np.

(** The outcome of a computation is an exception. *)
Definition raises {A} (o : result A * World) : Prop :=
  exists e, fst o = Raise e.

(** Existing objects are untouched; the store may have grown. *)
Definition extends (h h' : list Series) : Prop := exists new, h' = (h ++ new)%list.

(** Every object that existed is still there under the same name and with
    the same values, row by row; its labels may have changed. *)
Definition frame (h h' : list Series) : Prop :=
  (length h <= length h')%nat /\
  forall r, (r < length h)%nat ->
    name (deref h' r) = name (deref h r) /\
    data (deref h' r) = data (deref h r).

Definition alloc_only {A} (c : M A) : Prop :=
  forall w, extends (heap w) (heap (snd (c w))).

Definition framed {A} (c : M A) : Prop :=
  forall w, frame (heap w) (heap (snd (c w))).

End Pipeline.

(** A table name the composer hands on unchanged: one token, and no
    underscore for [split("_")] to cut at. *)
Fixpoint no_underscore (s : string) : bool :=
  match s with
  | EmptyString => true
  | String c s' => negb (Ascii.eqb c "_") && no_underscore s'
  end.

(** No white space and no underscore in a string. *)
Fixpoint plain (s : string) : bool :=
  match s with
  | EmptyString => true
  | String c s' => negb (is_space c) && negb (Ascii.eqb c "_") && plain s'
  end.

Definition good_name (n : string) : Prop :=
  split n = [n] /\ no_underscore n = true.

(** The names the namer gives to the unary tables of a run. *)
Definition unary_names (p : Params) : list string :=
  map (namer p) (seq 0 (Z.to_nat (n_unary_tables p))).

(** All the tuples of unary tables that [make_tables] composes, in order. *)
Definition all_tuples {A} (p : Params) (unary : list A) : list (list A) :=
  flat_map (fun repeat => product unary (Z.to_nat repeat))
           (py_range 2 (max_composition_train p + 1)).

(** A stored table composed of the unary tables of these names: its name
    has the names as tokens and no underscore, its labels are distinct. *)
Definition composed_of (h : list Series) (names : list string) (r : nat)
  : Prop :=
  (r < length h)%nat /\
  split (name (deref h r)) = names /\
  no_underscore (name (deref h r)) = true /\
  NoDup (index (deref h r)).

(** A new table made from a stored one by [make], as seen in any later
    store. *)
Definition made_from (make : Series -> list string -> result Series)
    (lt : list string * nat) (r : nat) (h : list Series) : Prop :=
  (snd lt < length h)%nat /\ (r < length h)%nat /\
  make (deref h (snd lt)) (fst lt) = Ok (deref h r).

(** The entries of a list of stored tables: each row with the name of its
    table; and the (composition, input) pairs that identify them. *)
Definition entries (h : list Series) (tables : list nat)
  : list (string * (string * string)) :=
  flat_map (fun r => map (pair (name (deref h r))) (rows (deref h r)))
           tables.

Definition entry_keys (h : list Series) (tables : list nat)
  : list (string * string) :=
  map (fun e => (fst e, fst (snd e))) (entries h tables).

(** The closed-form sizes as the specification words them, from the
    options alone: the domain has [|alphabet| ^ n_repeats] inputs. *)
Definition domain_size (p : Params) : Z :=
  (Z.of_nat (length (alphabet p)) ^ n_repeats p)%Z.

Definition n_train_tables (p : Params) : Z :=
  (n_unary_tables p - n_heldout_tables p)%Z.

(** The sum over [i] in [2 .. max_composition_train] of [n_tables ^ i]. *)
Definition n_compositions (p : Params) (n_tables : Z) : Z :=
  sum_Z (map (fun i => n_tables ^ i)%Z
             (py_range 2 (max_composition_train p + 1))).

Definition n_train_compositions (p : Params) : Z :=
  (n_compositions p (n_train_tables p) - n_heldout_compositions p)%Z.

Definition closed_form_sizes (p : Params) (b : Blocks) : Prop :=
  len (b_unary b) = (n_unary_tables p * domain_size p)%Z /\
  len (b_multiary_train b)
    = (n_train_compositions p * (domain_size p - n_heldout_inputs p))%Z /\
  len (b_heldout_inputs b)
    = (n_train_compositions p * n_heldout_inputs p)%Z /\
  len (b_heldout_compositions b)
    = (n_heldout_compositions p * domain_size p)%Z /\
  len (b_heldout_tables b)
    = ((n_compositions p (n_unary_tables p)
        - n_compositions p (n_train_tables p)
        - n_compositions p (n_heldout_tables p)) * domain_size p)%Z /\
  len (b_new_compositions b)
    = (n_compositions p (n_heldout_tables p) * domain_size p)%Z.

(** The sizes the checker compares with, for the domain size [d] that it
    reads off the unary block. *)
Definition checked_sizes (p : Params) (d : Z) (b : Blocks) : Prop :=
  len (b_unary b) = (n_unary_tables p * d)%Z /\
  len (b_multiary_train b)
    = (n_train_compositions p * (d - n_heldout_inputs p))%Z /\
  len (b_heldout_inputs b) = (n_train_compositions p * n_heldout_inputs p)%Z /\
  len (b_heldout_compositions b) = (n_heldout_compositions p * d)%Z /\
  len (b_heldout_tables b)
    = ((n_compositions p (n_unary_tables p)
        - n_compositions p (n_train_tables p)
        - n_compositions p (n_heldout_tables p)) * d)%Z /\
  len (b_new_compositions b) = (n_compositions p (n_heldout_tables p) * d)%Z.

Definition read_domain_size (b : Blocks) : Z :=
  match b_unary b with
  | [] => 0%Z
  | first :: _ =>
      (Z.of_nat (distinct_chars (map snd (b_unary b)))
       ^ Z.of_nat (String.length (snd first)))%Z
  end.

Definition with_is_stratify (b : bool) (p : Params) : Params :=
  mkParams (validation_size p) (max_composition_train p) (n_unary_tables p)
    (n_heldout_tables p) (n_heldout_compositions p) (n_heldout_inputs p)
    (add_composition_test p) (is_intermediate p) (is_shuffle p)
    (is_reverse p) b (eos p) (max_longer p) (seed p) (alphabet p)
    (n_repeats p) (namer p).

Definition has_token (n : string) (tables : list string) : bool :=
  existsb (fun tok => mem tok tables) (split n).

(** A composed table over the universe: its name has at least one token,
    and every token names a unary table. *)
Definition composed_over {A} (name_of : A -> string) (universe : list string)
    (t : A) : Prop :=
  split (name_of t) <> [] /\
  forall tok, In tok (split (name_of t)) -> In tok universe.

Arguments heap {L} w.
Arguments ret {L A} a w.
Arguments raise {L A} e w.
Arguments bind {L A B} c k w.
Arguments lift {L A} r w.
Arguments mapM {L A B} f l w.
Arguments foldM {L A B} f a l w.
Arguments reduce {L A} f l w.
Arguments raises {L A} o.
Arguments alloc_only {L A} c.
Arguments framed {L A} c.
Arguments py_rng {L} w.
Arguments np_rng {L} w.

(** ** A small deterministic library, to run the script on examples *)

Module Toy.

(** The positions [0 .. n-1], started at the state of the generator. *)
Definition rotate (n g : nat) : list nat :=
  (skipn (g mod n) (seq 0 n) ++ firstn (g mod n) (seq 0 n))%list.

Definition take_positions (n : nat) (k : Z) (g : nat) : result (list nat) :=
  if ((0 <=? k) && (k <=? Z.of_nat n))%Z
  then Ok (firstn (Z.to_nat k) (rotate n g)) else Raise ValueError.

Definition split_last (k : nat) (s : Split) : result (Split * Split) :=
  if (k <? length s)%nat
  then Ok (firstn (length s - k) s, skipn (length s - k) s)
  else Raise ValueError.

Definition lib : Library :=
  {| PyState := nat; NpState := nat;
     py_seed := Z.to_nat; np_seed := Z.to_nat;
     py_shuffle := fun n g => (rotate n g, S g);
     py_sample := fun n k g => (take_positions n k g, S g);
     np_choice := fun n k g => (take_positions n k g, S g);
     df_sample := fun s n => rotate n (Z.to_nat s);
     train_test_split := fun s _ _ strat =>
       match strat with
       | Some _ => split_last 2 s
       | None => split_last 1 s
       end;
     set_order := fun l => l |}.

(** Three unary tables over the two-letter domain, one of them held out;
    the depth of composition and the two held-out counts vary. *)
Definition make_params (max_composition n_compositions n_inputs : Z)
  : Params :=
  {| validation_size := QArith_base.Qmake 1 10;
     max_composition_train := max_composition;
     n_unary_tables := 3;
     n_heldout_tables := 1;
     n_heldout_compositions := n_compositions;
     n_heldout_inputs := n_inputs;
     add_composition_test := 1;
     is_intermediate := true;
     is_shuffle := true;
     is_reverse := true;
     is_stratify := true;
     eos := Some ".";
     max_longer := 10000;
     seed := 123;
     alphabet := ["0"; "1"];
     n_repeats := 2;
     namer := default_namer |}.

Definition params : Params := make_params 2 1 1.
Definition params_nothing_heldout : Params := make_params 2 0 0.
Definition params_shallow : Params := make_params 1 1 1.

Definition world0 : World lib := fresh_world lib 0%nat 0%nat.

Definition domain2 : list string := ["00"; "01"; "10"; "11"].

(** Three unary tables over the domain of the two-letter strings. *)
Definition t1 : Series :=
  {| name := "t1";
     rows := [("00", "01"); ("01", "10"); ("10", "11"); ("11", "00")] |}.
Definition t2 : Series :=
  {| name := "t2";
     rows := [("00", "10"); ("01", "00"); ("10", "11"); ("11", "01")] |}.
Definition t3 : Series :=
  {| name := "t3";
     rows := [("00", "11"); ("01", "01"); ("10", "00"); ("11", "10")] |}.

(** [t1 t2], composed with its intermediate step. *)
Definition t1_t2 : Series :=
  {| name := "t1 t2";
     rows := [("01", "00 01"); ("11", "01 10"); ("00", "10 11");
              ("10", "11 00")] |}.

End Toy.

(** ** Further notions used in the properties *)

(** No white space in a string. *)
Fixpoint no_space (s : string) : bool :=
  match s with
  | EmptyString => true
  | String c s' => negb (is_space c) && no_space s'
  end.

(** A token: what [split] leaves alone. *)
Definition token (s : string) : Prop := split s = [s].

(** The store after [format_input] has been called on each table of a
    list in turn. *)
Definition formatted_store (is_reverse : bool) (eos : option string)
    (dfs : list nat) (h : list Series) : list Series :=
  fold_left (fun h r => update r (formatted is_reverse eos (deref h r)) h)
            dfs h.

(** What the script relies on from [random.sample]. *)
Definition py_sample_spec (L : Library) : Prop :=
  forall n k g l g', py_sample L n k g = (Ok l, g') -> positions_of n k l.

(** The options of the examples, with other held-out counts. *)
Definition with_heldout (tables compositions inputs : Z) (p : Params)
  : Params :=
  mkParams (validation_size p) (max_composition_train p) (n_unary_tables p)
    tables compositions inputs
    (add_composition_test p) (is_intermediate p) (is_shuffle p)
    (is_reverse p) (is_stratify p) (eos p) (max_longer p) (seed p)
    (alphabet p) (n_repeats p) (namer p).

(** A stored table composed of [k] unary tables. *)
Definition composed_depth (h : list Series) (k : nat) (r : nat) : Prop :=
  exists names, composed_of h names r /\ length names = k.

(** The tables of the [i]-th list have the property at [k0 + i]. *)
Definition levels (P : nat -> nat -> Prop) (k0 : nat) (ll : list (list nat))
  : Prop :=
  forall i l, nth_error ll i = Some l -> forall r, In r l -> P (k0 + i) r.

(** A table over the inputs [D]: its labels are the inputs, each once,
    and each of its values ends in an input. *)
Definition over_domain (D : list string) (t : Series) : Prop :=
  Permutation (index t) D /\
  Forall (fun v => exists k, last_token v = Some k /\ In k D) (data t).

(** A stored table with the property [Q]. *)
Definition stored (Q : Series -> Prop) (h : list Series) (r : nat) : Prop :=
  (r < length h)%nat /\ Q (deref h r).

(** [table[i]] for a label that is there: the value of its first row. *)
Definition lookup (t : Series) (i : string) : option string :=
  option_map snd (find (fun r => String.eqb (fst r) i) (rows t)).

(** The outputs of a chain of tables on an input, in the order in which
    the tables are applied: each table is looked up at the output of the
    one before. *)
Fixpoint chain (tables : list Series) (i : string) : option (list string) :=
  match tables with
  | [] => Some []
  | t :: rest =>
      match lookup t i with
      | Some v => option_map (cons v) (chain rest v)
      | None => None
      end
  end.

(** The target made of these outputs: all of them, or the last one. *)
Definition target (is_intermediate : bool) (outputs : list string) : string :=
  if is_intermediate then join " " outputs else last outputs "".

(** A unary table over the inputs [D]: a row for each input, and each
    value an input and a token. *)
Definition unary_over (D : list string) (t : Series) : Prop :=
  Permutation (index t) D /\ Forall (fun v => token v /\ In v D) (data t).

(** The table [t] computes the composition of [tables], named from the
    left and applied from the right: it has a row for each input of [D],
    whose value is the target made of the outputs of the chain. *)
Definition computes (b : bool) (D : list string) (tables : list Series)
    (t : Series) : Prop :=
  Permutation (index t) D /\
  forall i, In i D ->
    exists outputs,
      chain (rev tables) i = Some outputs /\
      length outputs = length tables /\
      lookup t i = Some (target b outputs).

(** A table over [D] whose values all have [k] tokens. *)
Definition valued (D : list string) (k : nat) (t : Series) : Prop :=
  over_domain D t /\ Forall (fun v => length (split v) = k) (data t).

Definition with_is_intermediate (b : bool) (p : Params) : Params :=
  mkParams (validation_size p) (max_composition_train p) (n_unary_tables p)
    (n_heldout_tables p) (n_heldout_compositions p) (n_heldout_inputs p)
    (add_composition_test p) b (is_shuffle p)
    (is_reverse p) (is_stratify p) (eos p) (max_longer p) (seed p)
    (alphabet p) (n_repeats p) (namer p).

(** The target of a longer composition: the outputs of the chain from
    position [c] on. *)
Definition target_from (c : nat) (outputs : list string) : string :=
  join " " (skipn c outputs).

(** The table [t] holds, for each input of [D], the outputs of the chain
    of [tables] from position [c] on. *)
Definition computes_from (c : nat) (D : list string) (tables : list Series)
    (t : Series) : Prop :=
  Permutation (index t) D /\
  forall i, In i D ->
    exists outputs,
      chain (rev tables) i = Some outputs /\
      length outputs = length tables /\
      lookup t i = Some (target_from c outputs).

(** A row of a table called [nm] is an example of a composition: the
    tokens of [nm] are the names of unary tables [fs] of the run, the
    label of the row is an input of the domain, and its value is the
    target [tg] makes of the outputs of the chain of [fs] on this input,
    the last table of the name applied first. The unary tables are read
    in the store [h0]. *)
Definition example_of (tg : list string -> string) (D : list string)
    (h0 : list Series) (unary : list nat) (nm : string)
    (row : string * string) : Prop :=
  exists fs outputs,
    fs <> [] /\ incl fs unary /\
    split nm = map (name_in h0) fs /\
    In (fst row) D /\
    chain (rev (map (deref h0) fs)) (fst row) = Some outputs /\
    length outputs = length fs /\
    snd row = tg outputs.

(** A table all of whose rows are examples under its name. *)
Definition examples (tg : list string -> string) (D : list string)
    (h0 : list Series) (unary : list nat) (t : Series) : Prop :=
  Forall (example_of tg D h0 unary (name t)) (rows t).

(** A row of a block: an example under its formatted label. *)
Definition formatted_example (tg : list string -> string) (D : list string)
    (h0 : list Series) (unary : list nat) (is_reverse : bool)
    (eos : option string) (row : string * string) : Prop :=
  exists nm i,
    example_of tg D h0 unary nm (i, snd row) /\
    fst row = format_key nm is_reverse eos i.

(** The rows of the six building blocks. *)
Definition block_rows (b : Blocks) : list (string * string) :=
  (b_unary b ++ b_multiary_train b ++ b_heldout_inputs b
   ++ b_heldout_compositions b ++ b_heldout_tables b
   ++ b_new_compositions b)%list.

(** Where the targets of the longer compositions start: with the first
    output when the training compositions keep the intermediate steps,
    with their final output otherwise. *)
Definition longer_from (p : Params) : nat :=
  if is_intermediate p then 0%nat
  else (Z.to_nat (max_composition_train p) - 1)%nat.

(** The invariants of the loop under [# longer], over the unary tables
    [unary] as the store [h0] has them: a unary table of the run, in a
    store that extends [h0]; and a stored composition of [k] unary tables
    whose targets start at position [c]. *)
Definition longer_unary (h0 : list Series) (unary : list nat)
    (h : list Series) (x : nat) : Prop :=
  In x unary /\ extends h0 h.

Definition longer_level (c : nat) (D : list string) (h0 : list Series)
    (unary : list nat) (h : list Series) (k r : nat) : Prop :=
  exists fs,
    length fs = k /\ (c < k)%nat /\ incl fs unary /\
    composed_of h (map (name_in h0) fs) r /\
    computes_from c D (map (deref h0) fs) (deref h r).

(** * Properties *)

(** ** Strings *)

Lemma fields_not_nil s : fields s <> [].
Proof.
  destruct s as [|c s]; simpl; [discriminate|].
  destruct (is_space c); [discriminate|].
  destruct (fields s); discriminate.
Qed.

Lemma fields_app_space a c b :
  is_space c = true ->
  fields (a ++ String c b) = (fields a ++ fields b)%list.
Proof.
  intros Hc. induction a as [|x a IH]; simpl.
  - now rewrite Hc.
  - rewrite IH. destruct (is_space x); [reflexivity|].
    destruct (fields a) as [|w ws] eqn:E; [now apply fields_not_nil in E|].
    reflexivity.
Qed.

Lemma split_app_space a c b :
  is_space c = true -> split (a ++ String c b) = (split a ++ split b)%list.
Proof.
  intros Hc. unfold split. now rewrite fields_app_space, filter_app.
Qed.

Lemma last_opt_app {A} (l1 l2 : list A) :
  l2 <> [] -> last_opt (l1 ++ l2)%list = last_opt l2.
Proof.
  intros H. induction l1 as [|x l1 IH]; [reflexivity|].
  simpl. destruct (l1 ++ l2)%list eqn:E; [|exact IH].
  destruct l1; simpl in E; [congruence|discriminate].
Qed.

(** The last token of ["r l"] is the last token of [l], if [l] has one. *)
Lemma last_token_spaced r l :
  split l <> [] -> last_token (r ++ String " " l) = last_token l.
Proof.
  intros H. unfold last_token.
  rewrite split_app_space by reflexivity. now apply last_opt_app.
Qed.

(** ** 4.2 The composer *)

Lemma in_merge left right m :
  In m (merge left right) ->
  exists l r, In l left /\ In r right /\ m = (fst r, (snd l, snd r)).
Proof.
  unfold merge. intros H. apply in_flat_map in H as (l & Hl & H).
  apply in_flat_map in H as (r & Hr & H).
  exists l, r. repeat split; trivial.
  destruct (last_token (snd r)); [|contradiction].
  destruct (String.eqb s (fst l)); [|contradiction].
  destruct H as [H|[]]. now symmetry.
Qed.

(** Both modes keep the rows of the merge in the same order. *)
Lemma compose_index_mode table1 table2 f t :
  compose_table_lookups table1 table2 false = Ok f ->
  compose_table_lookups table1 table2 true = Ok t ->
  name f = name t /\ index f = index t.
Proof.
  unfold compose_table_lookups. intros Hf Ht.
  destruct (merged_columns (name table1) (name table2)) as [[lc rc]|e];
    [|discriminate].
  injection Hf as <-. injection Ht as <-. unfold index. simpl.
  split; [reflexivity|]. now rewrite !map_map.
Qed.

Lemma compose_raise_mode table1 table2 b e :
  compose_table_lookups table1 table2 b = Raise e ->
  forall b', compose_table_lookups table1 table2 b' = Raise e.
Proof.
  unfold compose_table_lookups. intros H b'.
  destruct (merged_columns (name table1) (name table2)) as [[lc rc]|e'];
    [discriminate|exact H].
Qed.




(** ** 4.6 The formatter *)

Lemma filter_flat_map {A B} (p : B -> bool) (f : A -> list B) l :
  filter p (flat_map f l) = flat_map (fun x => filter p (f x)) l.
Proof.
  induction l as [|x l IH]; [reflexivity|].
  simpl. now rewrite filter_app, IH.
Qed.

Lemma filter_map_comm {A B} (p : B -> bool) (h : A -> B) l :
  filter p (map h l) = map h (filter (fun x => p (h x)) l).
Proof.
  induction l as [|x l IH]; [reflexivity|].
  simpl. destruct (p (h x)); simpl; now rewrite IH.
Qed.

(** The merged rows for one input are the merge with the row of the right
    table for that input. *)
Lemma filter_merge_index k left right :
  filter (fun m => String.eqb (fst m) k) (merge left right)
  = merge left (filter (fun r => String.eqb (fst r) k) right).
Proof.
  unfold merge. rewrite filter_flat_map. apply flat_map_ext. intros l.
  induction right as [|r right IH]; [reflexivity|].
  simpl. rewrite filter_app, IH.
  destruct (String.eqb (fst r) k) eqn:E; simpl;
    destruct (last_token (snd r)); trivial;
    destruct (String.eqb s (fst l)); simpl; now rewrite ?E.
Qed.

Lemma rows_of_index4 (t : Series) k1 k2 k3 k4 :
  index t = [k1; k2; k3; k4] ->
  exists v1 v2 v3 v4, rows t = [(k1, v1); (k2, v2); (k3, v3); (k4, v4)].
Proof.
  unfold index. destruct (rows t) as [|[a1 v1] [|[a2 v2] [|[a3 v3] [|[a4 v4] [|]]]]];
    simpl; intros H; try discriminate.
  injection H as -> -> -> ->. now exists v1, v2, v3, v4.
Qed.

Section Store.
Variable L : Library.

Lemma update_length {A} i (x : A) l : length (update i x l) = length l.
Proof.
  revert i. induction l as [|y l IH]; intros [|i]; simpl; auto.
Qed.

Lemma nth_update_same {A} i (x d : A) l :
  (i < length l)%nat -> nth i (update i x l) d = x.
Proof.
  revert i. induction l as [|y l IH]; intros [|i]; simpl; intros H;
    try lia; auto. apply IH. lia.
Qed.

Lemma nth_update_other {A} i j (x d : A) l :
  i <> j -> nth j (update i x l) d = nth j l d.
Proof.
  revert i j. induction l as [|y l IH]; intros [|i] [|j]; simpl; intros H;
    try congruence; auto.
Qed.

Lemma update_update {A} i (x y : A) l :
  update i x (update i y l) = update i x l.
Proof.
  revert i. induction l as [|z l IH]; intros [|i]; simpl; congruence.
Qed.

Lemma map_index_compose f g t :
  map_index f (map_index g t) = map_index (fun i => f (g i)) t.
Proof.
  unfold map_index. simpl. now rewrite map_map.
Qed.

(** [format_input] returns the table it was given, and leaves in its place
    the table with every label formatted; nothing else in the world moves. *)
Lemma format_input_spec is_reverse eos table (w : World L) :
  format_input L is_reverse eos table w
  = (Ok table,
     mkWorld L (update table (formatted is_reverse eos (deref (heap w) table))
                       (heap w))
             (py_rng w) (np_rng w)).
Proof.
  unfold format_input, bind, load, set_index, ret, formatted, deref.
  simpl.
  assert (E : forall f g h,
     update table (map_index f (nth table (update table (map_index g (nth table h no_table)) h) no_table))
            (update table (map_index g (nth table h no_table)) h)
     = update table (map_index (fun i => f (g i)) (nth table h no_table)) h).
  { intros f g h. destruct (Nat.lt_ge_cases table (length h)) as [Hl|Hl].
    - now rewrite nth_update_same, update_update, map_index_compose.
    - rewrite update_update. f_equal.
      rewrite !(nth_overflow _ _ Hl).
      rewrite nth_overflow by (now rewrite update_length).
      reflexivity. }
  unfold format_key.
  destruct is_reverse; simpl;
    (destruct eos as [e|]; [destruct (nonempty e)|]); simpl;
    rewrite ?E; reflexivity.
Qed.

Lemma compose_ref_spec is_intermediate x y (w : World L) :
  compose_ref L is_intermediate x y w
  = match compose_table_lookups (deref (heap w) x) (deref (heap w) y)
            is_intermediate with
    | Ok c => (Ok (length (heap w)),
               mkWorld L (heap w ++ [c]) (py_rng w) (np_rng w))
    | Raise e => (Raise e, w)
    end.
Proof.
  unfold compose_ref, bind, load, lift, alloc. simpl.
  now destruct (compose_table_lookups _ _ _).
Qed.

Lemma deref_new (h : list Series) t : deref (h ++ [t]) (length h) = t.
Proof. unfold deref. now rewrite nth_middle. Qed.

Lemma deref_old (h h' : list Series) r :
  (r < length h)%nat -> deref (h ++ h') r = deref h r.
Proof. intros H. unfold deref. now rewrite app_nth1. Qed.

(** C7. Two unary tables named [t1] and [t2] over the two-letter domain,
    with t2(00) = 10 and t1(10) = 11, held in the store: composing them
    with the intermediate step gives a table named ["t1 t2"] whose only
    row for input ["00"] has the output ["10 11"]; [format_input] with
    [is_reverse] and the end-of-sequence token ["."] then leaves that
    table with the one row keyed ["00 t2 t1 ."], of value ["10 11"]. *)
Theorem C7_compose_format_scenario (w : World L) (x y : ref) :
  name (deref (heap w) x) = "t1" ->
  name (deref (heap w) y) = "t2" ->
  index (deref (heap w) x) = Toy.domain2 ->
  index (deref (heap w) y) = Toy.domain2 ->
  In ("00", "10") (rows (deref (heap w) y)) ->
  In ("10", "11") (rows (deref (heap w) x)) ->
  exists c w',
    compose_table_lookups (deref (heap w) x) (deref (heap w) y) true = Ok c /\
    name c = "t1 t2" /\
    filter (fun r => String.eqb (fst r) "00") (rows c) = [("00", "10 11")] /\
    bind (compose_ref L true x y) (format_input L true (Some ".")) w
      = (Ok (length (heap w)), w') /\
    name (deref (heap w') (length (heap w))) = "t1 t2" /\
    filter (fun r => String.eqb (fst r) "00 t2 t1 .")
           (rows (deref (heap w') (length (heap w))))
      = [("00 t2 t1 .", "10 11")].
Proof.
  intros N1 N2 I1 I2 R2 R1.
  destruct (rows_of_index4 _ _ _ _ _ I1) as (a1 & a2 & a3 & a4 & E1).
  destruct (rows_of_index4 _ _ _ _ _ I2) as (b1 & b2 & b3 & b4 & E2).
  assert (b1 = "10") as ->.
  { rewrite E2 in R2. simpl in R2.
    destruct R2 as [H|[H|[H|[H|[]]]]]; congruence. }
  assert (a3 = "11") as ->.
  { rewrite E1 in R1. simpl in R1.
    destruct R1 as [H|[H|[H|[H|[]]]]]; congruence. }
  set (c := {| name := "t1 t2";
               rows := map (fun m : string * (string * string) =>
                              (fst m, snd (snd m) ++ " " ++ fst (snd m)))
                           (merge (rows (deref (heap w) x))
                                  (rows (deref (heap w) y))) |}).
  assert (Hc : compose_table_lookups (deref (heap w) x) (deref (heap w) y) true
               = Ok c).
  { unfold compose_table_lookups. now rewrite N1, N2. }
  assert (Hrows : filter (fun r => String.eqb (fst r) "00") (rows c)
                  = [("00", "10 11")]).
  { unfold c. cbn [rows]. rewrite filter_map_comm. cbn [fst].
    rewrite filter_merge_index, E1, E2. reflexivity. }
  exists c. eexists. split; [exact Hc|]. split; [reflexivity|].
  split; [exact Hrows|].
  unfold bind. rewrite compose_ref_spec, Hc, format_input_spec.
  split; [reflexivity|].
  cbn [heap]. rewrite deref_new.
  unfold deref at 1 2.
  rewrite nth_update_same by (rewrite length_app; simpl; lia).
  split; [reflexivity|].
  unfold formatted, map_index. cbn [rows name].
  rewrite filter_map_comm. cbn [fst].
  rewrite (filter_ext_in _ (fun r => String.eqb (fst r) "00")).
  - now rewrite Hrows.
  - intros [k v] Hin. apply in_map_iff in Hin as (m & Hm & Hin).
    apply in_merge in Hin as (l & r & _ & Hr & ->).
    injection Hm as <- _. rewrite E2 in Hr. simpl in Hr.
    destruct Hr as [<-|[<-|[<-|[<-|[]]]]]; reflexivity.
Qed.

End Store.

Lemma C7_compose_format_scenario_witness :
  exists c,
    compose_table_lookups Toy.t1 Toy.t2 true = Ok c /\
    filter (fun r => String.eqb (fst r) "00 t2 t1 .")
           (rows (formatted true (Some ".") c))
    = [("00 t2 t1 .", "10 11")].
Proof.
  destruct (C7_compose_format_scenario Toy.lib
              (mkWorld Toy.lib [Toy.t1; Toy.t2] 0%nat 0%nat) 0%nat 1%nat)
    as (c & w' & Hc & _ & _ & Hrun & _ & Hrow);
    try reflexivity; try (simpl; tauto).
  exists c. split; [exact Hc|].
  vm_compute in Hc. injection Hc as <-. reflexivity.
Defined.

(** ** 4.3 The partitioner *)

Lemma truthy_filter {A} (p : A -> bool) l : truthy (filter p l) = existsb p l.
Proof.
  induction l as [|x l IH]; [reflexivity|].
  simpl. destruct (p x); [reflexivity|exact IH].
Qed.

Lemma existsb_nodup (p : string -> bool) l :
  existsb p (nodup string_dec l) = existsb p l.
Proof.
  apply eq_true_iff_eq. rewrite !existsb_exists.
  split; intros (x & Hx & Hp); exists x; split; trivial;
    now apply (nodup_In string_dec).
Qed.

Lemma truthy_composed_of n tables :
  truthy (_table_is_composed_of n tables) = has_token n tables.
Proof.
  unfold _table_is_composed_of, has_token.
  now rewrite truthy_filter, existsb_nodup.
Qed.

Lemma mem_In x l : mem x l = true <-> In x l.
Proof.
  unfold mem. rewrite existsb_exists. split.
  - intros (y & Hy & E). apply String.eqb_eq in E. now subst.
  - intros H. exists x. split; [exact H|apply String.eqb_refl].
Qed.

Lemma has_token_spec n tables :
  has_token n tables = true <->
  exists tok, In tok (split n) /\ In tok tables.
Proof.
  unfold has_token. rewrite existsb_exists.
  split; intros (tok & H1 & H2); exists tok; split; trivial;
    now apply mem_In.
Qed.

(** Three tests of which exactly one holds on each element split a list
    into three parts that together are the list, rearranged. *)
Lemma filter3_permutation {A} (p q r : A -> bool) l :
  (forall x, In x l ->
     (p x = true /\ q x = false /\ r x = false) \/
     (p x = false /\ q x = true /\ r x = false) \/
     (p x = false /\ q x = false /\ r x = true)) ->
  Permutation (filter p l ++ filter q l ++ filter r l)%list l.
Proof.
  induction l as [|x l IH]; intros H; [constructor|].
  assert (IH' := IH (fun y Hy => H y (or_intror Hy))).
  simpl. destruct (H x (or_introl eq_refl))
    as [(-> & -> & ->)|[(-> & -> & ->)|(-> & -> & ->)]].
  - simpl. now constructor.
  - symmetry. apply Permutation_cons_app. now symmetry.
  - symmetry. rewrite app_assoc. apply Permutation_cons_app.
    rewrite <- app_assoc. now symmetry.
Qed.

Section PartitionerFacts.
Context {A : Type} (name_of : A -> string).
Variables (universe name_train name_test : list string).

Hypothesis names_cover :
  forall x, In x universe <-> In x name_train \/ In x name_test.

Lemma composed_has_token t :
  composed_over name_of universe t ->
  has_token (name_of t) name_train = true \/
  has_token (name_of t) name_test = true.
Proof.
  intros [Hne Hall]. destruct (split (name_of t)) as [|tok toks] eqn:E;
    [congruence|].
  destruct (proj1 (names_cover tok)) as [H|H].
  - apply Hall. now left.
  - left. apply has_token_spec. exists tok. rewrite E. split; [now left|exact H].
  - right. apply has_token_spec. exists tok. rewrite E. split; [now left|exact H].
Qed.

Lemma one_class t :
  composed_over name_of universe t ->
  (is_seen name_of name_test t = true /\
   is_unseen name_of name_train name_test t = false /\
   is_new name_of name_train t = false) \/
  (is_seen name_of name_test t = false /\
   is_unseen name_of name_train name_test t = true /\
   is_new name_of name_train t = false) \/
  (is_seen name_of name_test t = false /\
   is_unseen name_of name_train name_test t = false /\
   is_new name_of name_train t = true).
Proof.
  intros H. unfold is_seen, is_unseen, is_new.
  rewrite !truthy_composed_of.
  pose proof (composed_has_token t H) as E.
  destruct (has_token (name_of t) name_train),
           (has_token (name_of t) name_test); simpl; auto 10.
  destruct E; discriminate.
Qed.

End PartitionerFacts.

(** C1. Take composed tables whose names have at least one token, all of
    them names of unary tables, and two sets of names that together make
    up the unary tables (that they are disjoint is not needed). Then
    [_split_seen_unseen_new] returns three lists such that: no table of
    [seen] has a held-out token, no table of [new] has a train token, every
    table of [unseen] has a token of each kind; no table is in two of the
    lists; every input table is in one of them; the three lengths sum to
    the length of the input; and the three lists together are the input,
    rearranged. *)
Theorem C1_split_seen_unseen_new_partition {A} (name_of : A -> string)
    (dfs : list A) (universe name_train name_test : list string) :
  (forall x, In x universe <-> In x name_train \/ In x name_test) ->
  (forall t, In t dfs -> composed_over name_of universe t) ->
  let '(seen, unseen, new) :=
    _split_seen_unseen_new name_of dfs name_train name_test in
  (forall t, In t seen ->
     forall tok, In tok (split (name_of t)) -> ~ In tok name_test) /\
  (forall t, In t new ->
     forall tok, In tok (split (name_of t)) -> ~ In tok name_train) /\
  (forall t, In t unseen ->
     (exists tok, In tok (split (name_of t)) /\ In tok name_train) /\
     (exists tok, In tok (split (name_of t)) /\ In tok name_test)) /\
  (forall t, ~ (In t seen /\ In t unseen)) /\
  (forall t, ~ (In t seen /\ In t new)) /\
  (forall t, ~ (In t unseen /\ In t new)) /\
  (forall t, In t dfs -> In t seen \/ In t unseen \/ In t new) /\
  (length seen + length unseen + length new = length dfs)%nat /\
  Permutation (seen ++ unseen ++ new)%list dfs.
Proof.
  intros Hcover Hcomp. unfold _split_seen_unseen_new.
  pose proof (fun t Ht => one_class name_of universe name_train name_test
                            Hcover t (Hcomp t Ht)) as Hone.
  assert (Hperm := filter3_permutation (is_seen name_of name_test)
                     (is_unseen name_of name_train name_test)
                     (is_new name_of name_train) dfs Hone).
  repeat split.
  - intros t Ht tok Htok Hin. apply filter_In in Ht as [_ Ht].
    unfold is_seen in Ht. rewrite truthy_composed_of in Ht.
    apply negb_true_iff in Ht.
    assert (has_token (name_of t) name_test = true)
      by (apply has_token_spec; eauto).
    congruence.
  - intros t Ht tok Htok Hin. apply filter_In in Ht as [_ Ht].
    unfold is_new in Ht. rewrite truthy_composed_of in Ht.
    apply negb_true_iff in Ht.
    assert (has_token (name_of t) name_train = true)
      by (apply has_token_spec; eauto).
    congruence.
  - apply filter_In in H as [_ Ht]. unfold is_unseen in Ht.
    rewrite !truthy_composed_of in Ht. apply andb_true_iff in Ht as [_ Ht].
    now apply has_token_spec.
  - apply filter_In in H as [_ Ht]. unfold is_unseen in Ht.
    rewrite !truthy_composed_of in Ht. apply andb_true_iff in Ht as [Ht _].
    now apply has_token_spec.
  - intros t [H1 H2]. apply filter_In in H1 as [Hin H1].
    apply filter_In in H2 as [_ H2].
    destruct (Hone t Hin) as [(?&?&?)|[(?&?&?)|(?&?&?)]]; congruence.
  - intros t [H1 H2]. apply filter_In in H1 as [Hin H1].
    apply filter_In in H2 as [_ H2].
    destruct (Hone t Hin) as [(?&?&?)|[(?&?&?)|(?&?&?)]]; congruence.
  - intros t [H1 H2]. apply filter_In in H1 as [Hin H1].
    apply filter_In in H2 as [_ H2].
    destruct (Hone t Hin) as [(?&?&?)|[(?&?&?)|(?&?&?)]]; congruence.
  - intros t Hin. rewrite !filter_In.
    destruct (Hone t Hin) as [(?&?&?)|[(?&?&?)|(?&?&?)]]; auto.
  - apply Permutation_length in Hperm. rewrite !length_app in Hperm. lia.
  - exact Hperm.
Qed.

Lemma C1_split_seen_unseen_new_partition_witness :
  let dfs := [Toy.t1_t2;
              {| name := "t3 t3"; rows := [] |};
              {| name := "t2 t3"; rows := [] |}] in
  let '(seen, unseen, new) :=
    _split_seen_unseen_new name dfs ["t1"; "t2"] ["t3"] in
  (length seen + length unseen + length new = 3)%nat /\
  Permutation (seen ++ unseen ++ new)%list dfs.
Proof.
  pose proof (C1_split_seen_unseen_new_partition name
                [Toy.t1_t2;
                 {| name := "t3 t3"; rows := [] |};
                 {| name := "t2 t3"; rows := [] |}]
                ["t1"; "t2"; "t3"] ["t1"; "t2"] ["t3"]) as H.
  cbv zeta. 
  destruct (_split_seen_unseen_new name _ ["t1"; "t2"] ["t3"])
    as [[seen unseen] new].
  apply H.
  - intros x. simpl. tauto.
  - intros t [<-|[<-|[<-|[]]]]; (split; [discriminate|]);
      vm_compute; tauto.
Defined.

(** ** The monad *)

Section MonadFacts.
Variable L : Library.

Lemma bind_ok {A B} (c : M L A) (k : A -> M L B) w a w' :
  c w = (Ok a, w') -> bind c k w = k a w'.
Proof. unfold bind. now intros ->. Qed.

Lemma bind_raise {A B} (c : M L A) (k : A -> M L B) w e w' :
  c w = (Raise e, w') -> bind c k w = (Raise e, w').
Proof. unfold bind. now intros ->. Qed.

(** A computation that returns has run its first part to the end. *)
Lemma bind_inv {A B} (c : M L A) (k : A -> M L B) w b w' :
  bind c k w = (Ok b, w') ->
  exists a w1, c w = (Ok a, w1) /\ k a w1 = (Ok b, w').
Proof.
  unfold bind. destruct (c w) as [[a|e] w1]; [|discriminate].
  intros H. now exists a, w1.
Qed.

Lemma raises_bind {A B} (c : M L A) (k : A -> M L B) w :
  (forall a w', raises (k a w')) -> raises (bind c k w).
Proof.
  intros H. unfold bind. destruct (c w) as [[a|e] w1].
  - apply H.
  - now exists e.
Qed.

Lemma raises_bind_ok {A B} (c : M L A) (k : A -> M L B) w :
  (forall a w', c w = (Ok a, w') -> raises (k a w')) -> raises (bind c k w).
Proof.
  intros H. unfold bind. destruct (c w) as [[a|e] w1].
  - now apply H.
  - now exists e.
Qed.

Lemma raises_bind_first {A B} (c : M L A) (k : A -> M L B) w :
  raises (c w) -> raises (bind c k w).
Proof.
  intros [e H]. unfold bind.
  destruct (c w) as [[a|e'] w1]; simpl in H; [discriminate|].
  now exists e'.
Qed.

Lemma mapM_length {A B} (f : A -> M L B) l w bs w' :
  mapM f l w = (Ok bs, w') -> length bs = length l.
Proof.
  revert w bs w'. induction l as [|x l IH]; intros w bs w' H; simpl in H.
  - injection H as <- _. reflexivity.
  - apply bind_inv in H as (y & w1 & _ & H).
    apply bind_inv in H as (ys & w2 & H & E).
    injection E as <- _. simpl. f_equal. eapply IH, H.
Qed.

Lemma mapM_cons_inv {A B} (f : A -> M L B) x l w ys w' :
  mapM f (x :: l) w = (Ok ys, w') ->
  exists y ys' w1,
    f x w = (Ok y, w1) /\ mapM f l w1 = (Ok ys', w') /\ ys = y :: ys'.
Proof.
  intros H. cbn [mapM] in H.
  apply bind_inv in H as (y & w1 & Hy & H).
  apply bind_inv in H as (ys' & w2 & Hys & H).
  injection H as <- <-. now exists y, ys', w1.
Qed.

(** Reading the names of tables never raises and changes nothing. *)
Lemma names_of_spec tables (w : World L) :
  names_of L tables w
  = (Ok (map (fun r => name (deref (heap w) r)) tables), w).
Proof.
  unfold names_of. induction tables as [|r tables IH]; [reflexivity|].
  cbn [mapM map]. unfold bind at 1 2. unfold load at 1. unfold ret at 1.
  unfold bind at 1. rewrite IH. reflexivity.
Qed.

End MonadFacts.

(** ** Depths of composition and [flatten] *)

Lemma py_range_empty a b : (b <= a)%Z -> py_range a b = [].
Proof.
  intros H. unfold py_range. replace (Z.to_nat (b - a)) with O by lia.
  reflexivity.
Qed.

Lemma py_range_length a b : length (py_range a b) = Z.to_nat (b - a).
Proof. unfold py_range. now rewrite length_map, length_seq. Qed.

Lemma fold_left_app_concat {A} (xs : list (list A)) x :
  fold_left (@app A) xs x = (x ++ concat xs)%list.
Proof.
  revert x. induction xs as [|y xs IH]; intros x; simpl.
  - now rewrite app_nil_r.
  - now rewrite IH, app_assoc.
Qed.

Lemma flatten_ok {A} (l : list (list A)) :
  l <> [] -> flatten l = Ok (concat l).
Proof.
  destruct l as [|x xs]; [congruence|]. intros _. simpl.
  now rewrite fold_left_app_concat.
Qed.

Section Depth.
Variable L : Library.

Lemma make_tables_shallow p (w : World L) :
  (max_composition_train p < 2)%Z ->
  raises (make_tables L p w) /\
  forall unary w1, unary_tables L p w = (Ok unary, w1) ->
    make_tables L p w = (Raise TypeError, w1).
Proof.
  intros Hm. unfold make_tables, unary_tables. split.
  - do 5 (apply raises_bind; intros ? ?).
    rewrite py_range_empty by lia. now exists TypeError.
  - intros unary w1 H.
    apply bind_inv in H as ([] & wa & Ha & H).
    apply bind_inv in H as ([] & wb & Hb & H).
    rewrite (bind_ok _ _ _ _ _ _ Ha), (bind_ok _ _ _ _ _ _ Hb).
    rewrite (bind_ok _ _ _ _ _ _ H).
    rewrite (bind_ok _ _ _ _ _ _ (names_of_spec _ _ _)).
    rewrite (bind_ok _ _ _ _ _ _ (names_of_spec _ _ _)).
    rewrite py_range_empty by lia. reflexivity.
Qed.

(** C10. A call with [max_composition_train] below 2 raises and does not
    return: there is no depth to compose at, and [flatten] reduces an empty
    list (a [TypeError] once the unary tables exist). With
    [max_composition_train] at least 2 the list of depths is not empty and
    [flatten] returns the concatenation of whatever lists it is given, one
    per depth. *)
Theorem C10_max_composition_train_below_2 p (w : World L) :
  ((max_composition_train p < 2)%Z ->
     raises (table_lookup_dataset L p w) /\
     forall unary w1, unary_tables L p w = (Ok unary, w1) ->
       table_lookup_dataset L p w = (Raise TypeError, w1)) /\
  ((2 <= max_composition_train p)%Z ->
     py_range 2 (max_composition_train p + 1) <> [] /\
     forall per_depth : list (list ref),
       length per_depth = length (py_range 2 (max_composition_train p + 1)) ->
       flatten per_depth = Ok (concat per_depth)).
Proof.
  split.
  - intros Hm. destruct (make_tables_shallow p w Hm) as [H1 H2]. split.
    + unfold table_lookup_dataset, building_blocks, heldout_stage.
      now do 3 apply raises_bind_first.
    + intros unary w1 H.
      unfold table_lookup_dataset. apply bind_raise.
      unfold building_blocks. apply bind_raise.
      unfold heldout_stage. apply bind_raise. exact (H2 _ _ H).
  - intros Hm.
    assert (Hlen : length (py_range 2 (max_composition_train p + 1)) <> O)
      by (rewrite py_range_length; lia).
    split.
    + intros E. now rewrite E in Hlen.
    + intros per_depth Hl. apply flatten_ok. intros E.
      rewrite E in Hl. simpl in Hl. lia.
Qed.

End Depth.

(** ** The flags and the seed *)

Section Flags.
Variable L : Library.

(** C9, what the code does: [table_lookup_dataset] never reads its
    [is_stratify] option. The call of [_uniform_split] leaves the argument
    out, so the split is always asked to stratify; a run with the option
    off is the run with the option on. *)
Theorem C9_is_stratify_not_passed (p : Params) (w : World L) :
  table_lookup_dataset L (with_is_stratify false p) w
  = table_lookup_dataset L (with_is_stratify true p) w.
Proof. reflexivity. Qed.


End Flags.

(** ** The held-out split with nothing to hold out *)

Lemma slice_bound_0 len : slice_bound (- 0) len = O.
Proof. reflexivity. Qed.

Section NothingHeldOut.
Variable L : Library.

(** With [n_heldout_compositions = 0] both slices are taken at position 0:
    every table of the shuffled list goes to the held-out compositions and
    none stays for training. *)
Lemma heldout_split_zero p (pool : list ref) (w : World L) :
  n_heldout_compositions p = 0%Z ->
  heldout_split L p pool w = (Ok ([], [], pool), w).
Proof.
  intros E. unfold heldout_split. rewrite E.
  unfold slice_to, slice_from. rewrite slice_bound_0. reflexivity.
Qed.

Lemma build_blocks_no_train p tb hi hc (w : World L) :
  raises (build_blocks L p tb ([], hi, hc) w).
Proof.
  unfold build_blocks, merge_format, _merge_format_inputs.
  apply raises_bind_first. apply raises_bind_first.
  cbn [mapM fst snd]. apply raises_bind. intros u w1.
  apply raises_bind_first. apply raises_bind_first.
  now exists ValueError.
Qed.

(** C3, what the code does. With [n_heldout_compositions = 0] the held-out
    compositions are the whole shuffled pool and the training pool is
    empty, whatever [n_heldout_inputs]; the call then raises (at the latest
    when [pd.concat] gets the empty list of training tables) and returns
    no split. *)
Theorem C3_zero_heldout_compositions p (w : World L) :
  n_heldout_compositions p = 0%Z ->
  (forall pool w1, heldout_split L p pool w1 = (Ok ([], [], pool), w1)) /\
  raises (table_lookup_dataset L p w).
Proof.
  intros E. split; [intros; now apply heldout_split_zero|].
  unfold table_lookup_dataset, building_blocks.
  apply raises_bind_first. apply raises_bind_ok. intros hs w1 Hs.
  unfold heldout_stage in Hs.
  apply bind_inv in Hs as (tb & wa & _ & Hs).
  apply bind_inv in Hs as (pool & wb & _ & Hs).
  rewrite (bind_ok _ _ _ _ _ _ (heldout_split_zero p pool wb E)) in Hs.
  injection Hs as <- _. cbn [fst snd].
  do 4 (apply raises_bind; intros ? ?).
  apply raises_bind_first. apply build_blocks_no_train.
Qed.

End NothingHeldOut.

(** ** The store: what each stage writes *)

Create HintDb store.

Section StoreFrame.
Variable L : Library.

Lemma extends_refl h : extends h h.
Proof. exists []. now rewrite app_nil_r. Qed.

Lemma extends_trans h1 h2 h3 : extends h1 h2 -> extends h2 h3 -> extends h1 h3.
Proof. intros [n1 ->] [n2 ->]. exists (n1 ++ n2)%list. now rewrite app_assoc. Qed.

Lemma extends_deref h h' r :
  extends h h' -> (r < length h)%nat -> deref h' r = deref h r.
Proof. intros [new ->] Hr. now apply deref_old. Qed.

Lemma extends_length h h' : extends h h' -> (length h <= length h')%nat.
Proof. intros [new ->]. rewrite length_app. lia. Qed.

Lemma frame_refl h : frame h h.
Proof. split; auto. Qed.

Lemma frame_trans h1 h2 h3 : frame h1 h2 -> frame h2 h3 -> frame h1 h3.
Proof.
  intros [L1 F1] [L2 F2]. split; [lia|]. intros r Hr.
  destruct (F2 r ltac:(lia)) as [-> ->]. now apply F1.
Qed.

Lemma extends_frame h h' : extends h h' -> frame h h'.
Proof.
  intros E. split; [now apply extends_length|].
  intros r Hr. now rewrite (extends_deref _ _ _ E Hr).
Qed.

(** *** Computations that only allocate *)

Lemma alloc_only_ret {A} (a : A) : alloc_only (@ret L A a).
Proof. intros w. apply extends_refl. Qed.

Lemma alloc_only_raise {A} e : alloc_only (@raise L A e).
Proof. intros w. apply extends_refl. Qed.

Lemma alloc_only_lift {A} (r : result A) : alloc_only (@lift L A r).
Proof. intros w. apply extends_refl. Qed.

Lemma alloc_only_load r : alloc_only (load L r).
Proof. intros w. apply extends_refl. Qed.

Lemma alloc_only_alloc t : alloc_only (alloc L t).
Proof. intros w. now exists [t]. Qed.

Lemma alloc_only_bind {A B} (c : M L A) (k : A -> M L B) :
  alloc_only c -> (forall a, alloc_only (k a)) -> alloc_only (bind c k).
Proof.
  intros Hc Hk w. unfold bind. specialize (Hc w).
  destruct (c w) as [[a|e] w1]; simpl in *; [|exact Hc].
  eapply extends_trans; [exact Hc|apply Hk].
Qed.

Lemma alloc_only_mapM {A B} (f : A -> M L B) l :
  (forall x, alloc_only (f x)) -> alloc_only (mapM f l).
Proof.
  intros Hf. induction l as [|x l IH]; simpl.
  - apply alloc_only_ret.
  - apply alloc_only_bind; [apply Hf|]. intros y.
    apply alloc_only_bind; [exact IH|]. intros ys. apply alloc_only_ret.
Qed.

Lemma alloc_only_foldM {A B} (f : A -> B -> M L A) l a :
  (forall a x, alloc_only (f a x)) -> alloc_only (foldM f a l).
Proof.
  intros Hf. revert a. induction l as [|x l IH]; intros a; simpl.
  - apply alloc_only_ret.
  - apply alloc_only_bind; [apply Hf|]. intros a'. apply IH.
Qed.

Lemma alloc_only_reduce {A} (f : A -> A -> M L A) l :
  (forall a x, alloc_only (f a x)) -> alloc_only (reduce f l).
Proof.
  intros Hf. destruct l as [|x l]; simpl.
  - apply alloc_only_raise.
  - now apply alloc_only_foldM.
Qed.

(** A computation that leaves the store as it is. *)
Lemma alloc_only_same_heap {A} (c : M L A) :
  (forall w, heap (snd (c w)) = heap w) -> alloc_only c.
Proof. intros H w. rewrite H. apply extends_refl. Qed.

Lemma alloc_only_np_random_seed s : alloc_only (np_random_seed L s).
Proof. now apply alloc_only_same_heap. Qed.

Lemma alloc_only_random_seed s : alloc_only (random_seed L s).
Proof. now apply alloc_only_same_heap. Qed.

Lemma alloc_only_random_shuffle {A} (l : list A) :
  alloc_only (random_shuffle L l).
Proof.
  apply alloc_only_same_heap. intros w. unfold random_shuffle.
  now destruct (py_shuffle L _ _).
Qed.

Lemma alloc_only_random_sample {A} (l : list A) k :
  alloc_only (random_sample L l k).
Proof.
  apply alloc_only_same_heap. intros w. unfold random_sample.
  now destruct (py_sample L _ _ _).
Qed.

Lemma alloc_only_np_random_choice {A} (l : list A) k :
  alloc_only (np_random_choice L l k).
Proof.
  apply alloc_only_same_heap. intros w. unfold np_random_choice.
  now destruct (np_choice L _ _ _).
Qed.

Lemma alloc_only_split_refs dfs tr te : alloc_only (split_refs L dfs tr te).
Proof. now apply alloc_only_same_heap. Qed.

Hint Resolve alloc_only_ret alloc_only_raise alloc_only_lift alloc_only_load
  alloc_only_alloc alloc_only_bind alloc_only_mapM alloc_only_foldM
  alloc_only_reduce alloc_only_np_random_seed alloc_only_random_seed
  alloc_only_random_shuffle alloc_only_random_sample
  alloc_only_np_random_choice alloc_only_split_refs : store.

Lemma alloc_only_compose_ref b x y : alloc_only (compose_ref L b x y).
Proof. unfold compose_ref. auto 10 with store. Qed.

Lemma alloc_only_getitem_ref t labels : alloc_only (getitem_ref L t labels).
Proof. unfold getitem_ref. auto 10 with store. Qed.

Lemma alloc_only_drop_ref t labels : alloc_only (drop_ref L t labels).
Proof. unfold drop_ref. auto 10 with store. Qed.

Lemma alloc_only_names_of tables : alloc_only (names_of L tables).
Proof. unfold names_of. auto 10 with store. Qed.

Hint Resolve alloc_only_compose_ref alloc_only_getitem_ref
  alloc_only_drop_ref alloc_only_names_of : store.

Lemma alloc_only_create N alphabet n_repeats namer seed :
  alloc_only (create_N_table_lookup L N alphabet n_repeats namer seed).
Proof.
  unfold create_N_table_lookup. apply alloc_only_bind; auto with store.
  intros _. destruct (n_repeats <? 0)%Z; auto with store.
  apply alloc_only_bind; [destruct N|]; auto with store.
Qed.

Hint Resolve alloc_only_create : store.

Lemma alloc_only_unary_tables p : alloc_only (unary_tables L p).
Proof. unfold unary_tables. auto 10 with store. Qed.

Lemma alloc_only_make_tables p : alloc_only (make_tables L p).
Proof. unfold make_tables. auto 20 with store. Qed.

Lemma alloc_only_heldout_split p pool : alloc_only (heldout_split L p pool).
Proof. unfold heldout_split. auto 20 with store. Qed.

Lemma alloc_only_compose_pairs t1 t2 : alloc_only (compose_pairs L t1 t2).
Proof. unfold compose_pairs. auto with store. Qed.

Hint Resolve alloc_only_compose_pairs : store.

Lemma alloc_only_longer_loop n tb max_longer longer acc :
  alloc_only (longer_loop L n tb max_longer longer acc).
Proof.
  revert longer acc. induction n as [|n IH]; intros longer acc; simpl.
  - auto with store.
  - apply alloc_only_bind.
    + destruct (max_longer <? _)%Z; auto with store.
    + intros l. auto 10 with store.
Qed.

Hint Resolve alloc_only_longer_loop : store.

Lemma alloc_only_longer_tables p tb : alloc_only (longer_tables L p tb).
Proof.
  unfold longer_tables. apply alloc_only_bind.
  - now apply alloc_only_same_heap.
  - auto 10 with store.
Qed.

End StoreFrame.

#[global] Hint Resolve alloc_only_ret alloc_only_raise alloc_only_lift
  alloc_only_load alloc_only_alloc alloc_only_bind alloc_only_mapM
  alloc_only_foldM alloc_only_reduce alloc_only_np_random_seed
  alloc_only_random_seed alloc_only_random_shuffle alloc_only_random_sample
  alloc_only_np_random_choice alloc_only_split_refs alloc_only_compose_ref
  alloc_only_getitem_ref alloc_only_drop_ref alloc_only_names_of
  alloc_only_create alloc_only_compose_pairs alloc_only_longer_loop
  alloc_only_make_tables alloc_only_heldout_split alloc_only_longer_tables
  : store.

(** *** Computations that may also rewrite labels *)

Section StoreLabels.
Variable L : Library.

Lemma data_map_index f t : data (map_index f t) = data t.
Proof. unfold data, map_index. simpl. now rewrite map_map. Qed.

Lemma index_map_index f t : index (map_index f t) = map f (index t).
Proof. unfold index, map_index. simpl. now rewrite !map_map. Qed.

Lemma frame_update h r f :
  frame h (update r (map_index f (deref h r)) h).
Proof.
  split; [now rewrite update_length|]. intros r' Hr'. unfold deref.
  destruct (Nat.eq_dec r r') as [<-|Hne].
  - rewrite nth_update_same by exact Hr'. now rewrite data_map_index.
  - now rewrite nth_update_other.
Qed.

Lemma framed_alloc_only {A} (c : M L A) : alloc_only c -> framed c.
Proof. intros H w. apply extends_frame, H. Qed.

Lemma framed_ret {A} (a : A) : framed (@ret L A a).
Proof. intros w. apply frame_refl. Qed.

Lemma framed_bind {A B} (c : M L A) (k : A -> M L B) :
  framed c -> (forall a, framed (k a)) -> framed (bind c k).
Proof.
  intros Hc Hk w. unfold bind. specialize (Hc w).
  destruct (c w) as [[a|e] w1]; simpl in *; [|exact Hc].
  eapply frame_trans; [exact Hc|apply Hk].
Qed.

Lemma framed_mapM {A B} (f : A -> M L B) l :
  (forall x, framed (f x)) -> framed (mapM f l).
Proof.
  intros Hf. induction l as [|x l IH]; simpl.
  - apply framed_ret.
  - apply framed_bind; [apply Hf|]. intros y.
    apply framed_bind; [exact IH|]. intros ys. apply framed_ret.
Qed.

Lemma framed_set_index r f : framed (set_index L r f).
Proof. intros w. apply frame_update. Qed.

Lemma framed_format_input is_reverse eos table :
  framed (format_input L is_reverse eos table).
Proof.
  intros w. rewrite format_input_spec. apply frame_update.
Qed.

Lemma framed_pd_concat tables : framed (pd_concat L tables).
Proof.
  destruct tables; intros w; apply frame_refl.
Qed.

Lemma framed_merge_format p list_dfs : framed (merge_format L p list_dfs).
Proof.
  unfold merge_format, _merge_format_inputs.
  apply framed_bind; [|intros; apply framed_ret].
  apply framed_mapM. intros dfs. apply framed_bind.
  - apply framed_mapM. intros t. apply framed_format_input.
  - intros fs. apply framed_pd_concat.
Qed.

Lemma framed_build_blocks p tb ho : framed (build_blocks L p tb ho).
Proof.
  unfold build_blocks. apply framed_bind; [apply framed_merge_format|].
  intros [|b1 [|b2 [|b3 [|b4 [|b5 [|b6 [|]]]]]]];
    intros w; apply frame_refl.
Qed.

Lemma alloc_only_heldout_stage p : alloc_only (heldout_stage L p).
Proof.
  unfold heldout_stage.
  apply alloc_only_bind; [apply alloc_only_make_tables|intros tb].
  apply alloc_only_bind; [apply alloc_only_random_shuffle|intros mt].
  apply alloc_only_bind; [apply alloc_only_heldout_split|intros ho].
  apply alloc_only_ret.
Qed.

Lemma framed_building_blocks p : framed (building_blocks L p).
Proof.
  unfold building_blocks.
  apply framed_bind;
    [apply framed_alloc_only, alloc_only_heldout_stage|intros hs].
  apply framed_bind;
    [apply framed_alloc_only, alloc_only_longer_tables|intros lg].
  do 3 (apply framed_bind; [apply framed_merge_format|intros ?]).
  apply framed_bind; [apply framed_build_blocks|intros b].
  apply framed_ret.
Qed.

Lemma framed_table_lookup_dataset p : framed (table_lookup_dataset L p).
Proof.
  unfold table_lookup_dataset.
  apply framed_bind; [apply framed_building_blocks|intros bb].
  apply framed_bind; [intros w; apply frame_refl|intros _].
  apply framed_bind; [intros w; apply frame_refl|intros tv].
  apply framed_ret.
Qed.


End StoreLabels.


(** ** 4.1 The table generator *)

Lemma length_flat_map_const {A B} (f : A -> list B) l k :
  (forall x, In x l -> length (f x) = k) ->
  length (flat_map f l) = (length l * k)%nat.
Proof.
  induction l as [|x l IH]; intros H; [reflexivity|].
  simpl. rewrite length_app, IH, H; auto using in_eq, in_cons.
Qed.

(** The domain has [|alphabet| ^ n_repeats] inputs. *)
Lemma length_product {A} (l : list A) n :
  length (product l n) = (length l ^ n)%nat.
Proof.
  induction n as [|n IH]; [reflexivity|].
  simpl. rewrite (length_flat_map_const _ _ (length l ^ n)%nat).
  - reflexivity.
  - intros x _. now rewrite length_map.
Qed.

Lemma permutations_upto_length {A} n (l perm : list A) :
  In perm (permutations_upto n l) -> length perm = n.
Proof.
  revert l perm. induction n as [|n IH]; intros l perm H; simpl in H.
  - destruct H as [<-|[]]. reflexivity.
  - apply in_flat_map in H as (s & _ & H).
    apply in_map_iff in H as (q & <- & H). simpl. f_equal. eapply IH, H.
Qed.

Lemma permutations_length {A} (l perm : list A) :
  In perm (permutations l) -> length perm = length l.
Proof. apply permutations_upto_length. Qed.

Lemma pick_In {A} (l : list A) ps x : In x (pick l ps) -> In x l.
Proof.
  unfold pick. intros H. apply in_flat_map in H as (i & _ & H).
  destruct (nth_error l i) eqn:E; [|contradiction].
  destruct H as [<-|[]]. eapply nth_error_In, E.
Qed.

Lemma pick_length {A} (l : list A) ps :
  Forall (fun i => (i < length l)%nat) ps -> length (pick l ps) = length ps.
Proof.
  unfold pick. induction 1 as [|i ps Hi _ IH]; [reflexivity|].
  simpl. rewrite length_app, IH.
  destruct (nth_error l i) eqn:E; [reflexivity|].
  apply nth_error_None in E. lia.
Qed.

Lemma flat_map_ext_In {A B} (f g : A -> list B) l :
  (forall x, In x l -> f x = g x) -> flat_map f l = flat_map g l.
Proof.
  intros H. rewrite !flat_map_concat_map. f_equal. now apply map_ext_in.
Qed.

Lemma pick_all {A} (l : list A) : pick l (seq 0 (length l)) = l.
Proof.
  unfold pick. induction l as [|x l IH] using rev_ind; [reflexivity|].
  rewrite length_app, seq_app, flat_map_app. simpl.
  rewrite nth_error_app2, Nat.sub_diag by lia. simpl.
  f_equal. rewrite <- IH at 2. apply flat_map_ext_In. intros i Hi.
  apply in_seq in Hi. now rewrite nth_error_app1 by lia.
Qed.

(** A new order of the positions is a new order of the elements. *)
Lemma pick_permutation {A} (l : list A) ps :
  Permutation ps (seq 0 (length l)) -> Permutation (pick l ps) l.
Proof.
  intros H. rewrite <- (pick_all l) at 2. unfold pick.
  now apply Permutation_flat_map.
Qed.

Section Generator.
Variable L : Library.

Lemma mapM_alloc {A} (g : A -> Series) l (w : World L) :
  mapM (fun x => alloc L (g x)) l w
  = (Ok (seq (length (heap w)) (length l)),
     mkWorld L (heap w ++ map g l) (py_rng w) (np_rng w)).
Proof.
  revert w. induction l as [|x l IH]; intros w.
  - simpl. unfold ret. rewrite app_nil_r. now destruct w.
  - cbn [mapM]. unfold bind at 1. unfold alloc at 1.
    unfold bind at 1. rewrite IH. cbn [heap py_rng np_rng].
    unfold ret. rewrite length_app, <- app_assoc. simpl.
    now rewrite Nat.add_comm.
Qed.

(** What a call of the generator that returns has done: drawn [N]
    positions among the permutations of the inputs, and added one table
    for each to the store, in the order drawn. *)
Lemma create_N_table_lookup_spec N alphabet n_repeats namer seed
    (w : World L) unary w' :
  np_choice_spec L ->
  create_N_table_lookup L (Some N) alphabet n_repeats namer seed w
    = (Ok unary, w') ->
  let inputs := domain_inputs alphabet n_repeats in
  (0 <= n_repeats)%Z /\
  exists ps,
    positions_of (length (permutations inputs)) N ps /\
    unary = seq (length (heap w)) (length ps) /\
    heap w' = (heap w
               ++ map (unary_table namer inputs)
                      (enumerate (pick (permutations inputs) ps)))%list.
Proof.
  intros Hspec H inputs. unfold create_N_table_lookup in H.
  apply bind_inv in H as ([] & w1 & H1 & H).
  injection H1 as <-.
  destruct (n_repeats <? 0)%Z eqn:En; [discriminate|].
  split; [lia|].
  apply bind_inv in H as (outs & w2 & Hc & H).
  unfold np_random_choice in Hc. cbn [heap py_rng np_rng] in Hc.
  destruct (np_choice L _ N (np_seed L seed)) as [[ps|e] g] eqn:Ech;
    [|discriminate].
  injection Hc as <- <-.
  pose proof (Hspec _ _ _ _ _ Ech) as Hps. fold inputs in Hps.
  rewrite mapM_alloc in H. injection H as <- <-. cbn [heap].
  exists ps. split; [exact Hps|]. split; [|reflexivity].
  unfold enumerate. rewrite length_combine, length_seq, Nat.min_id.
  f_equal. apply pick_length. now destruct Hps as (_ & Hlt & _).
Qed.

End Generator.

(** ** The size of the unary block *)

Section UnaryBlock.
Variable L : Library.

Lemma alloc_only_run {A} (c : M L A) w r w' :
  alloc_only c -> c w = (r, w') -> extends (heap w) (heap w').
Proof. intros H E. specialize (H w). now rewrite E in H. Qed.

Lemma framed_run {A} (c : M L A) w r w' :
  framed c -> c w = (r, w') -> frame (heap w) (heap w').
Proof. intros H E. specialize (H w). now rewrite E in H. Qed.

Lemma length_data t : length (data t) = length (rows t).
Proof. unfold data. apply length_map. Qed.

Lemma frame_nrows h h' r :
  frame h h' -> (r < length h)%nat ->
  length (rows (deref h' r)) = length (rows (deref h r)).
Proof.
  intros [_ F] Hr. destruct (F r Hr) as [_ E].
  now rewrite <- !length_data, E.
Qed.

Lemma mapM_format_refs is_reverse eos l (w : World L) fs w1 :
  mapM (format_input L is_reverse eos) l w = (Ok fs, w1) -> fs = l.
Proof.
  revert w fs w1. induction l as [|x l IH]; intros w fs w1 H; simpl in H.
  - now injection H as <- _.
  - apply bind_inv in H as (y & wa & Hy & H).
    rewrite format_input_spec in Hy. injection Hy as <- _.
    apply bind_inv in H as (ys & wb & Hys & H).
    injection H as <- _. f_equal. eapply IH, Hys.
Qed.

(** One block of [_merge_format_inputs] before the shuffle: the tables
    are formatted in place, then their rows are concatenated. *)
Lemma format_concat_inv is_reverse eos dfs (w : World L) d w1 :
  bind (mapM (format_input L is_reverse eos) dfs) (pd_concat L) w
    = (Ok d, w1) ->
  dfs <> [] /\ frame (heap w) (heap w1) /\
  d = flat_map (fun r => rows (deref (heap w1) r)) dfs.
Proof.
  intros H. apply bind_inv in H as (fs & wa & Hf & H).
  pose proof (mapM_format_refs _ _ _ _ _ _ Hf) as ->.
  assert (Hfr : frame (heap w) (heap wa)).
  { eapply framed_run; [|exact Hf]. apply framed_mapM. intros t.
    apply framed_format_input. }
  destruct dfs as [|r dfs]; [discriminate|].
  unfold pd_concat in H. injection H as <- <-.
  split; [discriminate|]. split; [exact Hfr|reflexivity].
Qed.

Lemma sample_frac1_length (Hdf : df_sample_spec L) s d :
  length (sample_frac1 L s d) = length d.
Proof.
  unfold sample_frac1. apply Permutation_length, pick_permutation, Hdf.
Qed.

Lemma sample_frac1_permutation (Hdf : df_sample_spec L) s d :
  Permutation (sample_frac1 L s d) d.
Proof. unfold sample_frac1. apply pick_permutation, Hdf. Qed.

(** The first building block has as many rows as the unary tables had
    when the formatting began. *)
Lemma build_blocks_unary (Hdf : df_sample_spec L) p tb ho (w : World L) b w' :
  build_blocks L p tb ho w = (Ok b, w') ->
  Forall (fun r => (r < length (heap w))%nat) (tb_unary tb) ->
  tb_unary tb <> [] /\
  length (b_unary b)
  = length (flat_map (fun r => rows (deref (heap w) r)) (tb_unary tb)).
Proof.
  intros H Hin. unfold build_blocks, merge_format, _merge_format_inputs in H.
  apply bind_inv in H as (blocks & w1 & Hb & H).
  apply bind_inv in Hb as (list_df & w2 & Hm & Hb).
  injection Hb as <- <-.
  cbn [mapM] in Hm. apply bind_inv in Hm as (d1 & wa & Hd1 & Hm).
  apply bind_inv in Hm as (ds & wb & _ & Hm). injection Hm as <- _.
  apply format_concat_inv in Hd1 as (Hne & Hfr & ->).
  split; [exact Hne|].
  assert (Hlen : length (b_unary b)
                 = length (flat_map (fun r => rows (deref (heap wa) r))
                                    (tb_unary tb))).
  { destruct (is_shuffle p); cbn [map] in H;
      destruct ds as [|b2 [|b3 [|b4 [|b5 [|b6 [|]]]]]]; try discriminate;
      cbn [map] in H; injection H as <- _; cbn [b_unary];
      now rewrite ?sample_frac1_length. }
  rewrite Hlen. clear Hlen H Hne.
  induction Hin as [|r rs Hr _ IH]; [reflexivity|].
  simpl. rewrite !length_app, IH. f_equal. now apply frame_nrows.
Qed.

End UnaryBlock.

Section UnaryTables.
Variable L : Library.

Lemma unary_tables_spec p (w : World L) unary wu :
  np_choice_spec L ->
  unary_tables L p w = (Ok unary, wu) ->
  let inputs := domain_inputs (alphabet p) (n_repeats p) in
  (0 <= n_repeats p)%Z /\
  exists ps,
    positions_of (length (permutations inputs)) (n_unary_tables p) ps /\
    unary = seq (length (heap w)) (length ps) /\
    heap wu = (heap w
               ++ map (unary_table (namer p) inputs)
                      (enumerate (pick (permutations inputs) ps)))%list.
Proof.
  intros Hspec H. unfold unary_tables in H.
  apply bind_inv in H as ([] & w1 & H1 & H). injection H1 as <-.
  apply bind_inv in H as ([] & w2 & H2 & H). injection H2 as <-.
  exact (create_N_table_lookup_spec L _ _ _ _ _ _ _ _ Hspec H).
Qed.

Lemma make_tables_unary p (w : World L) tb w1 :
  make_tables L p w = (Ok tb, w1) ->
  exists wu, unary_tables L p w = (Ok (tb_unary tb), wu) /\
             extends (heap wu) (heap w1).
Proof.
  intros H. unfold make_tables in H. unfold unary_tables.
  apply bind_inv in H as ([] & wa & Ha & H).
  apply bind_inv in H as ([] & wb & Hb & H).
  apply bind_inv in H as (unary & wu & Hu & H).
  rewrite (bind_ok _ _ _ _ _ _ Ha), (bind_ok _ _ _ _ _ _ Hb).
  assert (Hext : extends (heap wu) (heap w1)).
  { eapply alloc_only_run; [|exact H]. auto 20 with store. }
  apply bind_inv in H as (ntr & wc & _ & H).
  apply bind_inv in H as (nte & wd & _ & H).
  apply bind_inv in H as (pd & we & _ & H).
  apply bind_inv in H as (mf & wf & _ & H).
  apply bind_inv in H as (parts & wg & _ & H).
  injection H as <- _. cbn [tb_unary]. now exists wu.
Qed.

Lemma enumerate_length {A} (l : list A) : length (enumerate l) = length l.
Proof. unfold enumerate. now rewrite length_combine, length_seq, Nat.min_id. Qed.

Lemma in_enumerate {A} (l : list A) io : In io (enumerate l) -> In (snd io) l.
Proof. destruct io as [i o]. unfold enumerate. apply in_combine_r. Qed.

Lemma unary_table_nrows namer inputs io :
  In (snd io) (permutations inputs) ->
  length (rows (unary_table namer inputs io)) = length inputs.
Proof.
  intros H. unfold unary_table. cbn [rows].
  rewrite length_combine, (permutations_length _ _ H). apply Nat.min_id.
Qed.

(** The unary tables of a run that got as far as the building blocks:
    there are [n_unary_tables] of them, at least one, and the unary block
    has [n_unary_tables] times [|alphabet| ^ n_repeats] rows. *)
Lemma building_blocks_unary p (w : World L) tb lg b w' :
  np_choice_spec L -> df_sample_spec L ->
  building_blocks L p w = (Ok (tb, lg, b), w') ->
  (0 <= n_repeats p)%Z /\ (1 <= n_unary_tables p)%Z /\
  Z.of_nat (length (tb_unary tb)) = n_unary_tables p /\
  len (b_unary b)
  = (n_unary_tables p * Z.of_nat (length (alphabet p)) ^ n_repeats p)%Z.
Proof.
  intros Hnp Hdf H. unfold building_blocks in H.
  apply bind_inv in H as (hs & w1 & Hs & H).
  apply bind_inv in H as (lgr & w2 & Hl & H).
  apply bind_inv in H as (ls & w3 & H3 & H).
  apply bind_inv in H as (li & w4 & H4 & H).
  apply bind_inv in H as (ln & w5 & H5 & H).
  apply bind_inv in H as (b' & w6 & Hb & H).
  injection H as Etb _ <- _.
  assert (F12 : frame (heap w1) (heap w5)).
  { eapply frame_trans;
      [eapply extends_frame, alloc_only_run;
       [apply alloc_only_longer_tables|exact Hl]|].
    eapply frame_trans; [eapply framed_run; [apply framed_merge_format|exact H3]|].
    eapply frame_trans; [eapply framed_run; [apply framed_merge_format|exact H4]|].
    eapply framed_run; [apply framed_merge_format|exact H5]. }
  unfold heldout_stage in Hs.
  apply bind_inv in Hs as (tb' & wa & Hm & Hs).
  assert (F01 : extends (heap wa) (heap w1)).
  { eapply alloc_only_run; [|exact Hs]. 
    apply alloc_only_bind; [apply alloc_only_random_shuffle|intros mt].
    apply alloc_only_bind; [apply alloc_only_heldout_split|intros ho].
    apply alloc_only_ret. }
  apply bind_inv in Hs as (mt & wb & _ & Hs).
  apply bind_inv in Hs as (ho & wc & _ & Hs).
  injection Hs as <- _. cbn [fst snd] in *. subst tb'.
  destruct (make_tables_unary _ _ _ _ Hm) as (wu & Hu & Fu).
  destruct (unary_tables_spec _ _ _ _ Hnp Hu) as (Hrep & ps & Hps & Eun & Eh).
  set (inputs := domain_inputs (alphabet p) (n_repeats p)) in *.
  set (new := map (unary_table (namer p) inputs)
                  (enumerate (pick (permutations inputs) ps))) in *.
  destruct Hps as (Hnd & Hlt & Hlen).
  assert (Hnew : length new = length ps).
  { unfold new. rewrite length_map, enumerate_length. now apply pick_length. }
  assert (Frame : frame (heap wu) (heap w5)).
  { eapply frame_trans; [apply extends_frame, Fu|].
    eapply frame_trans; [apply extends_frame, F01|exact F12]. }
  assert (Hrows : forall r, In r (tb_unary tb) ->
            (r < length (heap wu))%nat /\
            length (rows (deref (heap wu) r)) = length inputs).
  { intros r Hr. rewrite Eun in Hr. apply in_seq in Hr.
    rewrite Eh, length_app, Hnew. split; [lia|].
    unfold deref. rewrite app_nth2 by lia.
    assert (Hin : In (nth (r - length (heap w)) new no_table) new)
      by (apply nth_In; lia).
    set (t := nth (r - length (heap w)) new no_table) in *.
    unfold new in Hin. apply in_map_iff in Hin as (io & Eio & Hio).
    rewrite <- Eio.
    apply unary_table_nrows. eapply pick_In, in_enumerate, Hio. }
  assert (Hall : Forall (fun r => (r < length (heap w5))%nat) (tb_unary tb)).
  { apply Forall_forall. intros r Hr. destruct (Hrows r Hr) as [Hr' _].
    destruct Frame as [Hle _]. lia. }
  destruct (build_blocks_unary L Hdf _ _ _ _ _ _ Hb Hall) as [Hne Hlenb].
  assert (Hun : length (tb_unary tb) = length ps)
    by (rewrite Eun; apply length_seq).
  split; [exact Hrep|]. split.
  { destruct (tb_unary tb); [congruence|]. simpl in Hun. lia. }
  split; [lia|].
  unfold len. rewrite Hlenb.
  rewrite (length_flat_map_const _ _ (length inputs)).
  - unfold inputs, domain_inputs. rewrite length_map, length_product.
    rewrite Nat2Z.inj_mul, Nat2Z.inj_pow, Z2Nat.id by lia. lia.
  - intros r Hr. destruct (Hrows r Hr) as [Hr' <-].
    now apply frame_nrows.
Qed.

End UnaryTables.

(** ** 4.7 The invariant checker *)

Lemma assert_equal_ok a b : assert_equal a b = Ok tt <-> a = b.
Proof.
  unfold assert_equal. destruct (Z.eqb_spec a b); split; intros H;
    congruence.
Qed.

Lemma assert_equal_cases a b :
  assert_equal a b = Ok tt \/ assert_equal a b = Raise AssertionError.
Proof. unfold assert_equal. destruct (a =? b)%Z; auto. Qed.

Lemma size_permute_compose_scale m d n :
  _size_permute_compose m d n
  = (sum_Z (map (fun i => n ^ i)%Z (py_range 2 (m + 1))) * d)%Z.
Proof.
  unfold _size_permute_compose.
  induction (py_range 2 (m + 1)) as [|i l IH]; [reflexivity|].
  simpl. rewrite IH. lia.
Qed.

(** On a unary block that is not empty the checker passes exactly when the
    six sizes are the closed forms, and raises an assertion error
    otherwise. *)
Lemma check_blocks_spec p b :
  b_unary b <> [] ->
  (check_blocks p b = Ok tt /\ checked_sizes p (read_domain_size b) b) \/
  (check_blocks p b = Raise AssertionError /\
   ~ checked_sizes p (read_domain_size b) b).
Proof.
  intros Hne. unfold check_blocks, _check_sizes, checked_sizes, read_domain_size.
  destruct (b_unary b) as [|first rest] eqn:Eu; [congruence|].
  rewrite !size_permute_compose_scale.
  fold (n_train_tables p).
  replace (n_train_tables p + n_heldout_tables p)%Z with (n_unary_tables p)
    by (unfold n_train_tables; lia).
  fold (n_compositions p (n_unary_tables p)).
  fold (n_compositions p (n_train_tables p)).
  fold (n_compositions p (n_heldout_tables p)).
  fold (n_train_compositions p).
  set (d := (_ ^ _)%Z).
  repeat match goal with
  | |- context [assert_equal ?a ?b] =>
      let E := fresh "E" in
      destruct (Z.eqb_spec a b) as [E|E];
      [rewrite (proj2 (assert_equal_ok a b) E); cbn [and_then]
      |right; split;
       [unfold assert_equal; rewrite (proj2 (Z.eqb_neq a b) E); reflexivity
       |intros (?&?&?&?&?&?); apply E; lia]]
  end.
  left. split; [reflexivity|]. repeat split; lia.
Qed.

(** ** What a run that reaches the building blocks has done *)

Section Stages.
Variable L : Library.

(** [make_tables], read backwards from its result. *)
Lemma make_tables_inv p (w : World L) tb w1 :
  make_tables L p w = (Ok tb, w1) ->
  exists wu per_depth,
    unary_tables L p w = (Ok (tb_unary tb), wu) /\
    tb_names_train tb
      = map (name_in (heap wu)) (slice_to (- n_heldout_tables p) (tb_unary tb)) /\
    tb_names_test tb
      = map (name_in (heap wu)) (slice_from (- n_heldout_tables p) (tb_unary tb)) /\
    mapM (fun repeat =>
            mapM (reduce (compose_ref L (is_intermediate p)))
                 (product (tb_unary tb) (Z.to_nat repeat)))
         (py_range 2 (max_composition_train p + 1)) wu = (Ok per_depth, w1) /\
    flatten per_depth = Ok (tb_multiary tb) /\
    (tb_seen tb, tb_unseen tb, tb_new tb)
      = _split_seen_unseen_new (name_in (heap w1)) (tb_multiary tb)
          (tb_names_train tb) (tb_names_test tb).
Proof.
  intros H. unfold make_tables in H. unfold unary_tables.
  apply bind_inv in H as ([] & wa & Ha & H).
  apply bind_inv in H as ([] & wb & Hb & H).
  apply bind_inv in H as (unary & wu & Hu & H).
  rewrite (bind_ok _ _ _ _ _ _ Ha), (bind_ok _ _ _ _ _ _ Hb).
  rewrite !(bind_ok _ _ _ _ _ _ (names_of_spec _ _ _)) in H.
  apply bind_inv in H as (pd & we & Hpd & H).
  apply bind_inv in H as (mf & wf & Hmf & H).
  apply bind_inv in H as (parts & wg & Hparts & H).
  unfold lift in Hmf. injection Hmf as Hmf <-.
  unfold split_refs in Hparts. injection Hparts as <- <-.
  injection H as <- <-. cbn.
  exists wu, pd. repeat split; trivial.
Qed.

(** Every list of tables handed to [_merge_format_inputs] for the building
    blocks has a table in it, or [pd.concat] raises. *)
Lemma build_blocks_nonempty p tb ho (w : World L) b w' :
  build_blocks L p tb ho w = (Ok b, w') ->
  tb_unary tb <> [] /\ fst (fst ho) <> [] /\ snd (fst ho) <> [] /\
  snd ho <> [] /\ tb_unseen tb <> [] /\ tb_new tb <> [].
Proof.
  intros H. unfold build_blocks, merge_format, _merge_format_inputs in H.
  apply bind_inv in H as (blocks & w1 & Hb & _).
  apply bind_inv in Hb as (list_df & w2 & Hm & _).
  do 6 (let d := fresh "d" in let ds := fresh "ds" in
        let wd := fresh "wd" in let Hd := fresh "Hd" in
        apply mapM_cons_inv in Hm as (d & ds & wd & Hd & Hm & _);
        apply format_concat_inv in Hd as (Hd & _ & _)).
  repeat split; assumption.
Qed.

End Stages.

Section BlockSizes.
Variable L : Library.

Lemma heldout_stage_inv p (w : World L) tb mt ho w1 :
  heldout_stage L p w = (Ok (tb, mt, ho), w1) ->
  exists wa wb,
    make_tables L p w = (Ok tb, wa) /\
    random_shuffle L (tb_seen tb) wa = (Ok mt, wb) /\
    heldout_split L p mt wb = (Ok ho, w1).
Proof.
  intros H. unfold heldout_stage in H.
  apply bind_inv in H as (tb' & wa & Hm & H).
  apply bind_inv in H as (mt' & wb & Hs & H).
  apply bind_inv in H as (ho' & wc & Hh & H).
  injection H as <- <- <- <-. now exists wa, wb.
Qed.

Lemma building_blocks_inv p (w : World L) tb lg b w' :
  building_blocks L p w = (Ok (tb, lg, b), w') ->
  exists mt ho w1 w5,
    heldout_stage L p w = (Ok (tb, mt, ho), w1) /\
    frame (heap w1) (heap w5) /\
    build_blocks L p tb ho w5 = (Ok b, w').
Proof.
  intros H. unfold building_blocks in H.
  apply bind_inv in H as ([[tb' mt] ho] & w1 & Hs & H). cbn [fst snd] in H.
  apply bind_inv in H as (lgr & w2 & Hl & H).
  apply bind_inv in H as (ls & w3 & H3 & H).
  apply bind_inv in H as (li & w4 & H4 & H).
  apply bind_inv in H as (ln & w5 & H5 & H).
  apply bind_inv in H as (b' & w6 & Hb & H).
  injection H as <- _ <- <-.
  exists mt, ho, w1, w5. split; [exact Hs|]. split; [|exact Hb].
  eapply frame_trans;
    [eapply extends_frame, alloc_only_run;
     [apply alloc_only_longer_tables|exact Hl]|].
  eapply frame_trans; [eapply framed_run; [apply framed_merge_format|exact H3]|].
  eapply frame_trans; [eapply framed_run; [apply framed_merge_format|exact H4]|].
  eapply framed_run; [apply framed_merge_format|exact H5].
Qed.

Lemma composed_of_nonempty n tables :
  truthy (_table_is_composed_of n tables) = true -> tables <> [].
Proof.
  rewrite truthy_composed_of. intros H E. subst tables.
  apply has_token_spec in H as (tok & _ & []).
Qed.

Lemma slices_nonempty {A} (j : Z) (l : list A) :
  slice_to j l <> [] -> slice_from j l <> [] -> (2 <= length l)%nat.
Proof.
  unfold slice_to, slice_from. intros H1 H2.
  rewrite <- (firstn_skipn (slice_bound j (length l)) l), length_app.
  destruct (firstn _ l); [congruence|]. destruct (skipn _ l); [congruence|].
  simpl. lia.
Qed.

Lemma positions_bound n k ps : positions_of n k ps -> (length ps <= n)%nat.
Proof.
  intros (Hnd & Hlt & _). rewrite <- (length_seq n 0).
  apply NoDup_incl_length; [exact Hnd|].
  intros i Hi. rewrite Forall_forall in Hlt. apply in_seq.
  specialize (Hlt i Hi). lia.
Qed.

(** A run that reaches the building blocks has at least two unary tables,
    one for training and one held out, hence at least two permutations of
    a domain that is not empty. *)
Lemma building_blocks_domain p (w : World L) tb lg b w' :
  np_choice_spec L ->
  building_blocks L p w = (Ok (tb, lg, b), w') ->
  (0 < domain_size p)%Z.
Proof.
  intros Hnp H.
  destruct (building_blocks_inv _ _ _ _ _ _ H) as (mt & ho & w1 & w5 & Hs & _ & Hb).
  destruct (heldout_stage_inv _ _ _ _ _ _ Hs) as (wa & wb & Hm & _ & _).
  destruct (build_blocks_nonempty _ _ _ _ _ _ _ Hb) as (_ & _ & _ & _ & Hun & _).
  destruct (make_tables_inv _ _ _ _ _ Hm)
    as (wu & pd & Hu & Etr & Ete & _ & _ & Esp).
  destruct (unary_tables_spec _ _ _ _ _ Hnp Hu) as (Hrep & ps & Hps & Eun & _).
  unfold _split_seen_unseen_new in Esp. injection Esp as _ Eunseen _.
  assert (Hlen : (2 <= length (tb_unary tb))%nat).
  { destruct (tb_unseen tb) as [|t ts] eqn:E; [congruence|].
    assert (Ht : In t (t :: ts)) by now left.
    rewrite Eunseen in Ht. apply filter_In in Ht as [_ Ht].
    unfold is_unseen in Ht. apply andb_true_iff in Ht as [Hte Htr].
    apply composed_of_nonempty in Hte, Htr.
    apply (slices_nonempty (- n_heldout_tables p)).
    - intros E'. apply Htr. now rewrite Etr, E'.
    - intros E'. apply Hte. now rewrite Ete, E'. }
  pose proof (positions_bound _ _ _ Hps) as Hbound.
  rewrite Eun, length_seq in Hlen.
  unfold domain_size.
  destruct (alphabet p) as [|a al] eqn:Ea.
  - destruct (Z.to_nat (n_repeats p)) as [|k] eqn:Ek.
    + assert (E0 : n_repeats p = 0%Z) by lia. rewrite E0. reflexivity.
    + exfalso. unfold domain_inputs in Hbound. rewrite Ek in Hbound.
      simpl in Hbound. lia.
  - apply Z.pow_pos_nonneg; [simpl; lia|exact Hrep].
Qed.

(** C2. A run of [table_lookup_dataset] that returns has built six blocks
    of the closed-form sizes, for the domain size
    [|alphabet| ^ n_repeats] and [n_unary_tables - n_heldout_tables] train
    tables (whatever [n_heldout_compositions]: with 0 no run returns), and
    it returns the held-out blocks as they are and the unary and training
    blocks split into train and validation. Conversely a run whose six
    blocks are built with a size off its closed form raises an assertion
    error. *)
Theorem C2_closed_form_sizes p (w : World L) :
  np_choice_spec L -> df_sample_spec L ->
  (forall d w', table_lookup_dataset L p w = (Ok d, w') ->
     exists tb lg b,
       building_blocks L p w = (Ok (tb, lg, b), w') /\
       closed_form_sizes p b /\
       heldout_inputs d = b_heldout_inputs b /\
       heldout_compositions d = b_heldout_compositions b /\
       heldout_tables d = b_heldout_tables b /\
       new_compositions d = b_new_compositions b /\
       exists tr,
         _uniform_split L (b_multiary_train b) (tb_names_train tb)
           (validation_size p) (seed p) true = Ok (tr, validation d) /\
         train d = (b_unary b ++ tr)%list) /\
  (forall tb lg b w1,
     building_blocks L p w = (Ok (tb, lg, b), w1) ->
     ~ closed_form_sizes p b ->
     table_lookup_dataset L p w = (Raise AssertionError, w1)).
Proof.
  intros Hnp Hdf.
  assert (Hkey : forall tb lg b w1,
    building_blocks L p w = (Ok (tb, lg, b), w1) ->
    b_unary b <> [] /\
    (checked_sizes p (read_domain_size b) b -> closed_form_sizes p b)).
  { intros tb lg b w1 Hb.
    destruct (building_blocks_unary _ _ _ _ _ _ _ Hnp Hdf Hb)
      as (Hrep & HN & _ & Hlen).
    pose proof (building_blocks_domain _ _ _ _ _ _ Hnp Hb) as Hd.
    fold (domain_size p) in Hlen. split.
    - intros E. rewrite E in Hlen. unfold len in Hlen. simpl in Hlen. nia.
    - intros (E1 & E2 & E3 & E4 & E5 & E6).
      assert (Ed : read_domain_size b = domain_size p) by nia.
      rewrite Ed in *. repeat split; assumption. }
  split.
  - intros d w' H. unfold table_lookup_dataset in H.
    apply bind_inv in H as ([[tb lg] b] & w1 & Hb & H). cbn [fst snd] in H.
    apply bind_inv in H as ([] & w2 & Hc & H).
    apply bind_inv in H as ([tr va] & w3 & Hv & H).
    unfold lift in Hc, Hv. injection Hc as Hc <-. injection Hv as Hv <-.
    injection H as <- <-. cbn.
    destruct (Hkey _ _ _ _ Hb) as [Hne Himp].
    exists tb, lg, b. split; [exact Hb|]. split.
    + apply Himp. destruct (check_blocks_spec p b Hne) as [[_ Hs]|[E _]];
        [exact Hs|congruence].
    + repeat split. now exists tr.
  - intros tb lg b w1 Hb Hnot. unfold table_lookup_dataset.
    rewrite (bind_ok _ _ _ _ _ _ Hb). cbn [fst snd].
    destruct (Hkey _ _ _ _ Hb) as [Hne Himp].
    destruct (check_blocks_spec p b Hne) as [[_ Hs]|[E _]].
    + exfalso. apply Hnot, Himp, Hs.
    + unfold bind, lift. now rewrite E.
Qed.

End BlockSizes.

(** ** Names and labels of composed tables *)

Lemma no_underscore_app a b :
  no_underscore (a ++ b) = no_underscore a && no_underscore b.
Proof.
  induction a as [|c a IH]; [reflexivity|].
  simpl. rewrite IH. now rewrite andb_assoc.
Qed.

Lemma before_underscore_id s : no_underscore s = true -> before_underscore s = s.
Proof.
  induction s as [|c s IH]; [reflexivity|].
  simpl. destruct (Ascii.eqb c "_"); simpl; [discriminate|].
  intros H. now rewrite IH.
Qed.

Lemma before_underscore_suffix s x :
  no_underscore s = true -> before_underscore (s ++ String "_" x) = s.
Proof.
  induction s as [|c s IH]; [reflexivity|].
  simpl. destruct (Ascii.eqb c "_"); simpl; [discriminate|].
  intros H. now rewrite IH.
Qed.

Lemma no_underscore_not_scratch s :
  no_underscore s = true -> String.eqb s "next_input" = false.
Proof.
  intros H. destruct (String.eqb_spec s "next_input") as [->|]; trivial.
  discriminate.
Qed.

(** Between names without underscore the composed name is the two names,
    a space between. *)
Lemma compose_name t1 t2 b c :
  no_underscore (name t1) = true -> no_underscore (name t2) = true ->
  compose_table_lookups t1 t2 b = Ok c ->
  name c = name t1 ++ " " ++ name t2.
Proof.
  intros H1 H2. unfold compose_table_lookups, merged_columns.
  rewrite (no_underscore_not_scratch _ H1), (no_underscore_not_scratch _ H2).
  destruct (String.eqb (name t1) (name t2)); intros E; injection E as <-;
    cbn [name join];
    now rewrite ?before_underscore_suffix, ?before_underscore_id.
Qed.

Lemma in_merge_iff left right m :
  In m (merge left right) <->
  exists l r, In l left /\ In r right /\
              last_token (snd r) = Some (fst l) /\
              m = (fst r, (snd l, snd r)).
Proof.
  unfold merge. rewrite in_flat_map. split.
  - intros (l & Hl & H). apply in_flat_map in H as (r & Hr & H).
    exists l, r. destruct (last_token (snd r)) as [k|]; [|contradiction].
    destruct (String.eqb k (fst l)) eqn:E; [|contradiction].
    apply String.eqb_eq in E. destruct H as [<-|[]]. subst k. auto.
  - intros (l & r & Hl & Hr & Hk & ->). exists l. split; [exact Hl|].
    apply in_flat_map. exists r. split; [exact Hr|].
    rewrite Hk, String.eqb_refl. now left.
Qed.

Lemma NoDup_map_filter {A B} (f : A -> B) p l :
  NoDup (map f l) -> NoDup (map f (filter p l)).
Proof.
  induction l as [|x l IH]; intros H; [constructor|].
  simpl in *. inversion H as [|? ? Hx Hl]; subst.
  destruct (p x); simpl; [constructor|]; auto.
  intros Hin. apply Hx. apply in_map_iff in Hin as (y & E & Hy).
  apply in_map_iff. exists y. split; [exact E|].
  now apply filter_In in Hy as [Hy _].
Qed.

Lemma NoDup_map_inj {A B} (f : A -> B) l x y :
  NoDup (map f l) -> In x l -> In y l -> f x = f y -> x = y.
Proof.
  induction l as [|z l IH]; intros H Hx Hy E; [contradiction|].
  simpl in H. inversion H as [|? ? Hz Hl]; subst.
  destruct Hx as [->|Hx], Hy as [->|Hy]; trivial.
  - exfalso. apply Hz. rewrite E. now apply in_map.
  - exfalso. apply Hz. rewrite <- E. now apply in_map.
  - now apply IH.
Qed.

Lemma merge_cons l left right :
  merge (l :: left) right
  = (map (fun r => (fst r, (snd l, snd r)))
         (filter (fun r => match last_token (snd r) with
                           | Some k => String.eqb k (fst l)
                           | None => false
                           end) right)
     ++ merge left right)%list.
Proof.
  unfold merge. cbn [flat_map]. f_equal.
  induction right as [|r right IH]; [reflexivity|].
  cbn [flat_map filter]. rewrite IH.
  destruct (last_token (snd r)) as [k|]; [|reflexivity].
  now destruct (String.eqb k (fst l)).
Qed.

(** The labels of a merge are labels of the right table, each at most
    once when the labels of both tables are distinct. *)
Lemma merge_index_NoDup left right :
  NoDup (map fst left) -> NoDup (map fst right) ->
  NoDup (map fst (merge left right)).
Proof.
  intros Hl Hr. induction left as [|l left IH]; [constructor|].
  simpl in Hl. inversion Hl as [|? ? Hnl Hl']; subst.
  rewrite merge_cons, map_app, map_map. cbn [fst].
  apply NoDup_app; [now apply NoDup_map_filter|now apply IH|].
  intros k Hk1 Hk2.
  apply in_map_iff in Hk1 as (r & <- & Hr1).
  apply filter_In in Hr1 as [Hr1 Hk1].
  apply in_map_iff in Hk2 as (m & Em & Hm).
  apply in_merge_iff in Hm as (l' & r' & Hl'' & Hr' & Hk' & ->).
  cbn [fst] in Em.
  assert (r' = r) as -> by exact (NoDup_map_inj fst right r' r Hr Hr' Hr1 Em).
  rewrite Hk' in Hk1. apply String.eqb_eq in Hk1.
  apply Hnl. rewrite <- Hk1. now apply in_map.
Qed.

Lemma compose_index_NoDup t1 t2 b c :
  NoDup (index t1) -> NoDup (index t2) ->
  compose_table_lookups t1 t2 b = Ok c -> NoDup (index c).
Proof.
  intros H1 H2. unfold compose_table_lookups.
  destruct (merged_columns _ _) as [[lc rc]|]; [|discriminate].
  intros E. injection E as <-. unfold index. cbn [rows].
  destruct b; rewrite map_map; cbn [fst];
    now apply merge_index_NoDup.
Qed.

(** ** The compositions of a run *)

Section Compositions.
Variable L : Library.

(** A loop whose steps only allocate establishes, for each element, any
    fact about its result that allocation cannot undo. *)
Lemma mapM_Forall2 {A B} (f : A -> M L B)
    (P : A -> B -> list Series -> Prop) l :
  (forall x y h h', P x y h -> extends h h' -> P x y h') ->
  forall w0,
  (forall x w y w', In x l -> extends (heap w0) (heap w) ->
     f x w = (Ok y, w') -> P x y (heap w') /\ extends (heap w) (heap w')) ->
  forall ys w', mapM f l w0 = (Ok ys, w') ->
  Forall2 (fun x y => P x y (heap w')) l ys /\ extends (heap w0) (heap w').
Proof.
  intros Hstable. induction l as [|x l IH]; intros w0 Hstep ys w' H.
  - simpl in H. injection H as <- <-. split; [constructor|apply extends_refl].
  - apply mapM_cons_inv in H as (y & ys' & w1 & Hy & Hys & ->).
    destruct (Hstep x w0 y w1 (or_introl eq_refl) (extends_refl _) Hy)
      as [Py E01].
    destruct (IH w1) with (ys := ys') (w' := w') as [Hall E1]; trivial.
    { intros x' w y' w2 Hin Hext. apply Hstep; [now right|].
      eapply extends_trans; eassumption. }
    split; [|eapply extends_trans; eassumption].
    constructor; [|exact Hall]. eapply Hstable; eassumption.
Qed.

Lemma composed_of_extends h h' names r :
  composed_of h names r -> extends h h' -> composed_of h' names r.
Proof.
  intros (Hr & H) E. split; [pose proof (extends_length _ _ E); lia|].
  now rewrite (extends_deref _ _ _ E Hr).
Qed.

Lemma name_in_extends h h' r :
  extends h h' -> (r < length h)%nat -> name_in h' r = name_in h r.
Proof. intros E Hr. unfold name_in. now rewrite (extends_deref _ _ _ E Hr). Qed.

(** One composition: the tokens of the two names, one after the other. *)
Lemma compose_ref_composed b x y (w : World L) r w' nx ny :
  composed_of (heap w) nx x -> composed_of (heap w) ny y ->
  compose_ref L b x y w = (Ok r, w') ->
  composed_of (heap w') (nx ++ ny)%list r /\ extends (heap w) (heap w').
Proof.
  intros (Hx & Tx & Ux & Dx) (Hy & Ty & Uy & Dy) H.
  rewrite compose_ref_spec in H.
  destruct (compose_table_lookups _ _ b) as [c|e] eqn:Ec; [|discriminate].
  injection H as <- <-. cbn [heap]. split; [|now exists [c]].
  unfold composed_of. rewrite deref_new, length_app. simpl.
  rewrite (compose_name _ _ _ _ Ux Uy Ec).
  split; [lia|]. split; [|split].
  - cbn. rewrite split_app_space by reflexivity. now rewrite Tx, Ty.
  - rewrite !no_underscore_app, Ux, Uy. reflexivity.
  - exact (compose_index_NoDup _ _ _ _ Dx Dy Ec).
Qed.

(** A chain of compositions, as [reduce] folds it from the left. *)
Lemma foldM_compose_composed b xs : forall x (w : World L) r w' nx,
  composed_of (heap w) nx x ->
  (forall y, In y xs -> composed_of (heap w) [name_in (heap w) y] y) ->
  foldM (compose_ref L b) x xs w = (Ok r, w') ->
  composed_of (heap w') (nx ++ map (name_in (heap w)) xs)%list r /\
  extends (heap w) (heap w').
Proof.
  induction xs as [|y xs IH]; intros x w r w' nx Hx Hys H.
  - simpl in H. injection H as <- <-. rewrite app_nil_r.
    split; [exact Hx|apply extends_refl].
  - cbn [foldM] in H. apply bind_inv in H as (a & w1 & Ha & H).
    destruct (compose_ref_composed _ _ _ _ _ _ _ _ Hx (Hys y (or_introl eq_refl)) Ha)
      as [Ca E1].
    destruct (IH a w1 r w' _ Ca) as [Cr E2]; trivial.
    { intros z Hz. destruct (Hys z (or_intror Hz)) as (Hlt & _).
      rewrite (name_in_extends _ _ _ E1 Hlt).
      eapply composed_of_extends; [apply Hys; now right|exact E1]. }
    split; [|eapply extends_trans; eassumption].
    cbn [map]. rewrite <- app_assoc in Cr. cbn [app] in Cr.
    replace (map (name_in (heap w)) xs) with (map (name_in (heap w1)) xs);
      [exact Cr|].
    apply map_ext_in. intros z Hz. apply name_in_extends; [exact E1|].
    now destruct (Hys z (or_intror Hz)).
Qed.

Lemma reduce_compose_composed b fs (w : World L) r w' :
  (forall y, In y fs -> composed_of (heap w) [name_in (heap w) y] y) ->
  reduce (compose_ref L b) fs w = (Ok r, w') ->
  composed_of (heap w') (map (name_in (heap w)) fs) r /\
  extends (heap w) (heap w').
Proof.
  intros Hys H. destruct fs as [|x xs]; [discriminate|].
  cbn [reduce] in H.
  apply (foldM_compose_composed b xs x w r w' [name_in (heap w) x]);
    auto using in_eq, in_cons.
Qed.

End Compositions.

(** ** Lists of tuples *)

Lemma map_fst_combine {A B} (l : list A) (l' : list B) :
  length l = length l' -> map fst (combine l l') = l.
Proof.
  revert l'. induction l as [|x l IH]; intros [|y l'] H; simpl in *;
    try discriminate; [reflexivity|]. f_equal. apply IH. lia.
Qed.

Lemma map_snd_combine {A B} (l : list A) (l' : list B) :
  length l = length l' -> map snd (combine l l') = l'.
Proof.
  revert l'. induction l as [|x l IH]; intros [|y l'] H; simpl in *;
    try discriminate; [reflexivity|]. f_equal. apply IH. lia.
Qed.

Lemma product_map {A B} (f : A -> B) l n :
  map (map f) (product l n) = product (map f l) n.
Proof.
  induction n as [|n IH]; [reflexivity|].
  simpl. rewrite <- IH, !flat_map_concat_map, concat_map, !map_map.
  f_equal. apply map_ext. intros x. now rewrite !map_map.
Qed.

Lemma product_elem_length {A} (l : list A) n t :
  In t (product l n) -> length t = n.
Proof.
  revert t. induction n as [|n IH]; intros t H; simpl in H.
  - destruct H as [<-|[]]. reflexivity.
  - apply in_flat_map in H as (x & _ & H).
    apply in_map_iff in H as (t' & <- & H). simpl. f_equal. now apply IH.
Qed.

Lemma product_elem_In {A} (l : list A) n t :
  In t (product l n) -> forall x, In x t -> In x l.
Proof.
  revert t. induction n as [|n IH]; intros t H x Hx; simpl in H.
  - destruct H as [<-|[]]. contradiction.
  - apply in_flat_map in H as (y & Hy & H).
    apply in_map_iff in H as (t' & <- & H).
    destruct Hx as [<-|Hx]; [exact Hy|]. eapply IH; eassumption.
Qed.

Lemma NoDup_map_cons {A} (x : A) ll : NoDup ll -> NoDup (map (cons x) ll).
Proof.
  intros H. apply NoDup_map_NoDup_ForallPairs; [|exact H].
  intros a b _ _ E. now injection E.
Qed.

Lemma NoDup_cons_each {A} (l : list A) ll :
  NoDup l -> NoDup ll -> NoDup (flat_map (fun x => map (cons x) ll) l).
Proof.
  intros Hl Hll. induction Hl as [|x l Hx Hl IHl]; [constructor|].
  simpl. apply NoDup_app; [now apply NoDup_map_cons|exact IHl|].
  intros t Ht Ht'. apply in_map_iff in Ht as (t1 & <- & _).
  apply in_flat_map in Ht' as (y & Hy & Ht').
  apply in_map_iff in Ht' as (t2 & E & _). injection E as -> _.
  contradiction.
Qed.

Lemma NoDup_product {A} (l : list A) n : NoDup l -> NoDup (product l n).
Proof.
  intros Hl. induction n as [|n IH]; [repeat constructor; intros []|].
  simpl. now apply NoDup_cons_each.
Qed.

(** Tuples of different lengths over distinct elements are distinct. *)
Lemma NoDup_products {A} (l : list A) ks :
  NoDup l -> NoDup ks -> NoDup (flat_map (product l) ks).
Proof.
  intros Hl Hks. induction Hks as [|k ks Hk Hks IH]; [constructor|].
  simpl. apply NoDup_app; [now apply NoDup_product|exact IH|].
  intros t Ht Ht'. apply in_flat_map in Ht' as (k' & Hk' & Ht').
  apply product_elem_length in Ht, Ht'. subst. contradiction.
Qed.

Lemma py_range_to_nat m :
  map Z.to_nat (py_range 2 (m + 1)) = seq 2 (Z.to_nat (m + 1 - 2)).
Proof.
  unfold py_range. rewrite map_map.
  rewrite <- (seq_shift _ 1), <- (seq_shift _ 0), !map_map.
  apply map_ext. intros i. lia.
Qed.

Lemma Forall2_map_eq {A B C} (f : A -> C) (g : B -> C) l1 l2 :
  Forall2 (fun x y => g y = f x) l1 l2 -> map g l2 = map f l1.
Proof. induction 1; simpl; congruence. Qed.

Lemma Forall2_flat_map_eq {A B C} (f : A -> list C) (g : B -> list C) l1 l2 :
  Forall2 (fun x y => g y = f x) l1 l2 -> flat_map g l2 = flat_map f l1.
Proof. induction 1; simpl; congruence. Qed.

Lemma Forall2_concat {A B} (P : A -> B -> Prop) ll1 ll2 :
  Forall2 (Forall2 P) ll1 ll2 -> Forall2 P (concat ll1) (concat ll2).
Proof.
  induction 1 as [|l1 l2 ll1 ll2 H _ IH]; [constructor|].
  simpl. now apply Forall2_app.
Qed.

Lemma Forall2_impl {A B} (P Q : A -> B -> Prop) l1 l2 :
  (forall x y, In x l1 -> In y l2 -> P x y -> Q x y) ->
  Forall2 P l1 l2 -> Forall2 Q l1 l2.
Proof.
  intros H F. induction F as [|x y l1 l2 Hxy _ IH]; constructor.
  - apply H; [now left|now left|exact Hxy].
  - apply IH. intros a b Ha Hb. apply H; now right.
Qed.

Lemma Forall2_In_r {A B} (P : A -> B -> Prop) l1 l2 y :
  Forall2 P l1 l2 -> In y l2 -> exists x, In x l1 /\ P x y.
Proof.
  induction 1 as [|a b l1 l2 Hab _ IH]; intros Hy; [contradiction|].
  destruct Hy as [<-|Hy].
  - exists a. split; [now left|exact Hab].
  - destruct (IH Hy) as (x & Hx & Px). exists x. split; [now right|exact Px].
Qed.

Section ComposedTables.
Variable L : Library.

Lemma deref_new_all (h new : list Series) :
  map (deref (h ++ new)) (seq (length h) (length new)) = new.
Proof.
  revert h. induction new as [|t new IH]; intros h; [reflexivity|].
  cbn [length seq map]. f_equal.
  - unfold deref. apply nth_middle.
  - specialize (IH (h ++ [t])%list).
    rewrite <- app_assoc, length_app, Nat.add_comm in IH. exact IH.
Qed.

Lemma unary_table_index namer inputs io :
  In (snd io) (permutations inputs) ->
  index (unary_table namer inputs io) = inputs.
Proof.
  intros H. unfold index, unary_table. cbn [rows].
  apply map_fst_combine. symmetry. now apply permutations_length.
Qed.

Lemma map_fst_enumerate {A} (l : list A) :
  map fst (enumerate l) = seq 0 (length l).
Proof. unfold enumerate. apply map_fst_combine. apply length_seq. Qed.

(** The unary tables of a run, as they are stored: named by the namer in
    the order drawn, each over the inputs of the domain. *)
Lemma unary_tables_composed p (w : World L) unary wu :
  np_choice_spec L ->
  NoDup (domain_inputs (alphabet p) (n_repeats p)) ->
  Forall good_name (unary_names p) ->
  unary_tables L p w = (Ok unary, wu) ->
  map (name_in (heap wu)) unary = unary_names p /\
  forall r, In r unary -> composed_of (heap wu) [name_in (heap wu) r] r.
Proof.
  intros Hnp Hin Hgood H.
  destruct (unary_tables_spec _ _ _ _ _ Hnp H) as (Hrep & ps & Hps & Eun & Eh).
  set (inputs := domain_inputs (alphabet p) (n_repeats p)) in *.
  set (outs := pick (permutations inputs) ps) in *.
  set (new := map (unary_table (namer p) inputs) (enumerate outs)) in *.
  destruct Hps as (Hnd & Hlt & Hlen).
  assert (Houts : length outs = length ps) by now apply pick_length.
  assert (Hnew : length new = length ps)
    by (unfold new; now rewrite length_map, enumerate_length).
  assert (Hder : map (deref (heap wu)) unary = new)
    by (rewrite Eun, Eh, <- Hnew; apply deref_new_all).
  assert (Hn : length ps = Z.to_nat (n_unary_tables p)) by lia.
  assert (Hnames : map (name_in (heap wu)) unary = unary_names p).
  { unfold name_in. rewrite <- (map_map (deref (heap wu)) name), Hder.
    unfold new, unary_names. rewrite map_map. cbn [unary_table name].
    rewrite <- (map_map fst (namer p)), map_fst_enumerate.
    now rewrite Houts, Hn. }
  split; [exact Hnames|]. intros r Hr.
  assert (Hlt' : (r < length (heap wu))%nat).
  { rewrite Eun in Hr. apply in_seq in Hr. rewrite Eh, length_app. lia. }
  assert (Hgr : good_name (name_in (heap wu) r)).
  { rewrite Forall_forall in Hgood. apply Hgood. rewrite <- Hnames.
    now apply in_map. }
  assert (Ht : In (deref (heap wu) r) new)
    by (rewrite <- Hder; now apply in_map).
  unfold new in Ht. apply in_map_iff in Ht as (io & Eio & Hio).
  destruct Hgr as [Hsplit Hnu]. unfold name_in in *.
  repeat split; trivial.
  rewrite <- Eio, unary_table_index; [exact Hin|].
  eapply pick_In, in_enumerate, Hio.
Qed.

Lemma make_tables_composed p (w : World L) tb w1 :
  np_choice_spec L ->
  NoDup (domain_inputs (alphabet p) (n_repeats p)) ->
  Forall good_name (unary_names p) ->
  make_tables L p w = (Ok tb, w1) ->
  exists h0,
    map (name_in h0) (tb_unary tb) = unary_names p /\
    Forall2 (fun fs r => composed_of (heap w1) (map (name_in h0) fs) r)
            (all_tuples p (tb_unary tb)) (tb_multiary tb) /\
    (tb_seen tb, tb_unseen tb, tb_new tb)
      = _split_seen_unseen_new (name_in (heap w1)) (tb_multiary tb)
          (tb_names_train tb) (tb_names_test tb).
Proof.
  intros Hnp Hin Hgood H.
  destruct (make_tables_inv _ _ _ _ _ H)
    as (wu & pd & Hu & _ & _ & Hpd & Hfl & Esp).
  destruct (unary_tables_composed _ _ _ _ Hnp Hin Hgood Hu) as [Hnames Hun].
  exists (heap wu). split; [exact Hnames|]. split; [|exact Esp].
  assert (Hpd' :
    Forall2 (fun repeat rs =>
               Forall2 (fun fs r =>
                          composed_of (heap w1) (map (name_in (heap wu)) fs) r)
                       (product (tb_unary tb) (Z.to_nat repeat)) rs)
            (py_range 2 (max_composition_train p + 1)) pd).
  { refine (proj1 (mapM_Forall2 L _
      (fun repeat rs h =>
         Forall2 (fun fs r => composed_of h (map (name_in (heap wu)) fs) r)
                 (product (tb_unary tb) (Z.to_nat repeat)) rs)
      _ _ wu _ pd w1 Hpd)).
    - intros x y h h' F E. eapply Forall2_impl; [|exact F].
      intros fs r _ _ C. exact (composed_of_extends _ _ _ _ C E).
    - intros repeat wa rs wb _ Ea Hrs.
      refine (mapM_Forall2 L _
        (fun fs r h => composed_of h (map (name_in (heap wu)) fs) r)
        _ _ wa _ rs wb Hrs).
      + intros x y h h' C E. exact (composed_of_extends _ _ _ _ C E).
      + intros fs wc r wd Hfs Ec Hr.
        assert (Hys : forall y, In y fs ->
                  composed_of (heap wc) [name_in (heap wc) y] y).
        { intros y Hy.
          assert (Hyu : In y (tb_unary tb))
            by (eapply product_elem_In; eassumption).
          pose proof (Hun y Hyu) as C.
          assert (E : extends (heap wu) (heap wc))
            by (eapply extends_trans; eassumption).
          rewrite (name_in_extends _ _ _ E) by apply C.
          eapply composed_of_extends; eassumption. }
        destruct (reduce_compose_composed L _ _ _ _ _ Hys Hr) as [C E].
        split; [|exact E].
        replace (map (name_in (heap wu)) fs) with (map (name_in (heap wc)) fs);
          [exact C|].
        apply map_ext_in. intros y Hy. apply name_in_extends.
        * eapply extends_trans; eassumption.
        * apply Hun. eapply product_elem_In; eassumption. }
  assert (Em : tb_multiary tb = concat pd).
  { destruct pd as [|l pd']; [discriminate|].
    rewrite flatten_ok in Hfl by discriminate. now injection Hfl. }
  rewrite Em. unfold all_tuples. rewrite flat_map_concat_map.
  apply Forall2_concat.
  clear -Hpd'. induction Hpd'; simpl; constructor; assumption.
Qed.

End ComposedTables.

(** ** 4.4 The held-out splitter *)

Lemma pick_In_pos {A} (l : list A) ps x :
  In x (pick l ps) -> exists i, In i ps /\ nth_error l i = Some x.
Proof.
  unfold pick. intros H. apply in_flat_map in H as (i & Hi & H).
  exists i. split; [exact Hi|].
  destruct (nth_error l i); [|contradiction]. destruct H as [->|[]].
  reflexivity.
Qed.

(** Distinct positions of a list without duplicates hold distinct
    elements. *)
Lemma NoDup_pick {A} (l : list A) ps : NoDup l -> NoDup ps -> NoDup (pick l ps).
Proof.
  intros Hl Hps. induction Hps as [|i ps Hi Hps IH]; [constructor|].
  unfold pick. cbn [flat_map]. fold (pick l ps).
  destruct (nth_error l i) as [x|] eqn:E; [|exact IH].
  simpl. constructor; [|exact IH].
  intros Hx. apply pick_In_pos in Hx as (j & Hj & Ej).
  assert (i = j).
  { apply (proj1 (NoDup_nth_error l) Hl).
    - apply nth_error_Some. congruence.
    - congruence. }
  subst. contradiction.
Qed.

Lemma filter_or_permutation {A} (p q : A -> bool) l :
  (forall x, In x l -> p x = true -> q x = false) ->
  Permutation (filter (fun x => p x || q x) l) (filter p l ++ filter q l).
Proof.
  induction l as [|x l IH]; intros H; [constructor|].
  assert (IH' := IH (fun y Hy => H y (or_intror Hy))).
  simpl. destruct (p x) eqn:Ep; simpl.
  - rewrite (H x (or_introl eq_refl) Ep). now constructor.
  - destruct (q x); [|exact IH'].
    now apply Permutation_cons_app.
Qed.

(** The rows selected by distinct labels are the rows that carry one of
    the labels, in another order. *)
Lemma select_permutation (rws : list (string * string)) labels :
  NoDup labels ->
  Permutation
    (flat_map (fun l => filter (fun r => String.eqb (fst r) l) rws) labels)
    (filter (fun r => mem (fst r) labels) rws).
Proof.
  induction 1 as [|l ls Hl Hls IH]; cbn [flat_map].
  - clear. induction rws; simpl; auto.
  - rewrite IH. symmetry.
    rewrite (filter_ext (fun r => mem (fst r) (l :: ls))
               (fun r => String.eqb (fst r) l || mem (fst r) ls)).
    + apply filter_or_permutation. intros r _ E.
      apply String.eqb_eq in E. subst l.
      destruct (mem (fst r) ls) eqn:Em; [|reflexivity].
      apply mem_In in Em. contradiction.
    + intros r. unfold mem. simpl. 
      now rewrite (String.eqb_sym (fst r) l).
Qed.

Lemma filter_negb_permutation {A} (p : A -> bool) l :
  Permutation (filter p l ++ filter (fun x => negb (p x)) l) l.
Proof.
  induction l as [|x l IH]; [constructor|].
  simpl. destruct (p x); simpl.
  - now constructor.
  - symmetry. apply Permutation_cons_app. now symmetry.
Qed.

(** Selecting rows by distinct labels and dropping the same labels share
    the rows of a table out between two tables of the same name. *)
Lemma getitem_drop_permutation t labels g d :
  NoDup labels ->
  getitem t labels = Ok g -> drop t labels = Ok d ->
  name g = name t /\ name d = name t /\
  Permutation (rows g ++ rows d) (rows t).
Proof.
  intros Hnd Hg Hd. unfold getitem in Hg. unfold drop in Hd.
  destruct (forallb _ labels); [|discriminate].
  injection Hg as <-. injection Hd as <-. cbn [name rows].
  split; [reflexivity|]. split; [reflexivity|].
  rewrite (select_permutation _ _ Hnd).
  apply (filter_negb_permutation (fun r => mem (fst r) labels)).
Qed.

Section HeldOut.
Variable L : Library.

Lemma getitem_ref_spec t labels (w : World L) r w' :
  getitem_ref L t labels w = (Ok r, w') ->
  exists s, getitem (deref (heap w) t) labels = Ok s /\
            r = length (heap w) /\ heap w' = (heap w ++ [s])%list.
Proof.
  unfold getitem_ref, bind, load, lift, alloc.
  destruct (getitem _ labels) as [s|]; [|discriminate].
  intros H. injection H as <- <-. now exists s.
Qed.

Lemma drop_ref_spec t labels (w : World L) r w' :
  drop_ref L t labels w = (Ok r, w') ->
  exists s, drop (deref (heap w) t) labels = Ok s /\
            r = length (heap w) /\ heap w' = (heap w ++ [s])%list.
Proof.
  unfold drop_ref, bind, load, lift, alloc.
  destruct (drop _ labels) as [s|]; [|discriminate].
  intros H. injection H as <- <-. now exists s.
Qed.

Lemma made_from_extends make lt r h h' :
  made_from make lt r h -> extends h h' -> made_from make lt r h'.
Proof.
  intros (H1 & H2 & H3) E. pose proof (extends_length _ _ E).
  unfold made_from. rewrite !(extends_deref _ _ _ E) by assumption.
  split; [lia|split; [lia|exact H3]].
Qed.

Lemma in_slice_to {A} j (l : list A) x : In x (slice_to j l) -> In x l.
Proof. unfold slice_to. intros H. rewrite <- (firstn_skipn (slice_bound j (length l)) l). apply in_or_app. now left. Qed.

(** The held-out splitter, read backwards from its result. *)
Lemma heldout_split_spec p pool (w : World L) train hi hc w' :
  np_choice_spec L ->
  (forall r, In r pool ->
     (r < length (heap w))%nat /\ NoDup (index (deref (heap w) r))) ->
  heldout_split L p pool w = (Ok (train, hi, hc), w') ->
  let kept := slice_to (- n_heldout_compositions p) pool in
  hc = slice_from (- n_heldout_compositions p) pool /\
  extends (heap w) (heap w') /\
  exists labels,
    length labels = length kept /\
    Forall (@NoDup string) labels /\
    Forall2 (fun lt r => made_from getitem lt r (heap w'))
            (combine labels kept) hi /\
    Forall2 (fun lt r => made_from drop lt r (heap w'))
            (combine labels kept) train.
Proof.
  intros Hnp Hpool H kept. unfold heldout_split in H. fold kept in H.
  apply bind_inv in H as (labels & wa & Hl & H).
  apply bind_inv in H as (hi' & wb & Hh & H).
  apply bind_inv in H as (tr' & wc & Ht & H).
  injection H as -> -> <- ->.
  assert (Hkept : forall r, In r kept ->
            (r < length (heap w))%nat /\ NoDup (index (deref (heap w) r))).
  { intros r Hr. apply Hpool. eapply in_slice_to, Hr. }
  assert (Step1 : forall t w1 ls w2, In t kept ->
            extends (heap w) (heap w1) ->
            bind (load L t)
              (fun tv => np_random_choice L (index tv) (n_heldout_inputs p)) w1
              = (Ok ls, w2) ->
            NoDup ls /\ extends (heap w1) (heap w2)).
  { intros t w1 ls w2 Htk E1 Hc.
    apply bind_inv in Hc as (tv & w3 & Hld & Hc).
    unfold load in Hld. injection Hld as <- <-.
    unfold np_random_choice in Hc.
    destruct (np_choice L _ _ _) as [[ps|e] g] eqn:Ech; [|discriminate].
    injection Hc as <- <-. cbn [heap]. split; [|apply extends_refl].
    destruct (Hnp _ _ _ _ _ Ech) as (Hnd & _ & _).
    apply NoDup_pick; [|exact Hnd].
    destruct (Hkept t Htk) as [Hlt Hd].
    now rewrite (extends_deref _ _ _ E1 Hlt). }
  destruct (mapM_Forall2 L _ (fun (t : ref) (ls : list string) _ => NoDup ls)
              kept (fun _ _ _ _ Hn _ => Hn) w Step1 labels wa Hl) as [Fl Ea].
  assert (Hlen : length labels = length kept)
    by (symmetry; eapply Forall2_length, Fl).
  assert (Hpairs : forall lt, In lt (combine labels kept) ->
            (snd lt < length (heap w))%nat).
  { intros [ls t] Hin. apply in_combine_r in Hin. now apply Hkept. }
  assert (Step2 : forall lt w1 r w2, In lt (combine labels kept) ->
            extends (heap wa) (heap w1) ->
            getitem_ref L (snd lt) (fst lt) w1 = (Ok r, w2) ->
            made_from getitem lt r (heap w2) /\ extends (heap w1) (heap w2)).
  { intros lt w1 r w2 Hin E1 Hc.
    apply getitem_ref_spec in Hc as (s & Hs & -> & Eh).
    assert (Hlt : (snd lt < length (heap w1))%nat).
    { pose proof (Hpairs lt Hin).
      pose proof (extends_length _ _ (extends_trans _ _ _ Ea E1)). lia. }
    split; [|rewrite Eh; now exists [s]].
    unfold made_from. rewrite Eh, deref_new, deref_old, length_app by exact Hlt.
    cbn [length]. split; [lia|split; [lia|exact Hs]]. }
  destruct (mapM_Forall2 L _ (made_from getitem) (combine labels kept)
              (made_from_extends getitem) wa Step2 hi wb Hh) as [Fh Eb].
  assert (Step3 : forall lt w1 r w2, In lt (combine labels kept) ->
            extends (heap wb) (heap w1) ->
            drop_ref L (snd lt) (fst lt) w1 = (Ok r, w2) ->
            made_from drop lt r (heap w2) /\ extends (heap w1) (heap w2)).
  { intros lt w1 r w2 Hin E1 Hc.
    apply drop_ref_spec in Hc as (s & Hs & -> & Eh).
    assert (Hlt : (snd lt < length (heap w1))%nat).
    { pose proof (Hpairs lt Hin).
      pose proof (extends_length _ _
        (extends_trans _ _ _ Ea (extends_trans _ _ _ Eb E1))). lia. }
    split; [|rewrite Eh; now exists [s]].
    unfold made_from. rewrite Eh, deref_new, deref_old, length_app by exact Hlt.
    cbn [length]. split; [lia|split; [lia|exact Hs]]. }
  destruct (mapM_Forall2 L _ (made_from drop) (combine labels kept)
              (made_from_extends drop) wb Step3 train w' Ht) as [Ft Ec].
  split; [reflexivity|].
  split; [eapply extends_trans; [exact Ea|eapply extends_trans; eassumption]|].
  exists labels. split; [exact Hlen|]. split.
  - clear -Fl. induction Fl; constructor; assumption.
  - split; [|exact Ft].
    eapply Forall2_impl; [|exact Fh].
    intros lt r _ _ Hm. exact (made_from_extends _ _ _ _ _ Hm Ec).
Qed.

End HeldOut.

(** ** Entries of lists of stored tables *)

Lemma NoDup_app_disjoint {A} (l1 l2 : list A) :
  NoDup (l1 ++ l2) -> forall x, In x l1 -> ~ In x l2.
Proof.
  induction l1 as [|a l1 IH]; intros H x Hx; [contradiction|].
  simpl in H. inversion H as [|? ? Ha Hl]; subst.
  destruct Hx as [->|Hx]; [|now apply IH].
  intros Hx2. apply Ha. apply in_or_app. now right.
Qed.

Lemma Permutation_app4 {A} (a b c d : list A) :
  Permutation ((a ++ b) ++ (c ++ d)) ((a ++ c) ++ (b ++ d)).
Proof.
  rewrite <- !app_assoc. apply Permutation_app_head.
  apply Permutation_app_swap_app.
Qed.

(** Pairs of a name and a label are distinct when the names of distinct
    tables are and each table has distinct labels. *)
Lemma NoDup_name_label {A} (nm : A -> string) (ix : A -> list string) l :
  NoDup (map nm l) -> (forall x, In x l -> NoDup (ix x)) ->
  NoDup (flat_map (fun x => map (pair (nm x)) (ix x)) l).
Proof.
  induction l as [|x l IH]; intros Hn Hi; [constructor|].
  simpl in Hn. inversion Hn as [|? ? Hx Hl]; subst.
  cbn [flat_map]. apply NoDup_app.
  - apply NoDup_map_NoDup_ForallPairs; [|apply Hi; now left].
    intros a b _ _ E. now injection E.
  - apply IH; [exact Hl|]. intros y Hy. apply Hi. now right.
  - intros k Hk Hk'. apply in_map_iff in Hk as (i & <- & _).
    apply in_flat_map in Hk' as (y & Hy & Hk').
    apply in_map_iff in Hk' as (j & E & _). injection E as E _.
    apply Hx. rewrite <- E. now apply in_map.
Qed.

Lemma entry_keys_flat_map h tables :
  entry_keys h tables
  = flat_map (fun r => map (pair (name_in h r)) (index (deref h r))) tables.
Proof.
  unfold entry_keys, entries, name_in, index.
  induction tables as [|r tables IH]; [reflexivity|].
  cbn [flat_map]. rewrite map_app, IH, !map_map. reflexivity.
Qed.

Lemma entries_app h l1 l2 :
  entries h (l1 ++ l2) = (entries h l1 ++ entries h l2)%list.
Proof. unfold entries. apply flat_map_app. Qed.

Lemma entry_keys_app h l1 l2 :
  entry_keys h (l1 ++ l2) = (entry_keys h l1 ++ entry_keys h l2)%list.
Proof. unfold entry_keys. now rewrite entries_app, map_app. Qed.

Lemma entries_extends h h' tables :
  extends h h' -> Forall (fun r => (r < length h)%nat) tables ->
  entries h' tables = entries h tables.
Proof.
  intros E F. unfold entries. apply flat_map_ext_In. intros r Hr.
  rewrite Forall_forall in F. now rewrite (extends_deref _ _ _ E (F r Hr)).
Qed.

(** The tables selected from and left of a list of tables hold the
    entries of these tables between them. *)
Lemma entries_made_from h pairs : forall hi train,
  Forall (@NoDup string) (map fst pairs) ->
  Forall2 (fun lt r => made_from getitem lt r h) pairs hi ->
  Forall2 (fun lt r => made_from drop lt r h) pairs train ->
  Permutation (entries h hi ++ entries h train) (entries h (map snd pairs)).
Proof.
  induction pairs as [|lt pairs IH]; intros hi train Hnd Fh Ft;
    inversion Fh as [|? r ? hi' Hg Fh']; subst;
    inversion Ft as [|? r' ? tr' Hd Ft']; subst; [constructor|].
  cbn [map] in Hnd. inversion Hnd as [|? ? Hn Hnd']; subst.
  specialize (IH hi' tr' Hnd' Fh' Ft').
  destruct Hg as (_ & _ & Hg). destruct Hd as (_ & _ & Hd).
  destruct (getitem_drop_permutation _ _ _ _ Hn Hg Hd) as (N1 & N2 & P).
  unfold entries in *. cbn [flat_map map].
  rewrite Permutation_app4. apply Permutation_app; [|exact IH].
  rewrite N1, N2, <- map_app. now apply Permutation_map.
Qed.

Section Conservation.
Variable L : Library.

Lemma all_tuples_names {A} p (nm : A -> string) (unary : list A) :
  map (map nm) (all_tuples p unary)
  = flat_map (product (map nm unary))
             (map Z.to_nat (py_range 2 (max_composition_train p + 1))).
Proof.
  unfold all_tuples.
  induction (py_range 2 (max_composition_train p + 1)) as [|k ks IH];
    [reflexivity|].
  cbn [flat_map map]. now rewrite map_app, IH, product_map.
Qed.

(** The compositions of a run are stored under distinct names, each with
    distinct labels. *)
Lemma make_tables_distinct p (w : World L) tb w1 :
  np_choice_spec L ->
  NoDup (domain_inputs (alphabet p) (n_repeats p)) ->
  Forall good_name (unary_names p) -> NoDup (unary_names p) ->
  make_tables L p w = (Ok tb, w1) ->
  NoDup (map (name_in (heap w1)) (tb_multiary tb)) /\
  (forall r, In r (tb_multiary tb) ->
     (r < length (heap w1))%nat /\ NoDup (index (deref (heap w1) r))) /\
  tb_seen tb = filter (is_seen (name_in (heap w1)) (tb_names_test tb))
                      (tb_multiary tb).
Proof.
  intros Hnp Hin Hgood Hnd H.
  destruct (make_tables_composed L _ _ _ _ Hnp Hin Hgood H)
    as (h0 & Hnames & Fall & Esp).
  split; [|split].
  - apply (NoDup_map_inv split). rewrite map_map.
    rewrite (Forall2_map_eq (map (name_in h0))
               (fun r => split (name_in (heap w1) r))
               (all_tuples p (tb_unary tb)) (tb_multiary tb)).
    + rewrite all_tuples_names, Hnames, py_range_to_nat.
      apply NoDup_products; [exact Hnd|apply seq_NoDup].
    + eapply Forall2_impl; [|exact Fall].
      intros fs r _ _ (_ & Hs & _). exact Hs.
  - intros r Hr. destruct (Forall2_In_r _ _ _ _ Fall Hr) as (fs & _ & C).
    destruct C as (Hlt & _ & _ & Hd). now split.
  - unfold _split_seen_unseen_new in Esp. now injection Esp.
Qed.

Lemma random_shuffle_spec {A} (l : list A) (w : World L) pool w' :
  py_shuffle_spec L ->
  random_shuffle L l w = (Ok pool, w') ->
  Permutation pool l /\ heap w' = heap w.
Proof.
  intros Hsh H. unfold random_shuffle in H.
  pose proof (Hsh (length l) (py_rng w)) as Hp.
  destruct (py_shuffle L (length l) (py_rng w)) as [order g].
  injection H as <- <-. split; [|reflexivity].
  now apply pick_permutation.
Qed.

(** C4. In a run whose domain has distinct inputs and whose unary tables
    have distinct names, each one token without underscore, the state
    after the held-out splitting step is this. Identify an entry by its
    composition and its input. Then no entry of [heldout_compositions] is
    in the training pool that remains, no entry of [heldout_inputs] is in
    that pool or in [heldout_compositions], no entry occurs twice, and
    the entries of the three, rows included, are the entries of the seen
    compositions before the split, rearranged; so their number is that of
    the seen pool. *)
Theorem C4_heldout_split_moves_entries p (w : World L)
    tb pool train hi hc w1 :
  np_choice_spec L -> py_shuffle_spec L ->
  NoDup (domain_inputs (alphabet p) (n_repeats p)) ->
  Forall good_name (unary_names p) -> NoDup (unary_names p) ->
  heldout_stage L p w = (Ok (tb, pool, (train, hi, hc)), w1) ->
  let h := heap w1 in
  (forall k, In k (entry_keys h hc) -> ~ In k (entry_keys h train)) /\
  (forall k, In k (entry_keys h hi) -> ~ In k (entry_keys h train)) /\
  (forall k, In k (entry_keys h hi) -> ~ In k (entry_keys h hc)) /\
  NoDup (entry_keys h hc ++ entry_keys h hi ++ entry_keys h train) /\
  Permutation (entries h hc ++ entries h hi ++ entries h train)
              (entries h (tb_seen tb)) /\
  (length (entries h hc) + length (entries h hi) + length (entries h train)
   = length (entries h (tb_seen tb)))%nat.
Proof.
  intros Hnp Hsh Hin Hgood Hnd H h.
  destruct (heldout_stage_inv _ _ _ _ _ _ _ H) as (wa & wb & Hm & Hs & Hh).
  destruct (make_tables_distinct _ _ _ _ Hnp Hin Hgood Hnd Hm)
    as (Hnames & Hmult & Eseen).
  destruct (random_shuffle_spec _ _ _ _ Hsh Hs) as [Ppool Ehb].
  assert (Hseen : forall r, In r (tb_seen tb) ->
            (r < length (heap wa))%nat /\ NoDup (index (deref (heap wa) r))).
  { intros r Hr. apply Hmult. rewrite Eseen in Hr.
    now apply filter_In in Hr. }
  assert (Hpool : forall r, In r pool ->
            (r < length (heap wb))%nat /\ NoDup (index (deref (heap wb) r))).
  { intros r Hr. rewrite Ehb. apply Hseen.
    eapply Permutation_in; eassumption. }
  destruct (heldout_split_spec L _ _ _ _ _ _ _ Hnp Hpool Hh)
    as (Ehc & Ext & labels & Hlen & Hlab & Fh & Ft).
  rewrite Ehb in Ext. fold h in Ext, Fh, Ft.
  set (kept := slice_to (- n_heldout_compositions p) pool) in *.
  assert (Epool : pool = (kept ++ hc)%list).
  { rewrite Ehc. unfold kept, slice_to, slice_from.
    symmetry. apply firstn_skipn. }
  assert (Pent : Permutation (entries h hc ++ entries h hi ++ entries h train)
                             (entries h (tb_seen tb))).
  { rewrite (entries_made_from h (combine labels kept) hi train); trivial.
    - rewrite map_snd_combine by exact Hlen.
      rewrite Permutation_app_comm, <- entries_app.
      assert (P2 : Permutation (entries h pool) (entries h (tb_seen tb)))
        by (unfold entries; now apply Permutation_flat_map).
      assert (E2 : entries h pool = entries h (kept ++ hc))
        by (f_equal; exact Epool).
      exact (eq_ind _ (fun l => Permutation l (entries h (tb_seen tb)))
                    P2 _ E2).
    - now rewrite map_fst_combine. }
  assert (Hkeys : NoDup (entry_keys h (tb_seen tb))).
  { rewrite entry_keys_flat_map. apply NoDup_name_label.
    - rewrite (map_ext_in (name_in h) (name_in (heap wa))).
      + rewrite Eseen. now apply NoDup_map_filter.
      + intros r Hr. apply name_in_extends; [exact Ext|now apply Hseen].
    - intros r Hr. destruct (Hseen r Hr) as [Hlt Hd].
      now rewrite (extends_deref _ _ _ Ext Hlt). }
  assert (Hall : NoDup (entry_keys h hc ++ entry_keys h hi
                        ++ entry_keys h train)).
  { eapply Permutation_NoDup; [|exact Hkeys].
    unfold entry_keys. rewrite <- !map_app. symmetry.
    now apply Permutation_map. }
  split; [|split; [|split; [|split; [exact Hall|split; [exact Pent|]]]]].
  - intros k Hk Hk'. apply (NoDup_app_disjoint _ _ Hall k Hk).
    apply in_or_app. now right.
  - apply NoDup_app_disjoint. eapply NoDup_app_remove_l, Hall.
  - intros k Hk Hk'. apply (NoDup_app_disjoint _ _ Hall k Hk').
    apply in_or_app. now left.
  - apply Permutation_length in Pent. rewrite !length_app in Pent. lia.
Qed.

End Conservation.

(** ** The default options meet the hypotheses *)

Lemma plain_fields s : plain s = true -> fields s = [s].
Proof.
  induction s as [|c s IH]; [reflexivity|].
  simpl. destruct (is_space c); [discriminate|].
  destruct (Ascii.eqb c "_"); [discriminate|]. simpl.
  intros H. now rewrite (IH H).
Qed.

Lemma plain_no_underscore s : plain s = true -> no_underscore s = true.
Proof.
  induction s as [|c s IH]; [reflexivity|].
  simpl. destruct (is_space c); [discriminate|].
  destruct (Ascii.eqb c "_"); [discriminate|]. simpl. exact IH.
Qed.

Lemma plain_good_name s : plain s = true -> s <> "" -> good_name s.
Proof.
  intros Hp Hne. split; [|now apply plain_no_underscore].
  unfold split. rewrite (plain_fields _ Hp).
  destruct s; [congruence|reflexivity].
Qed.

Lemma plain_string_of_uint d : plain (NilEmpty.string_of_uint d) = true.
Proof. induction d; simpl; trivial. Qed.

Lemma default_namer_good i : good_name (default_namer i).
Proof.
  apply plain_good_name; [|discriminate].
  unfold default_namer, str_of_nat. cbn [append plain].
  now rewrite plain_string_of_uint.
Qed.

Lemma default_namer_inj i j : default_namer i = default_namer j -> i = j.
Proof.
  unfold default_namer, str_of_nat. intros H. injection H as H.
  assert (E : Some (Nat.to_uint (i + 1)) = Some (Nat.to_uint (j + 1)))
    by (rewrite <- !NilEmpty.usu; now rewrite H).
  injection E as E. apply DecimalNat.Unsigned.to_uint_inj in E. lia.
Qed.

(** The names [t1], [t2], ... of the default namer are distinct single
    tokens without underscore, however many tables there are. *)
Lemma default_namer_names p :
  namer p = default_namer ->
  Forall good_name (unary_names p) /\ NoDup (unary_names p).
Proof.
  intros E. unfold unary_names. rewrite E. split.
  - apply Forall_forall. intros n Hn. apply in_map_iff in Hn as (i & <- & _).
    apply default_namer_good.
  - apply NoDup_map_NoDup_ForallPairs; [|apply seq_NoDup].
    intros i j _ _. apply default_namer_inj.
Qed.

Lemma concat_letter c xs :
  String.concat "" (String c "" :: xs) = String c (String.concat "" xs).
Proof. destruct xs; reflexivity. Qed.

Lemma concat_letters_inj t1 : forall t2,
  Forall (fun s => String.length s = 1%nat) t1 ->
  Forall (fun s => String.length s = 1%nat) t2 ->
  String.concat "" t1 = String.concat "" t2 -> t1 = t2.
Proof.
  induction t1 as [|x t1 IH]; intros [|y t2] H1 H2 E; trivial;
    inversion H1 as [|? ? Hx H1']; inversion H2 as [|? ? Hy H2']; subst.
  - destruct y as [|c [|]]; try discriminate.
    rewrite concat_letter in E. discriminate.
  - destruct x as [|c [|]]; try discriminate.
    rewrite concat_letter in E. discriminate.
  - destruct x as [|c [|]]; try discriminate.
    destruct y as [|c' [|]]; try discriminate.
    rewrite !concat_letter in E. injection E as -> E.
    f_equal. now apply IH.
Qed.

(** An alphabet of distinct letters gives a domain of distinct inputs. *)
Lemma letters_domain_NoDup alphabet n_repeats :
  NoDup alphabet -> Forall (fun s => String.length s = 1%nat) alphabet ->
  NoDup (domain_inputs alphabet n_repeats).
Proof.
  intros Hnd Hl. unfold domain_inputs.
  apply NoDup_map_NoDup_ForallPairs; [|now apply NoDup_product].
  intros t1 t2 Ht1 Ht2. rewrite Forall_forall in Hl.
  apply concat_letters_inj; apply Forall_forall; intros s Hs; apply Hl.
  - exact (product_elem_In _ _ _ Ht1 s Hs).
  - exact (product_elem_In _ _ _ Ht2 s Hs).
Qed.

(** ** The example library and the example runs *)

Lemma toy_rotate_permutation n g : Permutation (Toy.rotate n g) (seq 0 n).
Proof.
  unfold Toy.rotate. rewrite Permutation_app_comm.
  now rewrite firstn_skipn.
Qed.

Lemma NoDup_firstn {A} k (l : list A) : NoDup l -> NoDup (firstn k l).
Proof.
  intros H. rewrite <- (firstn_skipn k l) in H.
  eapply NoDup_app_remove_r, H.
Qed.

Lemma toy_take_positions n k g l :
  Toy.take_positions n k g = Ok l -> positions_of n k l.
Proof.
  unfold Toy.take_positions.
  destruct ((0 <=? k)%Z && (k <=? Z.of_nat n)%Z) eqn:E; [|discriminate].
  intros H. injection H as <-. apply andb_true_iff in E as [E1 E2].
  apply Z.leb_le in E1, E2.
  pose proof (toy_rotate_permutation n g) as P.
  split; [|split].
  - apply NoDup_firstn. eapply Permutation_NoDup; [symmetry; exact P|].
    apply seq_NoDup.
  - apply Forall_forall. intros i Hi.
    assert (Hin : In i (seq 0 n)).
    { eapply Permutation_in; [exact P|].
      rewrite <- (firstn_skipn (Z.to_nat k)). apply in_or_app. now left. }
    apply in_seq in Hin. lia.
  - rewrite length_firstn, (Permutation_length P), length_seq. lia.
Qed.

Lemma toy_np_choice_spec : np_choice_spec Toy.lib.
Proof.
  intros n k g l g' H. simpl in H. injection H as H _.
  now apply toy_take_positions in H.
Qed.

Lemma toy_py_shuffle_spec : py_shuffle_spec Toy.lib.
Proof. intros n g. apply toy_rotate_permutation. Qed.

Lemma toy_df_sample_spec : df_sample_spec Toy.lib.
Proof. intros s n. apply toy_rotate_permutation. Qed.

Lemma C2_closed_form_sizes_witness :
  exists tb lg b w',
    building_blocks Toy.lib Toy.params Toy.world0 = (Ok (tb, lg, b), w') /\
    closed_form_sizes Toy.params b.
Proof.
  destruct (C2_closed_form_sizes Toy.lib Toy.params Toy.world0
              toy_np_choice_spec toy_df_sample_spec) as [H _].
  destruct (table_lookup_dataset Toy.lib Toy.params Toy.world0)
    as [[d|e] w'] eqn:E; [|vm_compute in E; discriminate E].
  destruct (H d w' eq_refl) as (tb & lg & b & Hb & Hs & _).
  exists tb, lg, b, w'. split; [exact Hb|exact Hs].
Defined.

Lemma C3_zero_heldout_compositions_witness :
  raises (table_lookup_dataset Toy.lib Toy.params_nothing_heldout Toy.world0).
Proof.
  apply (C3_zero_heldout_compositions Toy.lib Toy.params_nothing_heldout
           Toy.world0). reflexivity.
Defined.

(** The run of C3 on the example: nothing to hold out, and [pd.concat]
    raises on the empty training pool. *)
Lemma C3_failing_run :
  fst (table_lookup_dataset Toy.lib Toy.params_nothing_heldout Toy.world0)
  = Raise ValueError.
Proof. vm_compute. reflexivity. Qed.

Lemma C4_heldout_split_moves_entries_witness :
  exists tb pool train hi hc w1,
    heldout_stage Toy.lib Toy.params Toy.world0
      = (Ok (tb, pool, (train, hi, hc)), w1) /\
    Permutation
      (entries (heap w1) hc ++ entries (heap w1) hi ++ entries (heap w1) train)
      (entries (heap w1) (tb_seen tb)).
Proof.
  destruct (heldout_stage Toy.lib Toy.params Toy.world0)
    as [[[[tb pool] [[train hi] hc]]|e] w1] eqn:E;
    [|vm_compute in E; discriminate E].
  exists tb, pool, train, hi, hc, w1. split; [reflexivity|].
  refine (proj1 (proj2 (proj2 (proj2 (proj2
    (C4_heldout_split_moves_entries Toy.lib Toy.params Toy.world0
       tb pool train hi hc w1 toy_np_choice_spec toy_py_shuffle_spec
       _ _ _ E)))))).
  - vm_compute. repeat (constructor; [simpl; intuition discriminate|]).
    constructor.
  - vm_compute. repeat constructor.
  - vm_compute. repeat (constructor; [simpl; intuition discriminate|]).
    constructor.
Defined.

Lemma C10_max_composition_train_below_2_witness :
  raises (table_lookup_dataset Toy.lib Toy.params_shallow Toy.world0) /\
  py_range 2 (max_composition_train Toy.params + 1) <> [].
Proof.
  split.
  - apply (C10_max_composition_train_below_2 Toy.lib Toy.params_shallow
             Toy.world0). reflexivity.
  - apply (C10_max_composition_train_below_2 Toy.lib Toy.params Toy.world0).
    vm_compute. discriminate.
Defined.

(** The run of C9 on the example, with [is_stratify] off: the validation
    split is the stratified one, two rows in the example library, and not
    the plain one, which has one row there. *)
Lemma C9_failing_run :
  exists d,
    fst (table_lookup_dataset Toy.lib (with_is_stratify false Toy.params)
           Toy.world0) = Ok d /\
    length (validation d) = 2%nat /\
    forall s, exists tr va,
      Toy.split_last 1 s = Ok (tr, va) /\ length va = 1%nat \/
      Toy.split_last 1 s = Raise ValueError.
Proof.
  eexists. split; [vm_compute; reflexivity|]. split; [reflexivity|].
  intros s. unfold Toy.split_last.
  destruct (1 <? length s)%nat eqn:E.
  - exists (firstn (length s - 1) s), (skipn (length s - 1) s). left.
    split; [reflexivity|]. apply Nat.ltb_lt in E. rewrite length_skipn. lia.
  - exists [], []. now right.
Qed.

(** In the example library a draw depends on the state of its generator:
    the same shuffle from two states gives two orders. A call of
    [table_lookup_dataset] does not, since it reseeds first. *)
Lemma toy_shuffle_depends_on_state :
  fst (random_shuffle Toy.lib [0; 1; 2]%nat (mkWorld Toy.lib [] 0%nat 0%nat))
  <> fst (random_shuffle Toy.lib [0; 1; 2]%nat (mkWorld Toy.lib [] 1%nat 0%nat)).
Proof. vm_compute. discriminate. Qed.

Lemma toy_call_from_two_states :
  fst (table_lookup_dataset Toy.lib Toy.params (fresh_world Toy.lib 0%nat 0%nat))
  = fst (table_lookup_dataset Toy.lib Toy.params (fresh_world Toy.lib 5%nat 7%nat)).
Proof. vm_compute. reflexivity. Qed.

(** * More of the script *)

(** ** 4.1 The table generator: the tables it makes *)

Lemma selections_permutation {A} (l : list A) : forall s,
  In s (selections l) -> Permutation (fst s :: snd s) l.
Proof.
  induction l as [|x xs IH]; simpl; intros s; [tauto|].
  intros [<-|H]; [reflexivity|].
  apply in_map_iff in H as [s' [<- Hs']]. simpl.
  rewrite perm_swap. apply perm_skip. now apply IH.
Qed.

Lemma map_fst_selections {A} (l : list A) : map fst (selections l) = l.
Proof.
  induction l as [|x xs IH]; simpl; [reflexivity|].
  rewrite map_map. simpl. f_equal. exact IH.
Qed.

Lemma selections_length {A} (l : list A) : length (selections l) = length l.
Proof. now rewrite <- (length_map fst), map_fst_selections. Qed.

Lemma permutations_upto_permutation {A} n : forall (l perm : list A),
  length l = n -> In perm (permutations_upto n l) -> Permutation perm l.
Proof.
  induction n as [|n IH]; simpl; intros l perm Hl H.
  - destruct H as [<-|[]]. destruct l; [reflexivity|discriminate].
  - apply in_flat_map in H as [s [Hs H]].
    apply in_map_iff in H as [q [<- Hq]].
    pose proof (selections_permutation _ _ Hs) as Hp.
    rewrite <- Hp. apply perm_skip. apply IH; [|exact Hq].
    apply Permutation_length in Hp. simpl in Hp. lia.
Qed.

Lemma permutations_permutation {A} (l perm : list A) :
  In perm (permutations l) -> Permutation perm l.
Proof. now apply permutations_upto_permutation. Qed.

Lemma permutations_upto_count {A} n : forall (l : list A),
  length l = n -> length (permutations_upto n l) = fact n.
Proof.
  induction n as [|n IH]; simpl; intros l Hl; [reflexivity|].
  rewrite (length_flat_map_const _ _ (fact n)).
  - rewrite selections_length, Hl. simpl. lia.
  - intros s Hs. rewrite length_map. apply IH.
    apply selections_permutation, Permutation_length in Hs. simpl in Hs. lia.
Qed.

Lemma permutations_count {A} (l : list A) :
  length (permutations l) = fact (length l).
Proof. now apply permutations_upto_count. Qed.

Lemma NoDup_heads {A B} (g : A * B -> list (list A)) ss :
  NoDup (map fst ss) -> (forall s, In s ss -> NoDup (g s)) ->
  NoDup (flat_map (fun s => map (cons (fst s)) (g s)) ss).
Proof.
  induction ss as [|s ss IH]; simpl; intros Hn Hg; [constructor|].
  inversion Hn as [|? ? Hnot Hn']; subst.
  apply NoDup_app.
  - apply NoDup_map_cons. apply Hg. now left.
  - apply IH; [exact Hn'|]. intros s' Hs'. apply Hg. now right.
  - intros q Hq Hq'.
    apply in_map_iff in Hq as [q1 [<- _]].
    apply in_flat_map in Hq' as [s' [Hs' Hq']].
    apply in_map_iff in Hq' as [q2 [E _]].
    inversion E; subst. apply Hnot. rewrite <- H0. now apply in_map.
Qed.

Lemma NoDup_permutations_upto {A} n : forall (l : list A),
  NoDup l -> NoDup (permutations_upto n l).
Proof.
  induction n as [|n IH]; simpl; intros l Hl.
  - constructor; [intros []|constructor].
  - apply (NoDup_heads (fun s => permutations_upto n (snd s))).
    + now rewrite map_fst_selections.
    + intros s Hs. apply IH.
      apply selections_permutation in Hs.
      apply Permutation_sym in Hs.
      pose proof (Permutation_NoDup Hs Hl) as Hn.
      now inversion Hn.
Qed.

Lemma NoDup_permutations {A} (l : list A) : NoDup l -> NoDup (permutations l).
Proof. apply NoDup_permutations_upto. Qed.

Lemma length_domain_inputs alphabet n :
  length (domain_inputs alphabet n) = (length alphabet ^ Z.to_nat n)%nat.
Proof. unfold domain_inputs. now rewrite length_map, length_product. Qed.

Section GeneratedTables.
Variable L : Library.

(** The tables of a call of [create_N_table_lookup] that returns: one per
    drawn permutation of the inputs, in the order of the draw. *)
Lemma create_N_tables N alphabet n_repeats namer seed (w : World L) unary w' :
  np_choice_spec L ->
  create_N_table_lookup L (Some N) alphabet n_repeats namer seed w
    = (Ok unary, w') ->
  let inputs := domain_inputs alphabet n_repeats in
  exists outputs,
    Z.of_nat (length outputs) = N /\
    (length outputs <= length (permutations inputs))%nat /\
    (forall o, In o outputs -> In o (permutations inputs)) /\
    (NoDup inputs -> NoDup outputs) /\
    length unary = length outputs /\
    Forall (fun r => (r < length (heap w'))%nat) unary /\
    map (deref (heap w')) unary
      = map (unary_table namer inputs) (enumerate outputs).
Proof.
  intros Hnp H inputs.
  destruct (create_N_table_lookup_spec L _ _ _ _ _ _ _ _ Hnp H)
    as [_ [ps [Hps [Hu Hh]]]].
  fold inputs in Hps, Hh.
  destruct Hps as [Hnd [Hlt Hlen]].
  assert (Hpl : length (pick (permutations inputs) ps) = length ps)
    by now apply pick_length.
  exists (pick (permutations inputs) ps).
  split; [now rewrite Hpl|].
  split; [rewrite Hpl; apply (positions_bound _ N); now repeat split|].
  split; [intros o; apply pick_In|].
  split; [intros Hi; apply NoDup_pick; [now apply NoDup_permutations|exact Hnd]|].
  split; [now rewrite Hu, length_seq|].
  split.
  - rewrite Hu, Hh. apply Forall_forall. intros r Hr.
    apply in_seq in Hr. rewrite length_app, length_map, enumerate_length. lia.
  - rewrite Hu, Hh.
    rewrite <- Hpl, <- (enumerate_length (pick _ _)),
      <- (length_map (unary_table namer inputs)).
    apply deref_new_all.
Qed.

Lemma data_unary_table namer inputs io :
  In (snd io) (permutations inputs) ->
  data (unary_table namer inputs io) = snd io.
Proof.
  intros H. unfold data, unary_table. simpl.
  apply map_snd_combine. symmetry. now apply permutations_length.
Qed.

(** Their number and their names. *)
Lemma create_N_names N alphabet n_repeats namer seed (w : World L) unary w' :
  np_choice_spec L ->
  create_N_table_lookup L (Some N) alphabet n_repeats namer seed w
    = (Ok unary, w') ->
  Z.of_nat (length unary) = N /\
  map (name_in (heap w')) unary = map namer (seq 0 (length unary)).
Proof.
  intros Hnp H.
  destruct (create_N_tables _ _ _ _ _ _ _ _ Hnp H)
    as [outputs [HN [_ [Hin [_ [Hlen [_ Hmap]]]]]]].
  split; [now rewrite Hlen|].
  unfold name_in. rewrite <- (map_map (deref (heap w')) name), Hmap.
  rewrite map_map. simpl. rewrite <- (map_map fst namer).
  now rewrite map_fst_enumerate, Hlen.
Qed.

(** Every table that [create_N_table_lookup] makes has the inputs of the
    domain as its labels, in their order, and a permutation of the same
    inputs as its values; there are [N] tables and the [i]-th is called
    [namer i]. *)
Theorem created_tables_permute_inputs N alphabet n_repeats namer seed
    (w : World L) unary w' :
  np_choice_spec L ->
  create_N_table_lookup L (Some N) alphabet n_repeats namer seed w
    = (Ok unary, w') ->
  let inputs := domain_inputs alphabet n_repeats in
  Z.of_nat (length unary) = N /\
  map (name_in (heap w')) unary = map namer (seq 0 (length unary)) /\
  forall r, In r unary ->
    index (deref (heap w') r) = inputs /\
    Permutation (data (deref (heap w') r)) inputs.
Proof.
  intros Hnp H inputs.
  destruct (create_N_names _ _ _ _ _ _ _ _ Hnp H) as [HN Hnames].
  destruct (create_N_tables _ _ _ _ _ _ _ _ Hnp H)
    as [outputs [_ [_ [Hin [_ [_ [_ Hmap]]]]]]].
  fold inputs in Hin, Hmap.
  split; [exact HN|]. split; [exact Hnames|].
  intros r Hr.
  apply (in_map (deref (heap w'))) in Hr. rewrite Hmap in Hr.
  apply in_map_iff in Hr as [io [<- Hio]].
  apply in_enumerate, Hin in Hio.
  split; [now apply unary_table_index|].
  rewrite data_unary_table by exact Hio.
  now apply permutations_permutation.
Qed.

(** The tables are drawn without replacement: over distinct inputs no two
    tables of one call have the same values, and each is its own object. *)
Theorem created_tables_are_distinct N alphabet n_repeats namer seed
    (w : World L) unary w' :
  np_choice_spec L ->
  NoDup (domain_inputs alphabet n_repeats) ->
  create_N_table_lookup L (Some N) alphabet n_repeats namer seed w
    = (Ok unary, w') ->
  NoDup (map (fun r => data (deref (heap w') r)) unary) /\ NoDup unary.
Proof.
  intros Hnp Hnd H.
  destruct (create_N_tables _ _ _ _ _ _ _ _ Hnp H)
    as [outputs [_ [_ [Hin [Hout [Hlen [_ Hmap]]]]]]].
  assert (Hd : map (fun r => data (deref (heap w') r)) unary = outputs).
  { rewrite <- (map_map (deref (heap w')) data), Hmap, map_map.
    transitivity (map snd (enumerate outputs)).
    - apply map_ext_in. intros io Hio. apply data_unary_table.
      apply Hin. now apply in_enumerate.
    - apply map_snd_combine, length_seq. }
  split; [rewrite Hd; now apply Hout|].
  apply (NoDup_map_inv (fun r => data (deref (heap w') r))).
  rewrite Hd. now apply Hout.
Qed.

(** A call cannot return more tables than the inputs have permutations,
    nor a negative number of them, nor inputs of negative length: it
    raises. The inputs are [|alphabet| ^ n_repeats] many. *)
Theorem create_N_out_of_range N alphabet n_repeats namer seed (w : World L) :
  np_choice_spec L ->
  (n_repeats < 0 \/ N < 0 \/
   Z.of_nat (fact (length alphabet ^ Z.to_nat n_repeats)) < N)%Z ->
  raises (create_N_table_lookup L (Some N) alphabet n_repeats namer seed w).
Proof.
  intros Hnp Hr.
  destruct (create_N_table_lookup L (Some N) alphabet n_repeats namer seed w)
    as [[unary|e] w'] eqn:E; [|now exists e].
  exfalso.
  destruct (create_N_table_lookup_spec L _ _ _ _ _ _ _ _ Hnp E)
    as [H0 [ps [Hps _]]].
  pose proof (positions_bound _ _ _ Hps) as Hb.
  destruct Hps as [_ [_ Hlen]].
  rewrite permutations_count, length_domain_inputs in Hb. lia.
Qed.


End GeneratedTables.

Lemma created_tables_permute_inputs_witness :
  exists unary w',
    create_N_table_lookup Toy.lib (Some 3%Z) ["0"; "1"] 2 default_namer 123
      Toy.world0 = (Ok unary, w') /\
    forall r, In r unary ->
      Permutation (data (deref (heap w') r)) Toy.domain2.
Proof.
  destruct (create_N_table_lookup Toy.lib (Some 3%Z) ["0"; "1"] 2
              default_namer 123 Toy.world0) as [[unary|e] w'] eqn:E;
    [|vm_compute in E; discriminate E].
  exists unary, w'. split; [reflexivity|]. intros r Hr.
  exact (proj2 (proj2 (proj2
           (created_tables_permute_inputs _ _ _ _ _ _ _ _ _
              toy_np_choice_spec E)) r Hr)).
Defined.

Lemma created_tables_are_distinct_witness :
  exists unary w',
    create_N_table_lookup Toy.lib (Some 3%Z) ["0"; "1"] 2 default_namer 123
      Toy.world0 = (Ok unary, w') /\
    NoDup (map (fun r => data (deref (heap w') r)) unary).
Proof.
  destruct (create_N_table_lookup Toy.lib (Some 3%Z) ["0"; "1"] 2
              default_namer 123 Toy.world0) as [[unary|e] w'] eqn:E;
    [|vm_compute in E; discriminate E].
  exists unary, w'. split; [reflexivity|].
  refine (proj1 (created_tables_are_distinct _ _ _ _ _ _ _ _ _
                   toy_np_choice_spec _ E)).
  apply letters_domain_NoDup.
  - repeat constructor; simpl; intuition discriminate.
  - repeat constructor.
Defined.

Lemma create_N_out_of_range_witness :
  raises (create_N_table_lookup Toy.lib (Some 25%Z) ["0"; "1"] 2
            default_namer 123 Toy.world0).
Proof.
  apply create_N_out_of_range; [exact toy_np_choice_spec|].
  right. right. vm_compute. reflexivity.
Defined.


(** ** 4.2 The composer: what a composed table maps an input to *)

Lemma filter_key_absent (rws : list (string * string)) i :
  ~ In i (map fst rws) -> filter (fun r => String.eqb (fst r) i) rws = [].
Proof.
  induction rws as [|r rws IH]; simpl; intros Hnot; [reflexivity|].
  destruct (String.eqb (fst r) i) eqn:E.
  - apply String.eqb_eq in E. exfalso. apply Hnot. now left.
  - apply IH. intros H. apply Hnot. now right.
Qed.

Lemma filter_key_unique (rws : list (string * string)) i v :
  NoDup (map fst rws) -> In (i, v) rws ->
  filter (fun r => String.eqb (fst r) i) rws = [(i, v)].
Proof.
  induction rws as [|r rws IH]; simpl; intros Hn Hin; [tauto|].
  inversion Hn as [|? ? Hnot Hn']; subst.
  destruct Hin as [->|Hin].
  - simpl. rewrite String.eqb_refl. f_equal.
    now apply filter_key_absent.
  - destruct (String.eqb (fst r) i) eqn:E.
    + apply String.eqb_eq in E. exfalso. apply Hnot. rewrite E.
      change i with (fst (i, v)). now apply in_map.
    + now apply IH.
Qed.

Lemma no_match_row {A} (g : string * string -> list A)
    (left : list (string * string)) k :
  ~ In k (map fst left) ->
  flat_map (fun x => if String.eqb k (fst x) then g x else []) left = [].
Proof.
  induction left as [|x left IH]; simpl; intros Hnot; [reflexivity|].
  destruct (String.eqb k (fst x)) eqn:E.
  - apply String.eqb_eq in E. exfalso. apply Hnot. now left.
  - apply IH. intros H. apply Hnot. now right.
Qed.

Lemma one_match_row {A} (g : string * string -> list A)
    (left : list (string * string)) k l :
  NoDup (map fst left) -> In (k, l) left ->
  flat_map (fun x => if String.eqb k (fst x) then g x else []) left
  = g (k, l).
Proof.
  induction left as [|x left IH]; simpl; intros Hn Hin; [tauto|].
  inversion Hn as [|? ? Hnot Hn']; subst.
  destruct Hin as [->|Hin].
  - simpl. rewrite String.eqb_refl.
    rewrite (no_match_row g left k Hnot). apply app_nil_r.
  - destruct (String.eqb k (fst x)) eqn:E.
    + apply String.eqb_eq in E. exfalso. apply Hnot. rewrite <- E.
      change k with (fst (k, l)). now apply in_map.
    + now apply IH.
Qed.

(** One right row joins with the one left row that its last token names. *)
Lemma merge_single left i v k l :
  NoDup (map fst left) -> In (k, l) left -> last_token v = Some k ->
  merge left [(i, v)] = [(i, (l, v))].
Proof.
  intros Hn Hin Hk. unfold merge.
  etransitivity;
    [|exact (one_match_row (fun x => [(i, (snd x, v))]) left k l Hn Hin)].
  apply flat_map_ext. intros x. simpl. rewrite Hk, app_nil_r. reflexivity.
Qed.

Lemma compose_rows table1 table2 b c :
  compose_table_lookups table1 table2 b = Ok c ->
  rows c = map (fun m => (fst m, if b then snd (snd m) ++ " " ++ fst (snd m)
                                 else fst (snd m)))
               (merge (rows table1) (rows table2)).
Proof.
  unfold compose_table_lookups.
  destruct (merged_columns (name table1) (name table2)) as [[lc rc]|e];
    [|discriminate].
  intros H. injection H as <-. simpl. now destruct b.
Qed.

Lemma find_filter {A} (f : A -> bool) l :
  find f l = hd_error (filter f l).
Proof.
  induction l as [|x l IH]; simpl; [reflexivity|].
  destruct (f x); [reflexivity|exact IH].
Qed.

Lemma lookup_filter t i o :
  filter (fun r => String.eqb (fst r) i) (rows t) = [(i, o)] ->
  lookup t i = Some o.
Proof. intros H. unfold lookup. now rewrite find_filter, H. Qed.

Lemma lookup_in t i v :
  NoDup (index t) -> In (i, v) (rows t) -> lookup t i = Some v.
Proof.
  intros Hn Hin. apply lookup_filter. now apply filter_key_unique.
Qed.

Lemma lookup_row t i v : lookup t i = Some v -> In (i, v) (rows t).
Proof.
  unfold lookup. destruct (find _ (rows t)) as [[k o]|] eqn:E; [|discriminate].
  intros H. injection H as <-. apply find_some in E as [Hin Hk].
  apply String.eqb_eq in Hk. simpl in Hk. now subst k.
Qed.

Lemma in_index_row t i : In i (index t) -> exists v, In (i, v) (rows t).
Proof.
  intros H. apply in_map_iff in H as [[k v] [E Hin]]. simpl in E. subst k.
  now exists v.
Qed.

(** The one row of the composed table for an input. *)
Lemma compose_row table1 table2 b c i v k l :
  NoDup (index table1) -> NoDup (index table2) ->
  compose_table_lookups table1 table2 b = Ok c ->
  In (i, v) (rows table2) -> last_token v = Some k ->
  In (k, l) (rows table1) ->
  filter (fun r => String.eqb (fst r) i) (rows c)
  = [(i, if b then v ++ " " ++ l else l)].
Proof.
  intros Hn1 Hn2 Hc Hi Hk Hl.
  rewrite (compose_rows _ _ _ _ Hc).
  rewrite filter_map_comm. simpl.
  rewrite filter_merge_index.
  rewrite (filter_key_unique _ _ _ Hn2 Hi).
  now rewrite (merge_single _ _ _ _ _ Hn1 Hl Hk).
Qed.



(** *** The inputs of a composed table *)

Lemma flat_map_nil {A B} (l : list A) :
  flat_map (fun _ => @nil B) l = [].
Proof. induction l; simpl; auto. Qed.

Lemma flat_map_app_permutation {A B} (g h : A -> list B) l :
  Permutation (flat_map (fun y => g y ++ h y)%list l)
              (flat_map g l ++ flat_map h l)%list.
Proof.
  induction l as [|y l IH]; simpl; [constructor|].
  rewrite IH. rewrite <- !app_assoc. apply Permutation_app_head.
  rewrite !app_assoc. apply Permutation_app_tail. apply Permutation_app_comm.
Qed.

Lemma flat_map_swap {A B C} (f : A -> B -> list C) xs ys :
  Permutation (flat_map (fun x => flat_map (f x) ys) xs)
              (flat_map (fun y => flat_map (fun x => f x y) xs) ys).
Proof.
  induction xs as [|x xs IH]; simpl.
  - now rewrite flat_map_nil.
  - rewrite IH. symmetry. apply flat_map_app_permutation.
Qed.

(** Does the right row [r] join with the left row [l]? *)
Lemma merge_index left right :
  map fst (merge left right)
  = flat_map (fun l =>
      flat_map (fun r =>
        match last_token (snd r) with
        | Some k => if String.eqb k (fst l) then [fst r] else []
        | None => []
        end) right) left.
Proof.
  unfold merge. induction left as [|l left IH]; simpl; [reflexivity|].
  rewrite map_app, IH. f_equal.
  clear IH. induction right as [|r right IH]; simpl; [reflexivity|].
  rewrite map_app, IH. f_equal.
  destruct (last_token (snd r)) as [k|]; [|reflexivity].
  now destruct (String.eqb k (fst l)).
Qed.

Lemma one_match {A} (left : list (string * string)) k (x : A) :
  NoDup (map fst left) -> In k (map fst left) ->
  flat_map (fun l => if String.eqb k (fst l) then [x] else []) left = [x].
Proof.
  intros Hn Hin. apply in_map_iff in Hin as [[k' l] [E Hin]].
  simpl in E. subst k'.
  exact (one_match_row (fun _ => [x]) left k l Hn Hin).
Qed.

Lemma compose_index table1 table2 b c :
  compose_table_lookups table1 table2 b = Ok c ->
  index c = map fst (merge (rows table1) (rows table2)).
Proof.
  intros H. unfold index. rewrite (compose_rows _ _ _ _ H), map_map.
  reflexivity.
Qed.

Lemma compose_index_total table1 table2 b c :
  compose_table_lookups table1 table2 b = Ok c ->
  NoDup (index table1) ->
  Forall (fun v => exists k, last_token v = Some k /\ In k (index table1))
         (data table2) ->
  Permutation (index c) (index table2).
Proof.
  intros Hc Hn Hall.
  rewrite (compose_index _ _ _ _ Hc), merge_index.
  rewrite flat_map_swap. unfold index.
  rewrite <- (flat_map_ext_In (fun r => [fst r])).
  - clear. induction (rows table2); simpl; auto.
  - intros r Hr.
    assert (Hv : In (snd r) (data table2)) by now apply in_map.
    rewrite Forall_forall in Hall.
    destruct (Hall _ Hv) as [k [Hk Hin]]. rewrite Hk.
    symmetry. now apply one_match.
Qed.



Lemma before_underscore_app s x :
  before_underscore (s ++ String "_" x) = before_underscore s.
Proof.
  induction s as [|ch s IH]; simpl; [reflexivity|].
  destruct (Ascii.eqb ch "_"); [reflexivity|now rewrite IH].
Qed.



(** ** 4.6 The formatter: the tokens of a formatted label *)

Lemma fields_no_space s : Forall (fun f => no_space f = true) (fields s).
Proof.
  induction s as [|c s IH]; simpl; [repeat constructor|].
  destruct (is_space c) eqn:E; [now constructor|].
  destruct (fields s) as [|f fs]; [repeat constructor; simpl; now rewrite E|].
  inversion IH; subst. constructor; [|assumption].
  simpl. now rewrite E.
Qed.

Lemma no_space_fields t : no_space t = true -> fields t = [t].
Proof.
  induction t as [|c t IH]; simpl; [reflexivity|].
  intros H. apply andb_true_iff in H as [Hc Ht].
  apply negb_true_iff in Hc. rewrite Hc, (IH Ht). reflexivity.
Qed.

Lemma no_space_token t : no_space t = true -> t <> "" -> token t.
Proof.
  intros H Hne. unfold token, split. rewrite (no_space_fields _ H).
  destruct t; [congruence|reflexivity].
Qed.

(** What [split] returns are tokens. *)
Lemma split_tokens s : Forall token (split s).
Proof.
  apply Forall_forall. intros t Ht. unfold split in Ht.
  apply filter_In in Ht as [Hin Hne].
  pose proof (fields_no_space s) as Hf. rewrite Forall_forall in Hf.
  apply no_space_token; [now apply Hf|].
  intros ->. discriminate.
Qed.

Lemma split_empty : split "" = [].
Proof. reflexivity. Qed.

Lemma split_spaced a b : split (a ++ " " ++ b) = (split a ++ split b)%list.
Proof. now apply (split_app_space a " " b). Qed.

(** Joining tokens with spaces and splitting again gives them back. *)
Lemma split_join l : Forall token l -> split (join " " l) = l.
Proof.
  induction l as [|x l IH]; intros H; [reflexivity|].
  inversion H as [|? ? Hx Hl]; subst.
  destruct l as [|y l]; [exact Hx|].
  change (join " " (x :: y :: l)) with (x ++ " " ++ join " " (y :: l)).
  rewrite split_spaced, (IH Hl), Hx. reflexivity.
Qed.

(** The tokens of the label that [format_input] writes for the label [i]
    of the table [table_name]: the tokens of the name, then those of [i],
    in the reverse order when [is_reverse], then those of [eos]. An empty
    [eos] adds nothing, like no [eos]. *)
Theorem format_key_tokens table_name is_reverse eos i :
  split (format_key table_name is_reverse eos i)
  = ((if is_reverse then rev (split table_name ++ split i)
      else split table_name ++ split i)
     ++ match eos with Some e => split e | None => [] end)%list.
Proof.
  unfold format_key, format_name, format_reverse, format_eos.
  set (base := table_name ++ " " ++ i).
  assert (Hb : split base = (split table_name ++ split i)%list)
    by apply split_spaced.
  set (i2 := if is_reverse then join " " (rev (split base)) else base).
  assert (H2 : split i2 = if is_reverse
                          then rev (split table_name ++ split i)%list
                          else (split table_name ++ split i)%list).
  { unfold i2. destruct is_reverse; [|exact Hb].
    rewrite split_join, Hb; [reflexivity|].
    apply Forall_rev, split_tokens. }
  destruct eos as [e|]; [|now rewrite app_nil_r].
  destruct e as [|c e]; simpl nonempty; cbv iota.
  - now rewrite split_empty, app_nil_r.
  - now rewrite split_spaced, H2.
Qed.

Lemma NoDup_map_inj_in {A B} (f : A -> B) l :
  (forall x y, In x l -> In y l -> f x = f y -> x = y) ->
  NoDup l -> NoDup (map f l).
Proof.
  induction l as [|x l IH]; simpl; intros Hinj Hn; [constructor|].
  inversion Hn as [|? ? Hnot Hn']; subst. constructor.
  - intros H. apply in_map_iff in H as [y [E Hy]].
    apply Hnot. rewrite (Hinj x y); auto.
  - apply IH; auto.
Qed.

(** Formatting keeps the labels of a table apart: labels that are
    distinct tokens stay distinct, whatever the name and the flags. *)
Theorem formatted_labels_distinct is_reverse eos t :
  Forall token (index t) -> NoDup (index t) ->
  NoDup (index (formatted is_reverse eos t)).
Proof.
  intros Htok Hn. unfold formatted. rewrite index_map_index.
  apply NoDup_map_inj_in; [|exact Hn].
  intros x y Hx Hy E.
  rewrite Forall_forall in Htok.
  apply (f_equal split) in E. rewrite !format_key_tokens in E.
  apply app_inv_tail in E.
  rewrite (Htok x Hx), (Htok y Hy) in E.
  destruct is_reverse.
  - apply (f_equal (@rev string)) in E. rewrite !rev_involutive in E.
    apply app_inv_head in E. congruence.
  - apply app_inv_head in E. congruence.
Qed.

Lemma formatted_labels_distinct_witness :
  NoDup (index (formatted true (Some ".") Toy.t1)).
Proof.
  apply formatted_labels_distinct.
  - repeat constructor.
  - repeat constructor; simpl; intuition discriminate.
Defined.

(** ** [_merge_format_inputs]: the blocks and the store it leaves *)

Lemma formatted_no_table is_reverse eos :
  formatted is_reverse eos no_table = no_table.
Proof. reflexivity. Qed.

Lemma deref_update_same is_reverse eos h r :
  deref (update r (formatted is_reverse eos (deref h r)) h) r
  = formatted is_reverse eos (deref h r).
Proof.
  unfold deref. destruct (Nat.lt_ge_cases r (length h)) as [Hl|Hl].
  - now apply nth_update_same.
  - rewrite nth_overflow by (now rewrite update_length).
    rewrite (nth_overflow h no_table Hl). reflexivity.
Qed.

Lemma deref_update_other h r r' t :
  r <> r' -> deref (update r t h) r' = deref h r'.
Proof. intros H. unfold deref. now apply nth_update_other. Qed.

Lemma formatted_store_app is_reverse eos l1 l2 h :
  formatted_store is_reverse eos (l1 ++ l2) h
  = formatted_store is_reverse eos l2 (formatted_store is_reverse eos l1 h).
Proof. apply fold_left_app. Qed.

Lemma formatted_store_other is_reverse eos dfs : forall h r,
  ~ In r dfs -> deref (formatted_store is_reverse eos dfs h) r = deref h r.
Proof.
  induction dfs as [|x dfs IH]; intros h r Hnot; [reflexivity|].
  simpl. rewrite IH by (intros H; apply Hnot; now right).
  apply deref_update_other. intros ->. apply Hnot. now left.
Qed.

Lemma formatted_store_in is_reverse eos dfs : forall h r,
  NoDup dfs -> In r dfs ->
  deref (formatted_store is_reverse eos dfs h) r
  = formatted is_reverse eos (deref h r).
Proof.
  induction dfs as [|x dfs IH]; intros h r Hn Hin; [destruct Hin|].
  inversion Hn as [|? ? Hnot Hn']; subst. simpl.
  destruct (Nat.eq_dec x r) as [->|Hne].
  - rewrite formatted_store_other by exact Hnot.
    apply deref_update_same.
  - destruct Hin as [->|Hin]; [congruence|].
    rewrite (IH _ _ Hn' Hin). now rewrite deref_update_other.
Qed.

Section MergeFormat.
Variable L : Library.
Variables (is_reverse : bool) (eos : option string).

Lemma mapM_format_store dfs : forall w : World L,
  mapM (format_input L is_reverse eos) dfs w
  = (Ok dfs, mkWorld L (formatted_store is_reverse eos dfs (heap w))
                     (py_rng w) (np_rng w)).
Proof.
  induction dfs as [|x dfs IH]; intros w; [now destruct w|].
  simpl. unfold bind at 1. rewrite format_input_spec.
  unfold bind at 1. rewrite IH. reflexivity.
Qed.

Lemma mapM_cons_ok {A B} (f : A -> M L B) x l (w : World L) y w1 :
  f x w = (Ok y, w1) ->
  mapM f (x :: l) w
  = match mapM f l w1 with
    | (Ok ys, w2) => (Ok (y :: ys), w2)
    | (Raise e, w2) => (Raise e, w2)
    end.
Proof. intros H. simpl. unfold bind at 1. rewrite H. reflexivity. Qed.

Lemma mapM_cons_raise {A B} (f : A -> M L B) x l (w : World L) e w1 :
  f x w = (Raise e, w1) -> mapM f (x :: l) w = (Raise e, w1).
Proof. intros H. simpl. unfold bind at 1. now rewrite H. Qed.

(** One block: the rows of the tables after all of them are formatted. *)
Lemma format_concat_spec dfs (w : World L) :
  bind (mapM (format_input L is_reverse eos) dfs) (fun fs => pd_concat L fs) w
  = match dfs with
    | [] => (Raise ValueError, w)
    | _ =>
        let h := formatted_store is_reverse eos dfs (heap w) in
        (Ok (flat_map (fun r => rows (deref h r)) dfs),
         mkWorld L h (py_rng w) (np_rng w))
    end.
Proof.
  unfold bind. rewrite mapM_format_store.
  destruct dfs as [|x dfs]; [now destruct w|reflexivity].
Qed.


Lemma mapM_format_concat list_dfs : forall w : World L,
  NoDup (concat list_dfs) -> ~ In [] list_dfs ->
  mapM (fun dfs => bind (mapM (format_input L is_reverse eos) dfs)
                        (fun fs => pd_concat L fs)) list_dfs w
  = (Ok (map (fun dfs =>
            flat_map (fun r => rows (formatted is_reverse eos
                                       (deref (heap w) r))) dfs) list_dfs),
     mkWorld L (formatted_store is_reverse eos (concat list_dfs) (heap w))
             (py_rng w) (np_rng w)).
Proof.
  induction list_dfs as [|dfs rest IH]; intros w Hn Hne;
    [now destruct w|].
  destruct dfs as [|x dfs]; [exfalso; apply Hne; now left|].
  rewrite (mapM_cons_ok
          (fun dfs => bind (mapM (format_input L is_reverse eos) dfs)
                 (fun fs => pd_concat L fs))
          (x :: dfs) rest w _ _ (format_concat_spec (x :: dfs) w)).
  cbn [concat]. set (dfs1 := x :: dfs) in *.
  assert (Hn1 : NoDup dfs1) by (eapply NoDup_app_remove_r; exact Hn).
  assert (Hn2 : NoDup (concat rest)) by (eapply NoDup_app_remove_l; exact Hn).
  rewrite IH; [|exact Hn2|intros H; apply Hne; now right].
  cbn [heap py_rng np_rng]. rewrite formatted_store_app.
  f_equal. cbn [map]. f_equal. f_equal.
  - apply flat_map_ext_In. intros r Hr.
    now rewrite formatted_store_in.
  - apply map_ext_in. intros l Hl. apply flat_map_ext_In. intros r Hr.
    rewrite formatted_store_other; [reflexivity|].
    intros Hd. apply (NoDup_app_disjoint dfs1 (concat rest) Hn r Hd).
    apply in_concat. now exists l.
Qed.

Lemma Forall2_map_r_in {A B} (P : A -> B -> Prop) (f : A -> B) l :
  (forall x, In x l -> P x (f x)) -> Forall2 P l (map f l).
Proof.
  induction l as [|x l IH]; simpl; intros H; constructor; auto.
Qed.


End MergeFormat.


(** ** [_uniform_split]: when the stratified split is given up *)

Section UniformSplit.
Variable L : Library.

(** Without stratification [_uniform_split] is the plain split of
    scikit-learn. With it, the result of the stratified split is returned
    as it is, an exception other than [ValueError] included; on a
    [ValueError] the plain split is taken instead. So a [ValueError] comes
    out only when the plain split raises it. *)
Theorem uniform_split_fallback to_split table_names validation_size seed :
  let plain := train_test_split L to_split validation_size seed None in
  let stratified :=
    train_test_split L to_split validation_size seed
      (Some (stratify_frame (set_order L table_names) to_split)) in
  _uniform_split L to_split table_names validation_size seed false = plain /\
  (forall r, stratified = Ok r ->
     _uniform_split L to_split table_names validation_size seed true = Ok r) /\
  (forall e, stratified = Raise e -> e <> ValueError ->
     _uniform_split L to_split table_names validation_size seed true
     = Raise e) /\
  (stratified = Raise ValueError ->
     _uniform_split L to_split table_names validation_size seed true = plain) /\
  (forall b,
     _uniform_split L to_split table_names validation_size seed b
     = Raise ValueError -> plain = Raise ValueError).
Proof.
  intros plain stratified. subst plain stratified.
  unfold _uniform_split. cbv beta iota zeta.
  set (plain := train_test_split L to_split validation_size seed None).
  set (stratified := train_test_split L to_split validation_size seed _).
  split; [|split; [|split; [|split]]].
  - destruct plain as [r|[]]; reflexivity.
  - intros r ->. reflexivity.
  - intros e -> He. destruct e; [congruence|reflexivity..].
  - intros ->. reflexivity.
  - intros [|]; cbv iota; fold stratified; fold plain.
    + destruct stratified as [r|[]]; intros H;
        first [discriminate H|exact H].
    + destruct plain as [r|[]]; intros H;
        first [discriminate H|exact H|reflexivity].
Qed.

End UniformSplit.

(** ** 4.7 The invariant checker: its three outcomes *)

(** On an empty unary block the checker raises [IndexError] at its first
    line. Otherwise it returns exactly when the six blocks have the sizes
    computed from the domain size it reads off the unary block, and raises
    [AssertionError] when they do not; it has no other outcome. *)
Theorem check_sizes_outcome p b :
  (b_unary b = [] -> check_blocks p b = Raise IndexError) /\
  (b_unary b <> [] ->
     (check_blocks p b = Ok tt <-> checked_sizes p (read_domain_size b) b) /\
     (check_blocks p b <> Ok tt -> check_blocks p b = Raise AssertionError)).
Proof.
  split.
  - intros E. unfold check_blocks, _check_sizes. now rewrite E.
  - intros Hne. destruct (check_blocks_spec p b Hne) as [[E H]|[E H]].
    + split; [tauto|congruence].
    + split; [|auto]. split; [congruence|tauto].
Qed.

(** ** 4.3 The partitioner on any names *)

Section PartitionerAnyNames.
Context {A : Type} (name_of : A -> string).
Variables (name_train name_test : list string).

Lemma is_seen_has_token t :
  is_seen name_of name_test t = negb (has_token (name_of t) name_test).
Proof. unfold is_seen. now rewrite truthy_composed_of. Qed.

Lemma is_new_has_token t :
  is_new name_of name_train t = negb (has_token (name_of t) name_train).
Proof. unfold is_new. now rewrite truthy_composed_of. Qed.

Lemma is_unseen_has_token t :
  is_unseen name_of name_train name_test t
  = has_token (name_of t) name_test && has_token (name_of t) name_train.
Proof. unfold is_unseen. now rewrite !truthy_composed_of. Qed.

(** Whatever the tables and the two sets of names: every table lands in
    one of the three lists, and [unseen] shares no table with [seen] or
    with [new]. A table is in both [seen] and [new] exactly when none of
    the tokens of its name is in either set (an empty name, or names that
    the composer has cut), and these tables are the ones counted twice. *)
Theorem split_seen_unseen_new_any_names (dfs : list A) :
  let '(seen, unseen, new) :=
    _split_seen_unseen_new name_of dfs name_train name_test in
  let stray t := negb (has_token (name_of t) name_train)
                 && negb (has_token (name_of t) name_test) in
  (forall t, In t dfs -> In t seen \/ In t unseen \/ In t new) /\
  (forall t, ~ (In t seen /\ In t unseen)) /\
  (forall t, ~ (In t unseen /\ In t new)) /\
  (forall t, In t seen /\ In t new <-> In t dfs /\ stray t = true) /\
  (length seen + length unseen + length new
   = length dfs + length (filter stray dfs))%nat.
Proof.
  unfold _split_seen_unseen_new. cbv zeta.
  split; [|split; [|split; [|split]]].
  - intros t Ht. rewrite !filter_In.
    rewrite is_seen_has_token, is_new_has_token, is_unseen_has_token.
    destruct (has_token (name_of t) name_test),
             (has_token (name_of t) name_train); simpl; auto.
  - intros t [H1 H2]. apply filter_In in H1 as [_ H1].
    apply filter_In in H2 as [_ H2].
    rewrite is_seen_has_token in H1. rewrite is_unseen_has_token in H2.
    destruct (has_token (name_of t) name_test); discriminate.
  - intros t [H1 H2]. apply filter_In in H1 as [_ H1].
    apply filter_In in H2 as [_ H2].
    rewrite is_new_has_token in H2. rewrite is_unseen_has_token in H1.
    destruct (has_token (name_of t) name_train),
             (has_token (name_of t) name_test); discriminate.
  - intros t. rewrite !filter_In.
    rewrite is_seen_has_token, is_new_has_token.
    destruct (has_token (name_of t) name_test),
             (has_token (name_of t) name_train); simpl; intuition congruence.
  - induction dfs as [|t l IH]; [reflexivity|]. cbn [filter].
    rewrite is_seen_has_token, is_new_has_token, is_unseen_has_token.
    destruct (has_token (name_of t) name_test),
             (has_token (name_of t) name_train); simpl; lia.
Qed.

End PartitionerAnyNames.

(** ** The held-out counts at their bounds *)

Lemma slices_app {A} j (l : list A) : (slice_to j l ++ slice_from j l)%list = l.
Proof. apply firstn_skipn. Qed.

Lemma slice_to_length {A} j (l : list A) :
  length (slice_to j l) = slice_bound j (length l).
Proof.
  unfold slice_to. rewrite length_firstn.
  unfold slice_bound.
  destruct (j <? 0)%Z eqn:E; [apply Z.ltb_lt in E|]; lia.
Qed.

Lemma slice_from_length {A} j (l : list A) :
  length (slice_from j l) = (length l - slice_bound j (length l))%nat.
Proof. unfold slice_from. apply length_skipn. Qed.

Lemma slice_to_nil {A} j (l : list A) :
  slice_bound j (length l) = O -> slice_to j l = [].
Proof. unfold slice_to. now intros ->. Qed.

Lemma read_domain_size_pos b : b_unary b <> [] -> (1 <= read_domain_size b)%Z.
Proof.
  unfold read_domain_size. destruct (b_unary b) as [|first rest]; [congruence|].
  intros _. destruct first as [i v]. cbn [map snd].
  destruct v as [|c v]; [simpl; lia|].
  assert (H : (1 <= distinct_chars (String c v :: map snd rest))%nat).
  { unfold distinct_chars.
    assert (Hin : In c (nodup ascii_dec (list_ascii_of_string
                    (String.concat "" (String c v :: map snd rest))))).
    { apply nodup_In. destruct (map snd rest); simpl; now left. }
    destruct (nodup _ _); [destruct Hin|simpl; lia]. }
  assert (Hp : (0 < Z.of_nat (distinct_chars (String c v :: map snd rest))
                    ^ Z.of_nat (String.length (String c v)))%Z)
    by (apply Z.pow_pos_nonneg; lia).
  lia.
Qed.

Section Bounds.
Variable L : Library.

Lemma unary_tables_names p (w : World L) unary wu :
  np_choice_spec L ->
  unary_tables L p w = (Ok unary, wu) ->
  Z.of_nat (length unary) = n_unary_tables p /\
  map (name_in (heap wu)) unary = unary_names p.
Proof.
  intros Hnp H. unfold unary_tables in H.
  apply bind_inv in H as ([] & w1 & H1 & H). injection H1 as <-.
  apply bind_inv in H as ([] & w2 & H2 & H). injection H2 as <-.
  destruct (create_N_names L _ _ _ _ _ _ _ _ Hnp H) as [HN Hnames].
  split; [exact HN|]. rewrite Hnames. unfold unary_names.
  f_equal. f_equal. lia.
Qed.

(** The two sets of names are the two sides of one cut through the list
    of unary tables, so together they are all the names, in order. With
    [n_heldout_tables = 0] the cut is at the start: no table is left for
    training and all of them are held out. With a count from 1 to the
    number of tables, that many tables are held out. *)
Theorem unary_names_split p (w : World L) tb w1 :
  np_choice_spec L ->
  make_tables L p w = (Ok tb, w1) ->
  (tb_names_train tb ++ tb_names_test tb)%list = unary_names p /\
  (n_heldout_tables p = 0%Z ->
     tb_names_train tb = [] /\ tb_names_test tb = unary_names p) /\
  ((0 < n_heldout_tables p <= n_unary_tables p)%Z ->
     Z.of_nat (length (tb_names_test tb)) = n_heldout_tables p /\
     Z.of_nat (length (tb_names_train tb))
     = (n_unary_tables p - n_heldout_tables p)%Z).
Proof.
  intros Hnp H.
  destruct (make_tables_inv _ _ _ _ _ H)
    as (wu & pd & Hu & Etr & Ete & _ & _ & _).
  destruct (unary_tables_names _ _ _ _ Hnp Hu) as [HN Hnames].
  assert (Hall : (tb_names_train tb ++ tb_names_test tb)%list = unary_names p).
  { rewrite Etr, Ete, <- map_app, slices_app. exact Hnames. }
  split; [exact Hall|]. split.
  - intros E0. rewrite E0 in Etr. unfold slice_to in Etr.
    rewrite slice_bound_0 in Etr. simpl in Etr.
    rewrite Etr in Hall. simpl in Hall. now split.
  - intros Hr. rewrite Etr, Ete, !length_map.
    rewrite slice_to_length, slice_from_length.
    unfold slice_bound.
    destruct (- n_heldout_tables p <? 0)%Z eqn:E;
      [|apply Z.ltb_ge in E; lia].
    lia.
Qed.

Lemma firstn_not_nil {A} k (l : list A) : firstn k l <> [] -> (0 < k)%nat.
Proof. destruct k; [now simpl|lia]. Qed.

Lemma skipn_not_nil {A} k (l : list A) : skipn k l <> [] -> (k < length l)%nat.
Proof.
  intros H. destruct (Nat.lt_ge_cases k (length l)) as [Hl|Hl]; [exact Hl|].
  now rewrite skipn_all2 in H.
Qed.

(** A run that reaches the building blocks has a table with a train name
    and a held-out name among its tokens, so both cuts of the list of
    unary tables have a table. *)
Lemma building_blocks_slices p (w : World L) tb lg b w' :
  building_blocks L p w = (Ok (tb, lg, b), w') ->
  slice_to (- n_heldout_tables p) (tb_unary tb) <> [] /\
  slice_from (- n_heldout_tables p) (tb_unary tb) <> [].
Proof.
  intros H.
  destruct (building_blocks_inv _ _ _ _ _ _ _ H)
    as (mt & ho & w1 & w5 & Hs & _ & Hb).
  destruct (heldout_stage_inv _ _ _ _ _ _ _ Hs) as (wa & wb & Hm & _ & _).
  destruct (build_blocks_nonempty _ _ _ _ _ _ _ Hb)
    as (_ & _ & _ & _ & Hun & _).
  destruct (make_tables_inv _ _ _ _ _ Hm)
    as (wu & pd & Hu & Etr & Ete & _ & _ & Esp).
  unfold _split_seen_unseen_new in Esp. injection Esp as _ Eunseen _.
  destruct (tb_unseen tb) as [|t ts] eqn:E; [congruence|].
  assert (Ht : In t (t :: ts)) by now left.
  rewrite Eunseen in Ht. apply filter_In in Ht as [_ Ht].
  unfold is_unseen in Ht. apply andb_true_iff in Ht as [Hte Htr].
  apply composed_of_nonempty in Hte, Htr. split.
  - intros E'. apply Htr. now rewrite Etr, E'.
  - intros E'. apply Hte. now rewrite Ete, E'.
Qed.

(** No run returns unless some unary table is held out and some is not:
    with [n_heldout_tables = 0], or a count that reaches the number of
    unary tables, the call raises. *)
Theorem heldout_tables_out_of_range p (w : World L) :
  np_choice_spec L ->
  (n_heldout_tables p = 0 \/
   n_unary_tables p <= Z.abs (n_heldout_tables p))%Z ->
  raises (table_lookup_dataset L p w).
Proof.
  intros Hnp Hr.
  destruct (table_lookup_dataset L p w) as [[d|e] w'] eqn:E;
    [exfalso|now exists e].
  unfold table_lookup_dataset in E.
  apply bind_inv in E as ([[tb lg] b] & w1 & Hbb & _).
  destruct (building_blocks_slices _ _ _ _ _ _ Hbb) as [H1 H2].
  destruct (building_blocks_inv _ _ _ _ _ _ _ Hbb)
    as (mt & ho & w2 & w5 & Hs & _ & _).
  destruct (heldout_stage_inv _ _ _ _ _ _ _ Hs) as (wa & wb & Hm & _ & _).
  destruct (make_tables_unary _ _ _ _ _ Hm) as (wu & Hu & _).
  destruct (unary_tables_names _ _ _ _ Hnp Hu) as [HN _].
  unfold slice_to in H1. unfold slice_from in H2.
  apply firstn_not_nil in H1. apply skipn_not_nil in H2.
  unfold slice_bound in H1, H2.
  destruct (- n_heldout_tables p <? 0)%Z eqn:E; lia.
Qed.

(** With nothing kept for training the splitter draws nothing. *)
Lemma heldout_split_nothing_kept p (pool : list ref) (w : World L) :
  slice_to (- n_heldout_compositions p) pool = [] ->
  heldout_split L p pool w
  = (Ok ([], [], slice_from (- n_heldout_compositions p) pool), w).
Proof. intros E. unfold heldout_split. rewrite E. reflexivity. Qed.

Lemma check_blocks_negative p b :
  (n_heldout_compositions p < 0)%Z -> check_blocks p b <> Ok tt.
Proof.
  intros Hneg H.
  destruct (b_unary b) as [|r rs] eqn:E.
  - unfold check_blocks, _check_sizes in H. rewrite E in H. discriminate.
  - assert (Hne : b_unary b <> []) by congruence.
    destruct (check_blocks_spec p b Hne) as [[_ Hc]|[Hc _]]; [|congruence].
    pose proof (read_domain_size_pos b Hne) as Hd.
    destruct Hc as (_ & _ & _ & Hc & _). unfold len in Hc. nia.
Qed.

(** No run returns unless the number of held-out compositions is at least
    1 and below the number of seen compositions: at 0 and from that number
    on no table is left for training and [pd.concat] raises; below 0 the
    sizes cannot pass the checker. *)
Theorem heldout_compositions_out_of_range p (w : World L) tb pool ho w1 :
  py_shuffle_spec L ->
  heldout_stage L p w = (Ok (tb, pool, ho), w1) ->
  (n_heldout_compositions p <= 0 \/
   Z.of_nat (length (tb_seen tb)) <= n_heldout_compositions p)%Z ->
  raises (table_lookup_dataset L p w).
Proof.
  intros Hsh Hs Hr.
  destruct (Z.lt_ge_cases (n_heldout_compositions p) 0) as [Hneg|Hpos].
  - unfold table_lookup_dataset.
    destruct (building_blocks L p w) as [[bb|e] w2] eqn:Ebb;
      [|apply raises_bind_first; rewrite Ebb; now exists e].
    rewrite (bind_ok _ _ _ _ _ _ Ebb).
    apply raises_bind_first. unfold lift.
    destruct (check_blocks p (snd bb)) as [[]|e] eqn:Ec; [|now exists e].
    exfalso. exact (check_blocks_negative _ _ Hneg Ec).
  - destruct (heldout_stage_inv _ _ _ _ _ _ _ Hs) as (wa & wb & Hm & Hsf & Hh).
    destruct (random_shuffle_spec _ _ _ _ _ Hsh Hsf) as [Hperm _].
    apply Permutation_length in Hperm.
    assert (Hk : slice_to (- n_heldout_compositions p) pool = []).
    { apply slice_to_nil. unfold slice_bound.
      destruct (- n_heldout_compositions p <? 0)%Z eqn:E.
      - lia.
      - apply Z.ltb_ge in E.
        assert (E0 : n_heldout_compositions p = 0%Z) by lia.
        rewrite E0. reflexivity. }
    rewrite (heldout_split_nothing_kept _ _ _ Hk) in Hh.
    injection Hh as <- _.
    unfold table_lookup_dataset, building_blocks.
    apply raises_bind_first. rewrite (bind_ok _ _ _ _ _ _ Hs). cbn [fst snd].
    do 4 (apply raises_bind; intros ? ?).
    apply raises_bind_first. apply build_blocks_no_train.
Qed.

End Bounds.

Lemma unary_names_split_witness :
  exists tb w1,
    make_tables Toy.lib Toy.params Toy.world0 = (Ok tb, w1) /\
    (tb_names_train tb ++ tb_names_test tb)%list = ["t1"; "t2"; "t3"] /\
    Z.of_nat (length (tb_names_test tb)) = 1%Z.
Proof.
  destruct (make_tables Toy.lib Toy.params Toy.world0) as [[tb|e] w1] eqn:E;
    [|vm_compute in E; discriminate E].
  exists tb, w1. split; [reflexivity|].
  destruct (unary_names_split Toy.lib Toy.params Toy.world0 tb w1
              toy_np_choice_spec E) as [H1 [_ H3]].
  split; [exact H1|].
  refine (proj1 (H3 _)). simpl. lia.
Defined.

Lemma heldout_tables_out_of_range_witness :
  raises (table_lookup_dataset Toy.lib (with_heldout 0 1 1 Toy.params)
            Toy.world0).
Proof.
  apply heldout_tables_out_of_range; [exact toy_np_choice_spec|].
  left. reflexivity.
Defined.

Lemma heldout_compositions_out_of_range_witness :
  raises (table_lookup_dataset Toy.lib (with_heldout 1 4 1 Toy.params)
            Toy.world0).
Proof.
  destruct (heldout_stage Toy.lib (with_heldout 1 4 1 Toy.params) Toy.world0)
    as [[[[tb pool] ho]|e] w1] eqn:E; [|vm_compute in E; discriminate E].
  apply (heldout_compositions_out_of_range Toy.lib _ _ tb pool ho w1
           toy_py_shuffle_spec E).
  right.
  assert (Hl : length (tb_seen tb) = 4%nat).
  { vm_compute in E. injection E as <- _ _ _. reflexivity. }
  rewrite Hl. simpl. lia.
Defined.

(** ** 4.4 The held-out splitter: how many rows go where *)

Lemma getitem_nrows t labels g :
  NoDup (index t) -> getitem t labels = Ok g ->
  name g = name t /\ length (rows g) = length labels.
Proof.
  intros Hn H. unfold getitem in H.
  destruct (forallb _ labels) eqn:E; [|discriminate].
  injection H as <-. cbn [name rows]. split; [reflexivity|].
  rewrite (length_flat_map_const _ _ 1); [lia|].
  intros l Hl. rewrite forallb_forall in E.
  apply E, mem_In in Hl. unfold index in Hl.
  apply in_map_iff in Hl as [[l' v] [El Hin]]. simpl in El. subst l'.
  now rewrite (filter_key_unique _ _ _ Hn Hin).
Qed.

Lemma drop_nrows t labels d :
  NoDup (index t) -> NoDup labels -> drop t labels = Ok d ->
  name d = name t /\ (length (rows d) + length labels = length (rows t))%nat.
Proof.
  intros Hn Hl H.
  destruct (getitem t labels) as [g|e] eqn:Eg.
  - destruct (getitem_drop_permutation _ _ _ _ Hl Eg H) as (_ & Hd & Hp).
    destruct (getitem_nrows _ _ _ Hn Eg) as [_ Hg].
    apply Permutation_length in Hp. rewrite length_app in Hp.
    split; [exact Hd|lia].
  - unfold getitem in Eg. unfold drop in H.
    destruct (forallb _ labels); discriminate.
Qed.

Lemma Forall2_combine_r {A B C} (P : A * B -> C -> Prop) (Q : A -> Prop) ls :
  forall ts rs,
  length ls = length ts -> Forall Q ls ->
  Forall2 P (combine ls ts) rs ->
  Forall2 (fun t r => exists l, Q l /\ P (l, t) r) ts rs.
Proof.
  induction ls as [|l ls IH]; intros [|t ts] rs Hlen HQ H;
    try discriminate; simpl in H.
  - inversion H. constructor.
  - inversion H as [|? ? ? ? Hp Hrest]; subst.
    inversion HQ; subst. constructor; [now exists l|].
    apply IH; auto.
Qed.

Section HeldOutSizes.
Variable L : Library.

(** The held-out splitter with the labels it draws: for each table kept
    for training, [n_heldout_inputs] distinct labels. *)
Lemma heldout_split_labels p pool (w : World L) train hi hc w' :
  np_choice_spec L ->
  (forall r, In r pool ->
     (r < length (heap w))%nat /\ NoDup (index (deref (heap w) r))) ->
  heldout_split L p pool w = (Ok (train, hi, hc), w') ->
  let kept := slice_to (- n_heldout_compositions p) pool in
  hc = slice_from (- n_heldout_compositions p) pool /\
  extends (heap w) (heap w') /\
  exists labels,
    length labels = length kept /\
    Forall (fun ls => NoDup ls /\ Z.of_nat (length ls) = n_heldout_inputs p)
           labels /\
    Forall2 (fun lt r => made_from getitem lt r (heap w'))
            (combine labels kept) hi /\
    Forall2 (fun lt r => made_from drop lt r (heap w'))
            (combine labels kept) train.
Proof.
  intros Hnp Hpool H kept. unfold heldout_split in H. fold kept in H.
  apply bind_inv in H as (labels & wa & Hl & H).
  apply bind_inv in H as (hi' & wb & Hh & H).
  apply bind_inv in H as (tr' & wc & Ht & H).
  injection H as -> -> <- ->.
  assert (Hkept : forall r, In r kept ->
            (r < length (heap w))%nat /\ NoDup (index (deref (heap w) r))).
  { intros r Hr. apply Hpool. eapply in_slice_to, Hr. }
  assert (Step1 : forall t w1 ls w2, In t kept ->
            extends (heap w) (heap w1) ->
            bind (load L t)
              (fun tv => np_random_choice L (index tv) (n_heldout_inputs p)) w1
              = (Ok ls, w2) ->
            (NoDup ls /\ Z.of_nat (length ls) = n_heldout_inputs p) /\
            extends (heap w1) (heap w2)).
  { intros t w1 ls w2 Htk E1 Hc.
    apply bind_inv in Hc as (tv & w3 & Hld & Hc).
    unfold load in Hld. injection Hld as <- <-.
    unfold np_random_choice in Hc.
    destruct (np_choice L _ _ _) as [[ps|e] g] eqn:Ech; [|discriminate].
    injection Hc as <- <-. cbn [heap]. split; [|apply extends_refl].
    destruct (Hnp _ _ _ _ _ Ech) as (Hnd & Hlt & Hlen).
    split.
    - apply NoDup_pick; [|exact Hnd].
      destruct (Hkept t Htk) as [Hlt' Hd].
      now rewrite (extends_deref _ _ _ E1 Hlt').
    - now rewrite pick_length. }
  destruct (mapM_Forall2 L _
              (fun (t : ref) (ls : list string) _ =>
                 NoDup ls /\ Z.of_nat (length ls) = n_heldout_inputs p)
              kept (fun _ _ _ _ Hn _ => Hn) w Step1 labels wa Hl) as [Fl Ea].
  assert (Hlen : length labels = length kept)
    by (symmetry; eapply Forall2_length, Fl).
  assert (Hpairs : forall lt, In lt (combine labels kept) ->
            (snd lt < length (heap w))%nat).
  { intros [ls t] Hin. apply in_combine_r in Hin. now apply Hkept. }
  assert (Step2 : forall lt w1 r w2, In lt (combine labels kept) ->
            extends (heap wa) (heap w1) ->
            getitem_ref L (snd lt) (fst lt) w1 = (Ok r, w2) ->
            made_from getitem lt r (heap w2) /\ extends (heap w1) (heap w2)).
  { intros lt w1 r w2 Hin E1 Hc.
    apply getitem_ref_spec in Hc as (s & Hs & -> & Eh).
    assert (Hlt : (snd lt < length (heap w1))%nat).
    { pose proof (Hpairs lt Hin).
      pose proof (extends_length _ _ (extends_trans _ _ _ Ea E1)). lia. }
    split; [|rewrite Eh; now exists [s]].
    unfold made_from. rewrite Eh, deref_new, deref_old, length_app by exact Hlt.
    cbn [length]. split; [lia|split; [lia|exact Hs]]. }
  destruct (mapM_Forall2 L _ (made_from getitem) (combine labels kept)
              (made_from_extends getitem) wa Step2 hi wb Hh) as [Fh Eb].
  assert (Step3 : forall lt w1 r w2, In lt (combine labels kept) ->
            extends (heap wb) (heap w1) ->
            drop_ref L (snd lt) (fst lt) w1 = (Ok r, w2) ->
            made_from drop lt r (heap w2) /\ extends (heap w1) (heap w2)).
  { intros lt w1 r w2 Hin E1 Hc.
    apply drop_ref_spec in Hc as (s & Hs & -> & Eh).
    assert (Hlt : (snd lt < length (heap w1))%nat).
    { pose proof (Hpairs lt Hin).
      pose proof (extends_length _ _
        (extends_trans _ _ _ Ea (extends_trans _ _ _ Eb E1))). lia. }
    split; [|rewrite Eh; now exists [s]].
    unfold made_from. rewrite Eh, deref_new, deref_old, length_app by exact Hlt.
    cbn [length]. split; [lia|split; [lia|exact Hs]]. }
  destruct (mapM_Forall2 L _ (made_from drop) (combine labels kept)
              (made_from_extends drop) wb Step3 train w' Ht) as [Ft Ec].
  split; [reflexivity|].
  split; [eapply extends_trans; [exact Ea|eapply extends_trans; eassumption]|].
  exists labels. split; [exact Hlen|]. split.
  - clear -Fl. induction Fl; constructor; assumption.
  - split; [|exact Ft].
    eapply Forall2_impl; [|exact Fh].
    intros lt r _ _ Hm. exact (made_from_extends _ _ _ _ _ Hm Ec).
Qed.

(** The held-out compositions and the tables kept for training are the
    two sides of one cut through the shuffled list. Each table kept gives
    one table of held-out inputs with exactly [n_heldout_inputs] rows and
    one training table with the other rows, both under its name. *)
Theorem heldout_split_sizes p pool (w : World L) train hi hc w' :
  np_choice_spec L ->
  (forall r, In r pool ->
     (r < length (heap w))%nat /\ NoDup (index (deref (heap w) r))) ->
  heldout_split L p pool w = (Ok (train, hi, hc), w') ->
  let kept := slice_to (- n_heldout_compositions p) pool in
  (kept ++ hc)%list = pool /\
  Forall2 (fun t r =>
     name_in (heap w') r = name_in (heap w) t /\
     Z.of_nat (length (rows (deref (heap w') r))) = n_heldout_inputs p)
    kept hi /\
  Forall2 (fun t r =>
     name_in (heap w') r = name_in (heap w) t /\
     Z.of_nat (length (rows (deref (heap w') r)))
     = (Z.of_nat (length (rows (deref (heap w) t))) - n_heldout_inputs p)%Z)
    kept train.
Proof.
  intros Hnp Hpool H kept.
  destruct (heldout_split_labels _ _ _ _ _ _ _ Hnp Hpool H)
    as (Ehc & Ext & labels & Hlen & Hlab & Fh & Ft).
  fold kept in Hlen, Fh, Ft.
  split; [rewrite Ehc; apply slices_app|].
  assert (Hkept : forall t, In t kept ->
            (t < length (heap w))%nat /\ NoDup (index (deref (heap w) t))).
  { intros t Ht. apply Hpool. eapply in_slice_to, Ht. }
  split.
  - apply (Forall2_combine_r _ _ _ _ _ Hlen Hlab) in Fh.
    eapply Forall2_impl; [|exact Fh].
    intros t r Ht _ (ls & (Hnd & Hn) & (_ & _ & Hg)). cbn [fst snd] in Hg.
    destruct (Hkept t Ht) as [Hlt Hix].
    rewrite (extends_deref _ _ _ Ext Hlt) in Hg.
    destruct (getitem_nrows _ _ _ Hix Hg) as [En El].
    unfold name_in. rewrite En, El. now split.
  - apply (Forall2_combine_r _ _ _ _ _ Hlen Hlab) in Ft.
    eapply Forall2_impl; [|exact Ft].
    intros t r Ht _ (ls & (Hnd & Hn) & (_ & _ & Hd)). cbn [fst snd] in Hd.
    destruct (Hkept t Ht) as [Hlt Hix].
    rewrite (extends_deref _ _ _ Ext Hlt) in Hd.
    destruct (drop_nrows _ _ _ Hix Hnd Hd) as [En El].
    unfold name_in. rewrite En. split; [reflexivity|lia].
Qed.

End HeldOutSizes.

Lemma heldout_split_sizes_witness :
  exists train hi hc w',
    heldout_split Toy.lib Toy.params [0; 1]%nat
      (mkWorld Toy.lib [Toy.t1; Toy.t2; Toy.t3] 0%nat 0%nat)
      = (Ok (train, hi, hc), w') /\
    Forall2 (fun t r => Z.of_nat (length (rows (deref (heap w') r))) = 1%Z)
      [0]%nat hi.
Proof.
  destruct (heldout_split Toy.lib Toy.params [0; 1]%nat
              (mkWorld Toy.lib [Toy.t1; Toy.t2; Toy.t3] 0%nat 0%nat))
    as [[[[train hi] hc]|e] w'] eqn:E; [|vm_compute in E; discriminate E].
  exists train, hi, hc, w'. split; [reflexivity|].
  assert (Hpool : forall r, In r [0; 1]%nat ->
    (r < length (heap (mkWorld Toy.lib [Toy.t1; Toy.t2; Toy.t3] 0%nat 0%nat)))%nat
    /\ NoDup (index (deref (heap (mkWorld Toy.lib [Toy.t1; Toy.t2; Toy.t3]
                                    0%nat 0%nat)) r))).
  { intros r [<-|[<-|[]]]; (split; [simpl; lia|]);
      repeat constructor; simpl; intuition discriminate. }
  destruct (heldout_split_sizes Toy.lib Toy.params _ _ _ _ _ _
              toy_np_choice_spec Hpool E) as (_ & H & _).
  revert H. apply Forall2_impl. intros t r _ _ [_ H]. exact H.
Defined.

(** ** The longer compositions *)

Lemma filter_length_le {A} (f : A -> bool) l :
  (length (filter f l) <= length l)%nat.
Proof. induction l as [|x l IH]; simpl; [lia|]. destruct (f x); simpl; lia. Qed.

Lemma nth_error_snoc {A} (l : list A) x i y :
  nth_error (l ++ [x]) i = Some y ->
  (i < length l)%nat /\ nth_error l i = Some y \/ i = length l /\ y = x.
Proof.
  intros H. destruct (Nat.lt_ge_cases i (length l)) as [Hl|Hl].
  - left. split; [exact Hl|]. now rewrite nth_error_app1 in H.
  - right. rewrite nth_error_app2 in H by exact Hl.
    destruct (i - length l)%nat as [|k] eqn:E.
    + simpl in H. injection H as <-. split; [lia|reflexivity].
    + simpl in H. destruct k; discriminate.
Qed.

Lemma composed_depth_extends h h' k r :
  composed_depth h k r -> extends h h' -> composed_depth h' k r.
Proof.
  intros (names & C & Hl) E. exists names. split; [|exact Hl].
  exact (composed_of_extends _ _ _ _ C E).
Qed.

Lemma composed_depth_tokens h k r :
  composed_depth h k r -> length (split (name_in h r)) = k.
Proof. intros (names & (_ & Hs & _) & Hl). unfold name_in. now rewrite Hs. Qed.

Lemma levels_impl (P Q : nat -> nat -> Prop) k0 ll :
  (forall k r, P k r -> Q k r) -> levels P k0 ll -> levels Q k0 ll.
Proof. intros H HP i l Hi r Hr. eapply H, HP; eassumption. Qed.

Lemma levels_snoc (P : nat -> nat -> Prop) k0 ll x :
  levels P k0 ll ->
  (forall r, In r x -> P (k0 + length ll)%nat r) ->
  levels P k0 (ll ++ [x]).
Proof.
  intros H Hx i l Hi r Hr.
  apply nth_error_snoc in Hi as [[_ Hi]|[-> ->]].
  - eapply H; eassumption.
  - now apply Hx.
Qed.

Section LongerTables.
Variable L : Library.

(** One turn of the loop under [# longer]. *)
Lemma longer_loop_step n tb ml longer acc (w : World L) r w' :
  longer_loop L (S n) tb ml longer acc w = (Ok r, w') ->
  exists sampled wa next wb,
    (if (ml <? Z.of_nat (length longer))%Z
     then random_sample L longer ml else ret longer) w = (Ok sampled, wa) /\
    heap wa = heap w /\
    compose_pairs L (tb_unary tb) sampled wa = (Ok next, wb) /\
    let parts := _split_seen_unseen_new (name_in (heap w)) sampled
                   (tb_names_train tb) (tb_names_test tb) in
    longer_loop L n tb ml next
      (fst (fst acc) ++ [fst (fst parts)],
       snd (fst acc) ++ [snd (fst parts)],
       snd acc ++ [snd parts])%list wb = (Ok r, w').
Proof.
  intros H. cbn [longer_loop] in H.
  apply bind_inv in H as (sampled & wa & Hs & H).
  apply bind_inv in H as (parts & wa' & Hp & H).
  unfold split_refs in Hp. injection Hp as <- <-.
  apply bind_inv in H as (next & wb & Hn & H).
  assert (Hh : heap wa = heap w).
  { destruct (ml <? Z.of_nat (length longer))%Z.
    - unfold random_sample in Hs.
      destruct (py_sample L _ _ _) as [rs g]. now injection Hs as _ <-.
    - now injection Hs as _ <-. }
  exists sampled, wa, next, wb. split; [exact Hs|]. split; [exact Hh|].
  split; [exact Hn|]. cbv zeta. rewrite <- Hh. exact H.
Qed.

Lemma sampled_incl ml (longer : list ref) (w : World L) sampled wa :
  (if (ml <? Z.of_nat (length longer))%Z
   then random_sample L longer ml else ret longer) w = (Ok sampled, wa) ->
  forall r, In r sampled -> In r longer.
Proof.
  intros H r Hr. destruct (ml <? Z.of_nat (length longer))%Z.
  - unfold random_sample in H. destruct (py_sample L _ _ _) as [[ps|e] g];
      [|discriminate].
    injection H as <- _. eapply pick_In, Hr.
  - injection H as <- _. exact Hr.
Qed.

Lemma sampled_NoDup ml (longer : list ref) (w : World L) sampled wa :
  py_sample_spec L -> NoDup longer ->
  (if (ml <? Z.of_nat (length longer))%Z
   then random_sample L longer ml else ret longer) w = (Ok sampled, wa) ->
  NoDup sampled.
Proof.
  intros Hsp Hn H. destruct (ml <? Z.of_nat (length longer))%Z.
  - unfold random_sample in H.
    destruct (py_sample L _ _ _) as [[ps|e] g] eqn:E; [|discriminate].
    injection H as <- _. apply NoDup_pick; [exact Hn|].
    now destruct (Hsp _ _ _ _ _ E).
  - now injection H as <- _.
Qed.

(** A loop whose every turn makes one new object returns the new
    objects, in order. *)
Lemma mapM_fresh {A} (f : A -> M L ref) l :
  (forall x (w : World L) r w', In x l -> f x w = (Ok r, w') ->
     r = length (heap w) /\ length (heap w') = S (length (heap w))) ->
  forall (w : World L) rs w', mapM f l w = (Ok rs, w') ->
    rs = seq (length (heap w)) (length l) /\
    length (heap w') = (length (heap w) + length l)%nat.
Proof.
  induction l as [|x l IH]; intros Hf w rs w' H.
  - simpl in H. injection H as <- <-. simpl. split; [reflexivity|lia].
  - apply mapM_cons_inv in H as (y & ys & w1 & Hy & Hys & ->).
    destruct (Hf _ _ _ _ (or_introl eq_refl) Hy) as [-> Hl].
    destruct (IH (fun x w r w' Hx => Hf x w r w' (or_intror Hx)) _ _ _ Hys)
      as [-> Hl'].
    simpl. rewrite Hl. split; [reflexivity|lia].
Qed.

Lemma compose_pairs_fresh unary longer (w : World L) rs w' :
  compose_pairs L unary longer w = (Ok rs, w') ->
  rs = seq (length (heap w)) (length (list_prod unary longer)) /\
  (length (heap w) <= length (heap w'))%nat.
Proof.
  intros H. unfold compose_pairs in H.
  destruct (mapM_fresh
              (fun xy : ref * ref => compose_ref L true (fst xy) (snd xy))
              (list_prod unary longer)) with (2 := H) as [-> Hl].
  - intros xy w1 r w2 _ Hc. rewrite compose_ref_spec in Hc.
    destruct (compose_table_lookups _ _ true) as [c|e]; [|discriminate].
    injection Hc as <- <-. cbn [heap]. rewrite length_app. simpl.
    split; [reflexivity|lia].
  - split; [reflexivity|lia].
Qed.

Lemma longer_loop_lengths n : forall tb ml longer acc (w : World L) r w',
  longer_loop L n tb ml longer acc w = (Ok r, w') ->
  length (fst (fst r)) = (length (fst (fst acc)) + n)%nat /\
  length (snd (fst r)) = (length (snd (fst acc)) + n)%nat /\
  length (snd r) = (length (snd acc) + n)%nat.
Proof.
  induction n as [|n IH]; intros tb ml longer acc w r w' H.
  - simpl in H. injection H as <- _. lia.
  - apply longer_loop_step in H as (s & wa & nx & wb & _ & _ & _ & H).
    apply IH in H. cbn [fst snd] in H. rewrite !length_app in H.
    cbn [length] in H. lia.
Qed.

(** Each of the three results of the lines under [# longer] is a list of
    [add_composition_test] lists of tables (none for a negative count). *)
Theorem longer_tables_counts p tb (w : World L) ls li ln w' :
  longer_tables L p tb w = (Ok (ls, li, ln), w') ->
  length ls = Z.to_nat (add_composition_test p) /\
  length li = Z.to_nat (add_composition_test p) /\
  length ln = Z.to_nat (add_composition_test p).
Proof.
  intros H. unfold longer_tables in H.
  apply bind_inv in H as (longest & wa & _ & H).
  apply bind_inv in H as (longer & wb & _ & H).
  apply longer_loop_lengths in H. exact H.
Qed.

Lemma longer_loop_bounded n : forall tb ml longer acc (w : World L) r w',
  py_sample_spec L ->
  (forall l, In l (fst (fst acc) ++ snd (fst acc) ++ snd acc)%list ->
     (Z.of_nat (length l) <= ml)%Z) ->
  longer_loop L n tb ml longer acc w = (Ok r, w') ->
  forall l, In l (fst (fst r) ++ snd (fst r) ++ snd r)%list ->
    (Z.of_nat (length l) <= ml)%Z.
Proof.
  induction n as [|n IH]; intros tb ml longer acc w r w' Hsp Hacc H.
  - simpl in H. injection H as <- _. exact Hacc.
  - apply longer_loop_step in H as (s & wa & nx & wb & Hs & _ & _ & H).
    cbv zeta in H. eapply IH; [exact Hsp| |exact H].
    assert (Hlen : (Z.of_nat (length s) <= ml)%Z).
    { destruct (ml <? Z.of_nat (length longer))%Z eqn:E.
      - unfold random_sample in Hs.
        destruct (py_sample L _ _ _) as [[ps|e] g] eqn:Ep; [|discriminate].
        injection Hs as <- _.
        destruct (Hsp _ _ _ _ _ Ep) as (_ & Hlt & Hl).
        rewrite pick_length by exact Hlt. lia.
      - injection Hs as <- _. apply Z.ltb_ge in E. exact E. }
    unfold _split_seen_unseen_new. cbn [fst snd].
    intros l Hl. rewrite !in_app_iff in Hl. cbn [In] in Hl.
    destruct Hl as [[Hl|[<-|[]]]|[[Hl|[<-|[]]]|[Hl|[<-|[]]]]];
      try (apply Hacc; rewrite !in_app_iff; tauto);
      match goal with
      | |- context [length (filter ?f ?l)] =>
          pose proof (filter_length_le f l); lia
      end.
Qed.

(** [max_longer] bounds the number of tables, not of rows: none of the
    lists of longer tables has more than [max_longer] tables. *)
Theorem longer_tables_bounded p tb (w : World L) ls li ln w' :
  py_sample_spec L ->
  longer_tables L p tb w = (Ok (ls, li, ln), w') ->
  forall l, In l (ls ++ li ++ ln)%list ->
    (Z.of_nat (length l) <= max_longer p)%Z.
Proof.
  intros Hsp H. unfold longer_tables in H.
  apply bind_inv in H as (longest & wa & _ & H).
  apply bind_inv in H as (longer & wb & _ & H).
  refine (longer_loop_bounded _ _ _ _ _ _ _ _ Hsp _ H).
  intros l [].
Qed.

End LongerTables.

(** *** What grows with each turn of the loop *)

Section Levels.
Variable L : Library.

(** [U] holds of the unary tables and [P k] of the tables to compose them
    with; one composition with a unary table on the left takes [P k] to
    [P (S k)]. *)
Variable U : list Series -> nat -> Prop.
Variable P : list Series -> nat -> nat -> Prop.
Hypothesis U_extends : forall h h' x, U h x -> extends h h' -> U h' x.
Hypothesis P_extends : forall h h' k r, P h k r -> extends h h' -> P h' k r.
Hypothesis P_step : forall x y k (w : World L) r w',
  U (heap w) x -> P (heap w) k y ->
  compose_ref L true x y w = (Ok r, w') ->
  P (heap w') (S k) r /\ extends (heap w) (heap w').

Lemma compose_pairs_level unary longer k (w : World L) rs w' :
  (forall x, In x unary -> U (heap w) x) ->
  (forall y, In y longer -> P (heap w) k y) ->
  compose_pairs L unary longer w = (Ok rs, w') ->
  (forall r, In r rs -> P (heap w') (S k) r) /\
  extends (heap w) (heap w').
Proof.
  intros Hu Hl H. unfold compose_pairs in H.
  assert (Step : forall (xy : ref * ref) (w1 : World L) r w2,
            In xy (list_prod unary longer) ->
            extends (heap w) (heap w1) ->
            compose_ref L true (fst xy) (snd xy) w1 = (Ok r, w2) ->
            P (heap w2) (S k) r /\ extends (heap w1) (heap w2)).
  { intros [x y] w1 r w2 Hin E1 Hc. cbn [fst snd] in Hc.
    apply in_prod_iff in Hin as [Hx Hy].
    exact (P_step _ _ _ _ _ _ (U_extends _ _ _ (Hu x Hx) E1)
             (P_extends _ _ _ _ (Hl y Hy) E1) Hc). }
  destruct (mapM_Forall2 L
              (fun xy : ref * ref => compose_ref L true (fst xy) (snd xy))
              (fun (xy : ref * ref) r h => P h (S k) r)
              (list_prod unary longer)
              (fun _ _ _ _ C E => P_extends _ _ _ _ C E)
              w Step rs w' H) as [F E].
  split; [|exact E]. intros r Hr.
  destruct (Forall2_In_r _ _ _ _ F Hr) as (xy & _ & C). exact C.
Qed.

Lemma longer_loop_levels n :
  forall tb ml k0 longer (a1 a2 a3 : list (list ref)) (w : World L) r w',
  (forall x, In x (tb_unary tb) -> U (heap w) x) ->
  length a2 = length a1 -> length a3 = length a1 ->
  (forall y, In y longer -> P (heap w) (k0 + length a1) y) ->
  levels (P (heap w)) k0 a1 -> levels (P (heap w)) k0 a2 ->
  levels (P (heap w)) k0 a3 ->
  longer_loop L n tb ml longer (a1, a2, a3) w = (Ok r, w') ->
  levels (P (heap w')) k0 (fst (fst r)) /\
  levels (P (heap w')) k0 (snd (fst r)) /\
  levels (P (heap w')) k0 (snd r).
Proof.
  induction n as [|n IH];
    intros tb ml k0 longer a1 a2 a3 w r w' Hu L2 L3 Hl A1 A2 A3 H.
  - simpl in H. injection H as <- <-. auto.
  - apply longer_loop_step in H as (s & wa & nx & wb & Hs & Hh & Hn & H).
    cbv zeta in H.
    assert (Hsd : forall y, In y s -> P (heap w) (k0 + length a1) y).
    { intros y Hy. apply Hl. eapply sampled_incl; eassumption. }
    rewrite <- Hh in Hu, Hsd.
    destruct (compose_pairs_level _ _ _ _ _ _ Hu Hsd Hn) as [Hnx E].
    rewrite Hh in E, Hsd.
    unfold _split_seen_unseen_new in H. cbn [fst snd] in H.
    assert (Hup : forall k t, P (heap w) k t -> P (heap wb) k t)
      by (intros k t C; exact (P_extends _ _ _ _ C E)).
    eapply IH; [| | | | | | |exact H].
    + intros x Hx. eapply U_extends; [|exact E].
      rewrite <- Hh. now apply Hu.
    + rewrite !length_app. cbn [length]. f_equal. exact L2.
    + rewrite !length_app. cbn [length]. f_equal. exact L3.
    + intros y Hy. rewrite length_app. cbn [length].
      rewrite Nat.add_1_r, Nat.add_succ_r. now apply Hnx.
    + apply (levels_impl _ _ _ _ Hup). apply levels_snoc; [exact A1|].
      intros y Hy. apply filter_In in Hy as [Hy _]. now apply Hsd.
    + apply (levels_impl _ _ _ _ Hup). apply levels_snoc; [exact A2|].
      intros y Hy. apply filter_In in Hy as [Hy _].
      exact (eq_ind _ (fun k => P (heap w) (k0 + k) y)
               (Hsd y Hy) _ (eq_sym L2)).
    + apply (levels_impl _ _ _ _ Hup). apply levels_snoc; [exact A3|].
      intros y Hy. apply filter_In in Hy as [Hy _].
      exact (eq_ind _ (fun k => P (heap w) (k0 + k) y)
               (Hsd y Hy) _ (eq_sym L3)).
Qed.

(** From the longest compositions of the training depth on. *)
Lemma longer_tables_levels p tb (w : World L) ls li ln w' m :
  (forall x, In x (tb_unary tb) -> U (heap w) x) ->
  (forall y, In y (tb_multiary tb) ->
     Z.of_nat (length (split (name_in (heap w) y))) = max_composition_train p ->
     P (heap w) m y) ->
  longer_tables L p tb w = (Ok (ls, li, ln), w') ->
  levels (P (heap w')) (S m) ls /\
  levels (P (heap w')) (S m) li /\
  levels (P (heap w')) (S m) ln.
Proof.
  intros Hunary Hmul H. unfold longer_tables in H.
  apply bind_inv in H as (longest & wa & Hlg & H).
  injection Hlg as <- <-.
  apply bind_inv in H as (longer & wb & Hc & H).
  assert (Hlongest : forall y,
    In y (filter (fun t => (Z.of_nat (length (split (name (deref (heap w) t))))
                            =? max_composition_train p)%Z) (tb_multiary tb)) ->
    P (heap w) m y).
  { intros y Hy. apply filter_In in Hy as [Hy Et]. apply Z.eqb_eq in Et.
    now apply Hmul. }
  destruct (compose_pairs_level _ _ _ _ _ _ Hunary Hlongest Hc) as [Hlonger E].
  assert (Hlv : levels (P (heap wb)) (S m) []).
  { intros i l Hi. destruct i; discriminate. }
  exact (longer_loop_levels _ _ _ (S m) _ [] [] [] _ _ _
           (fun x Hx => U_extends _ _ _ (Hunary x Hx) E)
           eq_refl eq_refl
           (fun y Hy => eq_ind _ (fun k => P (heap wb) k y)
                          (Hlonger y Hy) _ (eq_sym (Nat.add_0_r (S m))))
           Hlv Hlv Hlv H).
Qed.

(** *** No table is in two lists of longer compositions *)

Lemma longer_loop_distinct n :
  forall tb ml k longer (a1 a2 a3 : list (list ref)) (w : World L) r w',
  py_sample_spec L ->
  (forall h k r, P h k r ->
     (r < length h)%nat /\
     composed_over (name_in h) (tb_names_train tb ++ tb_names_test tb) r) ->
  (forall x, In x (tb_unary tb) -> U (heap w) x) ->
  (forall y, In y longer -> P (heap w) k y) ->
  NoDup longer ->
  NoDup (concat a1 ++ concat a2 ++ concat a3) ->
  (forall z, In z (concat a1 ++ concat a2 ++ concat a3) ->
     (z < length (heap w))%nat /\ ~ In z longer) ->
  longer_loop L n tb ml longer (a1, a2, a3) w = (Ok r, w') ->
  NoDup (concat (fst (fst r)) ++ concat (snd (fst r)) ++ concat (snd r)).
Proof.
  induction n as [|n IH];
    intros tb ml k longer a1 a2 a3 w r w' Hsp Hcl Hu Hl Nl Na Hacc H.
  - simpl in H. injection H as <- _. exact Na.
  - apply longer_loop_step in H as (s & wa & nx & wb & Hs & Hh & Hn & H).
    cbv zeta in H. cbn [fst snd] in H.
    pose proof (sampled_incl _ _ _ _ _ _ Hs) as Hinc.
    pose proof (sampled_NoDup _ _ _ _ _ _ Hsp Nl Hs) as Ns.
    assert (Hsd : forall y, In y s -> P (heap w) k y)
      by (intros y Hy; now apply Hl, Hinc).
    rewrite <- Hh in Hu, Hsd.
    destruct (compose_pairs_level _ _ _ _ _ _ Hu Hsd Hn) as [Hnx E].
    destruct (compose_pairs_fresh _ _ _ _ _ _ Hn) as [Enx Hlen].
    rewrite Hh in E, Hsd, Enx, Hlen.
    unfold _split_seen_unseen_new in H. cbn [fst snd] in H.
    set (nf := name_in (heap w)) in *.
    set (s1 := filter (is_seen nf (tb_names_test tb)) s) in *.
    set (s2 := filter (is_unseen nf (tb_names_train tb) (tb_names_test tb)) s)
      in *.
    set (s3 := filter (is_new nf (tb_names_train tb)) s) in *.
    assert (Hcover : forall x,
              In x (tb_names_train tb ++ tb_names_test tb)%list <->
              In x (tb_names_train tb) \/ In x (tb_names_test tb))
      by (intros x; apply in_app_iff).
    assert (Ps : Permutation (s1 ++ s2 ++ s3)%list s).
    { apply filter3_permutation. intros y Hy.
      apply (one_class nf _ (tb_names_train tb) (tb_names_test tb) Hcover).
      exact (proj2 (Hcl _ _ _ (Hsd y Hy))). }
    assert (Pa : Permutation
              (concat (a1 ++ [s1]) ++ concat (a2 ++ [s2])
               ++ concat (a3 ++ [s3]))%list
              ((concat a1 ++ concat a2 ++ concat a3) ++ (s1 ++ s2 ++ s3))%list).
    { rewrite !concat_app. cbn [concat]. rewrite !app_nil_r.
      rewrite <- !app_assoc. apply Permutation_app_head.
      etransitivity; [apply Permutation_app_swap_app|].
      apply Permutation_app_head.
      etransitivity;
        [apply Permutation_app_head, Permutation_app_swap_app|].
      apply Permutation_app_swap_app. }
    assert (Hold : forall z,
              In z (concat (a1 ++ [s1]) ++ concat (a2 ++ [s2])
                    ++ concat (a3 ++ [s3]))%list ->
              (z < length (heap w))%nat).
    { intros z Hz. apply (Permutation_in _ Pa) in Hz.
      apply in_app_or in Hz as [Hz|Hz]; [now apply Hacc|].
      apply (Permutation_in _ Ps) in Hz.
      exact (proj1 (Hcl _ _ _ (Hsd z Hz))). }
    refine (IH tb ml (S k) nx _ _ _ wb r w' Hsp Hcl _ _ _ _ _ H).
    + intros x Hx. eapply U_extends; [|exact E].
      rewrite <- Hh. now apply Hu.
    + exact Hnx.
    + rewrite Enx. apply seq_NoDup.
    + eapply Permutation_NoDup; [apply Permutation_sym, Pa|].
      apply NoDup_app; [exact Na| |].
      * eapply Permutation_NoDup; [apply Permutation_sym, Ps|exact Ns].
      * intros z Hz Hz'. apply (Permutation_in _ Ps) in Hz'.
        apply (proj2 (Hacc z Hz)). now apply Hinc.
    + intros z Hz. pose proof (Hold z Hz) as Hlt.
      split; [lia|]. rewrite Enx. intros Hin. apply in_seq in Hin. lia.
Qed.

Lemma longer_tables_distinct p tb (w : World L) ls li ln w' m :
  py_sample_spec L ->
  (forall h k r, P h k r ->
     (r < length h)%nat /\
     composed_over (name_in h) (tb_names_train tb ++ tb_names_test tb) r) ->
  (forall x, In x (tb_unary tb) -> U (heap w) x) ->
  (forall y, In y (tb_multiary tb) ->
     Z.of_nat (length (split (name_in (heap w) y))) = max_composition_train p ->
     P (heap w) m y) ->
  longer_tables L p tb w = (Ok (ls, li, ln), w') ->
  NoDup (concat ls ++ concat li ++ concat ln).
Proof.
  intros Hsp Hcl Hunary Hmul H. unfold longer_tables in H.
  apply bind_inv in H as (longest & wa & Hlg & H).
  injection Hlg as <- <-.
  apply bind_inv in H as (longer & wb & Hc & H).
  assert (Hlongest : forall y,
    In y (filter (fun t => (Z.of_nat (length (split (name (deref (heap w) t))))
                            =? max_composition_train p)%Z) (tb_multiary tb)) ->
    P (heap w) m y).
  { intros y Hy. apply filter_In in Hy as [Hy Et]. apply Z.eqb_eq in Et.
    now apply Hmul. }
  destruct (compose_pairs_level _ _ _ _ _ _ Hunary Hlongest Hc) as [Hlonger E].
  destruct (compose_pairs_fresh _ _ _ _ _ _ Hc) as [Enx _].
  apply (longer_loop_distinct _ _ _ (S m) _ [] [] [] _ _ _ Hsp Hcl
           (fun x Hx => U_extends _ _ _ (Hunary x Hx) E) Hlonger) in H.
  - exact H.
  - rewrite Enx. apply seq_NoDup.
  - constructor.
  - intros z [].
Qed.

End Levels.

(** *** The number of tables in a longer composition *)

Section LongerDepth.
Variable L : Library.

Lemma compose_ref_depth x y k (w : World L) r w' :
  composed_depth (heap w) 1 x -> composed_depth (heap w) k y ->
  compose_ref L true x y w = (Ok r, w') ->
  composed_depth (heap w') (S k) r /\ extends (heap w) (heap w').
Proof.
  intros (nx & Cx & Lx) (ny & Cy & Ly) Hc.
  destruct (compose_ref_composed L _ _ _ _ _ _ _ _ Cx Cy Hc) as [C E2].
  split; [|exact E2]. exists (nx ++ ny)%list. split; [exact C|].
  rewrite length_app. lia.
Qed.

(** Over distinct inputs and names that the composer hands on unchanged,
    the tables of the [i]-th list of longer compositions (counting from 0)
    are compositions of [max_composition_train + 1 + i] tables: so many
    tokens has each of their names. *)
Theorem longer_tables_depth p (w : World L) tb w1 ls li ln w2 :
  np_choice_spec L ->
  NoDup (domain_inputs (alphabet p) (n_repeats p)) ->
  Forall good_name (unary_names p) ->
  make_tables L p w = (Ok tb, w1) ->
  longer_tables L p tb w1 = (Ok (ls, li, ln), w2) ->
  forall i l,
    nth_error ls i = Some l \/ nth_error li i = Some l \/
    nth_error ln i = Some l ->
    forall r, In r l ->
      Z.of_nat (length (split (name_in (heap w2) r)))
      = (max_composition_train p + 1 + Z.of_nat i)%Z.
Proof.
  intros Hnp Hin Hgood Hm H.
  assert (Hmc : (2 <= max_composition_train p)%Z).
  { destruct (Z.lt_ge_cases (max_composition_train p) 2) as [Hlt|Hge];
      [|exact Hge].
    destruct (make_tables_shallow L p w Hlt) as [[e He] _].
    rewrite Hm in He. discriminate. }
  destruct (make_tables_composed L _ _ _ _ Hnp Hin Hgood Hm)
    as (h0 & _ & Fm & _).
  destruct (make_tables_unary L _ _ _ _ Hm) as (wu & Hu & Eu).
  destruct (unary_tables_composed L _ _ _ _ Hnp Hin Hgood Hu) as [_ Hun].
  set (m := Z.to_nat (max_composition_train p)).
  destruct (longer_tables_levels L
              (fun h x => composed_depth h 1 x) composed_depth
              (fun h h' x C E => composed_depth_extends h h' 1 x C E)
              composed_depth_extends
              compose_ref_depth p tb w1 ls li ln w2 m) as (R1 & R2 & R3).
  - intros x Hx. exists [name_in (heap wu) x]. split; [|reflexivity].
    eapply composed_of_extends; [now apply Hun|exact Eu].
  - intros y Hy Et.
    destruct (Forall2_In_r _ _ _ _ Fm Hy) as (fs & _ & C).
    exists (map (name_in h0) fs). split; [exact C|].
    destruct C as (_ & Hs & _). unfold name_in in Et. rewrite <- Hs.
    unfold m. lia.
  - exact H.
  - intros i l Hi r Hr.
    assert (C : composed_depth (heap w2) (S m + i) r).
    { destruct Hi as [Hi|[Hi|Hi]];
        [eapply R1|eapply R2|eapply R3]; eassumption. }
    rewrite (composed_depth_tokens _ _ _ C). unfold m. lia.
Qed.

End LongerDepth.


Lemma toy_py_sample_spec : py_sample_spec Toy.lib.
Proof.
  intros n k g l g' H. simpl in H. injection H as H _.
  now apply toy_take_positions in H.
Qed.

Lemma longer_tables_counts_witness :
  exists tb w1 ls li ln w2,
    make_tables Toy.lib Toy.params Toy.world0 = (Ok tb, w1) /\
    longer_tables Toy.lib Toy.params tb w1 = (Ok (ls, li, ln), w2) /\
    length ls = 1%nat.
Proof.
  destruct (make_tables Toy.lib Toy.params Toy.world0) as [[tb|e] w1] eqn:E1;
    [|vm_compute in E1; discriminate E1].
  exists tb, w1.
  destruct (longer_tables Toy.lib Toy.params tb w1)
    as [[[[ls li] ln]|e] w2] eqn:E2.
  - exists ls, li, ln, w2. split; [reflexivity|]. split; [reflexivity|].
    exact (proj1 (longer_tables_counts _ _ _ _ _ _ _ _ E2)).
  - vm_compute in E1. injection E1 as <- <-.
    vm_compute in E2. discriminate E2.
Defined.

Lemma longer_tables_bounded_witness :
  exists tb w1 ls li ln w2,
    make_tables Toy.lib Toy.params Toy.world0 = (Ok tb, w1) /\
    longer_tables Toy.lib Toy.params tb w1 = (Ok (ls, li, ln), w2) /\
    forall l, In l (ls ++ li ++ ln)%list -> (Z.of_nat (length l) <= 10000)%Z.
Proof.
  destruct (make_tables Toy.lib Toy.params Toy.world0) as [[tb|e] w1] eqn:E1;
    [|vm_compute in E1; discriminate E1].
  exists tb, w1.
  destruct (longer_tables Toy.lib Toy.params tb w1)
    as [[[[ls li] ln]|e] w2] eqn:E2.
  - exists ls, li, ln, w2. split; [reflexivity|]. split; [reflexivity|].
    exact (longer_tables_bounded _ _ _ _ _ _ _ _ toy_py_sample_spec E2).
  - vm_compute in E1. injection E1 as <- <-.
    vm_compute in E2. discriminate E2.
Defined.

Lemma toy_domain_NoDup :
  NoDup (domain_inputs (alphabet Toy.params) (n_repeats Toy.params)).
Proof.
  apply letters_domain_NoDup.
  - repeat constructor; simpl; intuition discriminate.
  - repeat constructor.
Qed.

Lemma longer_tables_depth_witness :
  exists tb w1 ls li ln w2,
    make_tables Toy.lib Toy.params Toy.world0 = (Ok tb, w1) /\
    longer_tables Toy.lib Toy.params tb w1 = (Ok (ls, li, ln), w2) /\
    forall l, nth_error ls 0 = Some l ->
      forall r, In r l ->
        Z.of_nat (length (split (name_in (heap w2) r))) = 3%Z.
Proof.
  destruct (make_tables Toy.lib Toy.params Toy.world0) as [[tb|e] w1] eqn:E1;
    [|vm_compute in E1; discriminate E1].
  exists tb, w1.
  destruct (longer_tables Toy.lib Toy.params tb w1)
    as [[[[ls li] ln]|e] w2] eqn:E2.
  - exists ls, li, ln, w2. split; [reflexivity|]. split; [reflexivity|].
    intros l Hl.
    exact (longer_tables_depth Toy.lib Toy.params Toy.world0 tb w1 ls li ln w2
             toy_np_choice_spec toy_domain_NoDup
             (proj1 (default_namer_names Toy.params eq_refl))
             E1 E2 0%nat l (or_introl Hl)).
  - vm_compute in E1. injection E1 as <- <-.
    vm_compute in E2. discriminate E2.
Defined.

(** ** Every table of a run is over the whole domain *)

Lemma token_last_token v : token v -> last_token v = Some v.
Proof. unfold token, last_token. now intros ->. Qed.

Lemma last_token_not_nil v k : last_token v = Some k -> split v <> [].
Proof.
  unfold last_token. destruct (split v); intros H; [discriminate H|].
  discriminate.
Qed.

(** Composition keeps tables over a domain of distinct inputs. *)
Lemma compose_over_domain D table1 table2 b c :
  NoDup D -> over_domain D table1 -> over_domain D table2 ->
  compose_table_lookups table1 table2 b = Ok c -> over_domain D c.
Proof.
  intros HD [P1 V1] [P2 V2] Hc. split.
  - rewrite <- P2. apply (compose_index_total _ _ _ _ Hc).
    + eapply Permutation_NoDup; [apply Permutation_sym, P1|exact HD].
    + eapply Forall_impl; [|exact V2]. intros v (k & Hk & Hin).
      exists k. split; [exact Hk|].
      eapply Permutation_in; [apply Permutation_sym, P1|exact Hin].
  - apply Forall_forall. intros v Hv. unfold data in Hv.
    rewrite (compose_rows _ _ _ _ Hc), map_map in Hv.
    apply in_map_iff in Hv as (m & <- & Hm).
    apply in_merge in Hm as (l & r & Hl & _ & ->). cbn [fst snd].
    rewrite Forall_forall in V1.
    destruct (V1 (snd l)) as (k & Hk & Hin); [now apply in_map|].
    exists k. split; [|exact Hin].
    destruct b; [|exact Hk].
    rewrite <- Hk. apply (last_token_spaced (snd r) (snd l)).
    eapply last_token_not_nil, Hk.
Qed.

Lemma stored_extends Q h h' r : stored Q h r -> extends h h' -> stored Q h' r.
Proof.
  intros [Hr HQ] E. split; [pose proof (extends_length _ _ E); lia|].
  now rewrite (extends_deref _ _ _ E Hr).
Qed.

Section Closure.
Variable L : Library.
Variable Q : Series -> Prop.
Hypothesis compose_closed : forall t1 t2 b c,
  Q t1 -> Q t2 -> compose_table_lookups t1 t2 b = Ok c -> Q c.

Lemma compose_ref_closed b x y (w : World L) r w' :
  stored Q (heap w) x -> stored Q (heap w) y ->
  compose_ref L b x y w = (Ok r, w') ->
  stored Q (heap w') r /\ extends (heap w) (heap w').
Proof.
  intros [Hx Qx] [Hy Qy] H. rewrite compose_ref_spec in H.
  destruct (compose_table_lookups _ _ b) as [c|e] eqn:Ec; [|discriminate].
  injection H as <- <-. cbn [heap]. split; [|now exists [c]].
  split; [rewrite length_app; simpl; lia|].
  rewrite deref_new. exact (compose_closed _ _ _ _ Qx Qy Ec).
Qed.

Lemma foldM_compose_closed b xs : forall x (w : World L) r w',
  stored Q (heap w) x ->
  (forall y, In y xs -> stored Q (heap w) y) ->
  foldM (compose_ref L b) x xs w = (Ok r, w') ->
  stored Q (heap w') r /\ extends (heap w) (heap w').
Proof.
  induction xs as [|y xs IH]; intros x w r w' Hx Hys H.
  - simpl in H. injection H as <- <-. split; [exact Hx|apply extends_refl].
  - cbn [foldM] in H. apply bind_inv in H as (a & w1 & Ha & H).
    destruct (compose_ref_closed _ _ _ _ _ _ Hx (Hys y (or_introl eq_refl)) Ha)
      as [Ca E1].
    destruct (IH a w1 r w' Ca) as [Cr E2]; [|exact H|].
    + intros z Hz. eapply stored_extends; [apply Hys; now right|exact E1].
    + split; [exact Cr|eapply extends_trans; eassumption].
Qed.

Lemma reduce_compose_closed b fs (w : World L) r w' :
  (forall y, In y fs -> stored Q (heap w) y) ->
  reduce (compose_ref L b) fs w = (Ok r, w') ->
  stored Q (heap w') r /\ extends (heap w) (heap w').
Proof.
  intros Hys H. destruct fs as [|x xs]; [discriminate|].
  cbn [reduce] in H.
  apply (foldM_compose_closed b xs x w r w'); auto using in_eq, in_cons.
Qed.

(** The compositions of every depth. *)
Lemma compositions_closed b unary depths (w : World L) per_depth w' :
  (forall x, In x unary -> stored Q (heap w) x) ->
  mapM (fun repeat =>
          mapM (reduce (compose_ref L b)) (product unary (Z.to_nat repeat)))
       depths w = (Ok per_depth, w') ->
  (forall r, In r (concat per_depth) -> stored Q (heap w') r) /\
  extends (heap w) (heap w').
Proof.
  intros Hu H.
  assert (Step : forall (repeat : Z) (w1 : World L) rs w2,
            In repeat depths -> extends (heap w) (heap w1) ->
            mapM (reduce (compose_ref L b))
                 (product unary (Z.to_nat repeat)) w1 = (Ok rs, w2) ->
            Forall (stored Q (heap w2)) rs /\ extends (heap w1) (heap w2)).
  { intros repeat w1 rs w2 _ E1 Hrs.
    assert (Step2 : forall (fs : list ref) (wc : World L) r wd,
              In fs (product unary (Z.to_nat repeat)) ->
              extends (heap w1) (heap wc) ->
              reduce (compose_ref L b) fs wc = (Ok r, wd) ->
              stored Q (heap wd) r /\ extends (heap wc) (heap wd)).
    { intros fs wc r wd Hfs Ec Hr.
      apply (reduce_compose_closed b fs wc r wd); [|exact Hr].
      intros y Hy. eapply stored_extends;
        [apply Hu; eapply product_elem_In; eassumption|].
      eapply extends_trans; eassumption. }
    destruct (mapM_Forall2 L (reduce (compose_ref L b))
                (fun (_ : list ref) r h => stored Q h r)
                (product unary (Z.to_nat repeat))
                (fun _ _ _ _ C E => stored_extends _ _ _ _ C E)
                w1 Step2 rs w2 Hrs) as [F E].
    split; [|exact E]. clear -F.
    induction F; constructor; assumption. }
  destruct (mapM_Forall2 L
              (fun repeat =>
                 mapM (reduce (compose_ref L b))
                      (product unary (Z.to_nat repeat)))
              (fun (_ : Z) rs h => Forall (stored Q h) rs)
              depths
              (fun _ _ _ _ F E =>
                 Forall_impl _ (fun r C => stored_extends _ _ _ _ C E) F)
              w Step per_depth w' H) as [F E].
  split; [|exact E]. intros r Hr.
  apply in_concat in Hr as (rs & Hrs & Hr).
  destruct (Forall2_In_r _ _ _ _ F Hrs) as (_ & _ & Frs).
  rewrite Forall_forall in Frs. now apply Frs.
Qed.

Lemma compose_pairs_closed unary longer (w : World L) rs w' :
  (forall x, In x unary -> stored Q (heap w) x) ->
  (forall y, In y longer -> stored Q (heap w) y) ->
  compose_pairs L unary longer w = (Ok rs, w') ->
  (forall r, In r rs -> stored Q (heap w') r) /\ extends (heap w) (heap w').
Proof.
  intros Hu Hl H. unfold compose_pairs in H.
  assert (Step : forall (xy : ref * ref) (w1 : World L) r w2,
            In xy (list_prod unary longer) ->
            extends (heap w) (heap w1) ->
            compose_ref L true (fst xy) (snd xy) w1 = (Ok r, w2) ->
            stored Q (heap w2) r /\ extends (heap w1) (heap w2)).
  { intros [x y] w1 r w2 Hin E1 Hc. cbn [fst snd] in Hc.
    apply in_prod_iff in Hin as [Hx Hy].
    eapply compose_ref_closed; [| |exact Hc];
      (eapply stored_extends; [|exact E1]); auto. }
  destruct (mapM_Forall2 L
              (fun xy : ref * ref => compose_ref L true (fst xy) (snd xy))
              (fun (xy : ref * ref) r h => stored Q h r)
              (list_prod unary longer)
              (fun _ _ _ _ C E => stored_extends _ _ _ _ C E)
              w Step rs w' H) as [F E].
  split; [|exact E]. intros r Hr.
  destruct (Forall2_In_r _ _ _ _ F Hr) as (xy & _ & C). exact C.
Qed.

Lemma longer_loop_closed n :
  forall tb ml longer (a1 a2 a3 : list (list ref)) (w : World L) r w',
  (forall x, In x (tb_unary tb) -> stored Q (heap w) x) ->
  (forall y, In y longer -> stored Q (heap w) y) ->
  (forall l, In l (a1 ++ a2 ++ a3)%list -> Forall (stored Q (heap w)) l) ->
  longer_loop L n tb ml longer (a1, a2, a3) w = (Ok r, w') ->
  forall l, In l (fst (fst r) ++ snd (fst r) ++ snd r)%list ->
    Forall (stored Q (heap w')) l.
Proof.
  induction n as [|n IH];
    intros tb ml longer a1 a2 a3 w r w' Hu Hl Ha H.
  - simpl in H. injection H as <- <-. exact Ha.
  - apply longer_loop_step in H as (s & wa & nx & wb & Hs & Hh & Hn & H).
    cbv zeta in H.
    assert (Hsd : forall y, In y s -> stored Q (heap w) y).
    { intros y Hy. apply Hl. eapply sampled_incl; eassumption. }
    rewrite <- Hh in Hu, Hsd.
    destruct (compose_pairs_closed _ _ _ _ _ Hu Hsd Hn) as [Hnx E].
    rewrite Hh in E, Hsd.
    unfold _split_seen_unseen_new in H. cbn [fst snd] in H.
    eapply IH; [| | |exact H].
    + intros x Hx. eapply stored_extends; [|exact E].
      rewrite <- Hh. now apply Hu.
    + exact Hnx.
    + intros l Hin. rewrite !in_app_iff in Hin. cbn [In] in Hin.
      assert (Hf : forall f, Forall (stored Q (heap wb)) (filter f s)).
      { intros f. apply Forall_forall. intros y Hy.
        apply filter_In in Hy as [Hy _].
        eapply stored_extends; [now apply Hsd|exact E]. }
      destruct Hin as [[Hin|[<-|[]]]|[[Hin|[<-|[]]]|[Hin|[<-|[]]]]];
        try apply Hf;
        (eapply Forall_impl;
         [intros y C; exact (stored_extends _ _ _ _ C E)|];
         apply Ha; rewrite !in_app_iff; tauto).
Qed.

End Closure.

Section CoverDomain.
Variable L : Library.

Lemma unary_tables_over_domain p (w : World L) unary wu :
  np_choice_spec L ->
  Forall token (domain_inputs (alphabet p) (n_repeats p)) ->
  unary_tables L p w = (Ok unary, wu) ->
  forall r, In r unary ->
    stored (over_domain (domain_inputs (alphabet p) (n_repeats p)))
           (heap wu) r.
Proof.
  intros Hnp Htok H r Hr. unfold unary_tables in H.
  apply bind_inv in H as ([] & w1 & H1 & H). injection H1 as <-.
  apply bind_inv in H as ([] & w2 & H2 & H). injection H2 as <-.
  destruct (create_N_tables L _ _ _ _ _ _ _ _ Hnp H)
    as [outputs [_ [_ [Hin [_ [_ [Hvalid Hmap]]]]]]].
  rewrite Forall_forall in Hvalid. split; [now apply Hvalid|].
  apply (in_map (deref (heap wu))) in Hr. rewrite Hmap in Hr.
  apply in_map_iff in Hr as [io [<- Hio]].
  apply in_enumerate, Hin in Hio.
  pose proof (permutations_permutation _ _ Hio) as Hp.
  split.
  - now rewrite unary_table_index.
  - rewrite data_unary_table by exact Hio.
    apply Forall_forall. intros v Hv. exists v.
    assert (Hvi : In v (domain_inputs (alphabet p) (n_repeats p)))
      by (eapply Permutation_in; eassumption).
    split; [|exact Hvi].
    rewrite Forall_forall in Htok. now apply token_last_token, Htok.
Qed.

(** Over distinct inputs that are tokens, every table of a run, unary or
    composed to any depth, longer ones included, has exactly the inputs
    of the domain as its labels: one row for each input. *)
Theorem composed_tables_cover_domain p (w : World L) tb w1 ls li ln w2 :
  np_choice_spec L ->
  NoDup (domain_inputs (alphabet p) (n_repeats p)) ->
  Forall token (domain_inputs (alphabet p) (n_repeats p)) ->
  make_tables L p w = (Ok tb, w1) ->
  longer_tables L p tb w1 = (Ok (ls, li, ln), w2) ->
  forall r,
    In r (tb_unary tb ++ tb_multiary tb ++ concat (ls ++ li ++ ln))%list ->
    Permutation (index (deref (heap w2) r))
                (domain_inputs (alphabet p) (n_repeats p)) /\
    length (rows (deref (heap w2) r))
    = length (domain_inputs (alphabet p) (n_repeats p)).
Proof.
  intros Hnp HD Htok Hm Hlg.
  set (D := domain_inputs (alphabet p) (n_repeats p)) in *.
  assert (Hcl : forall t1 t2 b c, over_domain D t1 -> over_domain D t2 ->
            compose_table_lookups t1 t2 b = Ok c -> over_domain D c)
    by (intros t1 t2 b c; now apply compose_over_domain).
  destruct (make_tables_inv L _ _ _ _ Hm)
    as (wu & pd & Hu & _ & _ & Hpd & Hfl & _).
  pose proof (unary_tables_over_domain _ _ _ _ Hnp Htok Hu) as Hun.
  fold D in Hun.
  destruct (compositions_closed L _ Hcl _ _ _ _ _ _ Hun Hpd) as [Hmul E1].
  assert (Em : tb_multiary tb = concat pd).
  { destruct pd as [|l pd']; [discriminate|].
    rewrite flatten_ok in Hfl by discriminate. now injection Hfl. }
  assert (Hun1 : forall x, In x (tb_unary tb) -> stored (over_domain D) (heap w1) x)
    by (intros x Hx; eapply stored_extends; [now apply Hun|exact E1]).
  assert (E2 : extends (heap w1) (heap w2))
    by (eapply alloc_only_run; [apply alloc_only_longer_tables|exact Hlg]).
  assert (Hlong : forall l, In l (ls ++ li ++ ln)%list ->
            Forall (stored (over_domain D) (heap w2)) l).
  { unfold longer_tables in Hlg.
    apply bind_inv in Hlg as (longest & wa & Hl0 & Hlg).
    injection Hl0 as <- <-.
    apply bind_inv in Hlg as (longer & wb & Hc & Hlg).
    assert (Hlongest : forall y,
      In y (filter (fun t =>
              (Z.of_nat (length (split (name (deref (heap w1) t))))
               =? max_composition_train p)%Z) (tb_multiary tb)) ->
      stored (over_domain D) (heap w1) y).
    { intros y Hy. apply filter_In in Hy as [Hy _]. apply Hmul.
      now rewrite <- Em. }
    destruct (compose_pairs_closed L _ Hcl _ _ _ _ _ Hun1 Hlongest Hc)
      as [Hlonger E].
    refine (longer_loop_closed L _ Hcl _ _ _ _ [] [] [] _ _ _ _ Hlonger _ Hlg).
    - intros x Hx. eapply stored_extends; [now apply Hun1|exact E].
    - intros l []. }
  intros r Hr.
  assert (S : stored (over_domain D) (heap w2) r).
  { rewrite !in_app_iff in Hr. destruct Hr as [Hr|[Hr|Hr]].
    - eapply stored_extends; [now apply Hun1|exact E2].
    - eapply stored_extends; [apply Hmul; now rewrite <- Em|exact E2].
    - apply in_concat in Hr as (l & Hl & Hr).
      specialize (Hlong l Hl). rewrite Forall_forall in Hlong.
      now apply Hlong. }
  destruct S as [_ [Hp _]]. split; [exact Hp|].
  apply Permutation_length in Hp. unfold index in Hp.
  now rewrite length_map in Hp.
Qed.

End CoverDomain.

Lemma composed_tables_cover_domain_witness :
  exists tb w1 ls li ln w2,
    make_tables Toy.lib Toy.params Toy.world0 = (Ok tb, w1) /\
    longer_tables Toy.lib Toy.params tb w1 = (Ok (ls, li, ln), w2) /\
    forall r, In r (tb_multiary tb) ->
      length (rows (deref (heap w2) r)) = 4%nat.
Proof.
  destruct (make_tables Toy.lib Toy.params Toy.world0) as [[tb|e] w1] eqn:E1;
    [|vm_compute in E1; discriminate E1].
  exists tb, w1.
  destruct (longer_tables Toy.lib Toy.params tb w1)
    as [[[[ls li] ln]|e] w2] eqn:E2.
  - exists ls, li, ln, w2. split; [reflexivity|]. split; [reflexivity|].
    intros r Hr.
    refine (proj2 (composed_tables_cover_domain Toy.lib Toy.params Toy.world0
                     tb w1 ls li ln w2 toy_np_choice_spec toy_domain_NoDup
                     _ E1 E2 r _)).
    + repeat constructor.
    + apply in_or_app. right. apply in_or_app. now left.
  - vm_compute in E1. injection E1 as <- <-.
    vm_compute in E2. discriminate E2.
Defined.

(** ** What the composed tables compute *)

Lemma unary_over_NoDup D t : NoDup D -> unary_over D t -> NoDup (index t).
Proof.
  intros HD [Hp _]. eapply Permutation_NoDup; [apply Permutation_sym, Hp|].
  exact HD.
Qed.

(** A unary table computes itself. *)
Lemma unary_computes b D t :
  NoDup D -> unary_over D t -> computes b D [t] t.
Proof.
  intros HD Hu. pose proof (unary_over_NoDup _ _ HD Hu) as Hn.
  destruct Hu as [Hp Hv]. split; [exact Hp|].
  intros i Hi.
  assert (Hix : In i (index t))
    by (eapply Permutation_in; [apply Permutation_sym, Hp|exact Hi]).
  destruct (in_index_row _ _ Hix) as [v Hrow].
  pose proof (lookup_in _ _ _ Hn Hrow) as Hl.
  exists [v]. cbn [rev app chain]. rewrite Hl. cbn.
  split; [reflexivity|]. split; [reflexivity|]. now destruct b.
Qed.

Lemma target_cons b v outputs :
  outputs <> [] ->
  target b (v :: outputs)
  = if b then v ++ " " ++ target b outputs else target b outputs.
Proof.
  intros H. destruct outputs as [|o os]; [congruence|].
  destruct b; reflexivity.
Qed.

(** One more table on the right of a composition. *)
Lemma compose_computes b D tables acc y c :
  NoDup D -> tables <> [] ->
  computes b D tables acc -> unary_over D y ->
  compose_table_lookups acc y b = Ok c ->
  computes b D (tables ++ [y]) c.
Proof.
  intros HD Hne [Pa Ha] Hu Hc.
  pose proof (unary_over_NoDup _ _ HD Hu) as Hny.
  assert (Hna : NoDup (index acc))
    by (eapply Permutation_NoDup; [apply Permutation_sym, Pa|exact HD]).
  destruct Hu as [Py Vy]. rewrite Forall_forall in Vy.
  split.
  - rewrite <- Py. apply (compose_index_total _ _ _ _ Hc Hna).
    apply Forall_forall. intros v Hv. destruct (Vy v Hv) as [Htok HvD].
    exists v. split; [now apply token_last_token|].
    eapply Permutation_in; [apply Permutation_sym, Pa|exact HvD].
  - intros i Hi.
    assert (Hiy : In i (index y))
      by (eapply Permutation_in; [apply Permutation_sym, Py|exact Hi]).
    destruct (in_index_row _ _ Hiy) as [v Hrow].
    destruct (Vy v) as [Htok HvD]; [unfold data; now apply (in_map snd) in Hrow|].
    destruct (Ha v HvD) as (outputs & Hch & Hlen & Hl).
    assert (Hout : outputs <> []).
    { intros ->. destruct tables; [congruence|discriminate]. }
    exists (v :: outputs). rewrite rev_app_distr. cbn [rev app chain].
    rewrite (lookup_in _ _ _ Hny Hrow), Hch. cbn [option_map].
    split; [reflexivity|].
    split; [cbn [length]; rewrite length_app, Hlen; simpl; lia|].
    apply lookup_filter. rewrite (target_cons _ _ _ Hout).
    apply (compose_row acc y b c i v v (target b outputs) Hna Hny Hc Hrow).
    + now apply token_last_token.
    + now apply lookup_row.
Qed.

(** The outputs of a chain are values of its tables. *)
Lemma chain_tokens tables : forall i outputs,
  (forall t, In t tables -> Forall token (data t)) ->
  chain tables i = Some outputs -> Forall token outputs.
Proof.
  induction tables as [|t rest IH]; intros i outputs Ht H; simpl in H.
  - injection H as <-. constructor.
  - destruct (lookup t i) as [v|] eqn:El; [|discriminate].
    destruct (chain rest v) as [os|] eqn:Ec; [|discriminate].
    injection H as <-. constructor.
    + specialize (Ht t (or_introl eq_refl)). rewrite Forall_forall in Ht.
      apply Ht. apply lookup_row in El. unfold data.
      change v with (snd (i, v)). now apply in_map.
    + eapply IH; [|exact Ec]. intros t' Ht'. apply Ht. now right.
Qed.

Section Semantics.
Variable L : Library.
Variables (b : bool) (D : list string).
Hypothesis D_NoDup : NoDup D.

Lemma foldM_compose_computes xs : forall x (w : World L) r w' tables,
  tables <> [] ->
  stored (computes b D tables) (heap w) x ->
  (forall y, In y xs -> stored (unary_over D) (heap w) y) ->
  foldM (compose_ref L b) x xs w = (Ok r, w') ->
  stored (computes b D (tables ++ map (deref (heap w)) xs)) (heap w') r /\
  extends (heap w) (heap w').
Proof.
  induction xs as [|y xs IH]; intros x w r w' tables Hne Hx Hys H.
  - simpl in H. injection H as <- <-. cbn [map]. rewrite app_nil_r.
    split; [exact Hx|apply extends_refl].
  - cbn [foldM] in H. apply bind_inv in H as (a & w1 & Ha & H).
    rewrite compose_ref_spec in Ha.
    destruct (compose_table_lookups _ _ b) as [c|e] eqn:Ec; [|discriminate].
    injection Ha as <- <-.
    destruct Hx as [Hxl Hxc].
    destruct (Hys y (or_introl eq_refl)) as [Hyl Hyu].
    pose proof (compose_computes _ _ _ _ _ _ D_NoDup Hne Hxc Hyu Ec) as Hc.
    assert (E1 : extends (heap w) (heap w ++ [c])) by now exists [c].
    destruct (IH (length (heap w))
                (mkWorld L (heap w ++ [c]) (py_rng w) (np_rng w))
                r w' (tables ++ [deref (heap w) y])%list) as [Cr E2].
    + destruct tables; discriminate.
    + cbn [heap]. split; [rewrite length_app; simpl; lia|].
      now rewrite deref_new.
    + intros z Hz. cbn [heap].
      eapply stored_extends; [apply Hys; now right|exact E1].
    + exact H.
    + cbn [heap] in Cr, E2. split; [|eapply extends_trans; eassumption].
      cbn [map]. rewrite <- app_assoc in Cr. cbn [app] in Cr.
      replace (map (deref (heap w)) xs)
        with (map (deref (heap w ++ [c])) xs); [exact Cr|].
      apply map_ext_in. intros z Hz. apply (extends_deref _ _ _ E1).
      now destruct (Hys z (or_intror Hz)).
Qed.

Lemma reduce_compose_computes fs (w : World L) r w' :
  (forall y, In y fs -> stored (unary_over D) (heap w) y) ->
  reduce (compose_ref L b) fs w = (Ok r, w') ->
  stored (computes b D (map (deref (heap w)) fs)) (heap w') r /\
  extends (heap w) (heap w').
Proof.
  intros Hys H. destruct fs as [|x xs]; [discriminate|].
  cbn [reduce] in H.
  apply (foldM_compose_computes xs x w r w' [deref (heap w) x]);
    [discriminate| |auto using in_cons|exact H].
  destruct (Hys x (or_introl eq_refl)) as [Hl Hu].
  split; [exact Hl|]. now apply unary_computes.
Qed.

Lemma computes_stored_extends tables h h' r :
  stored (computes b D tables) h r -> extends h h' ->
  stored (computes b D tables) h' r.
Proof. apply stored_extends. Qed.

End Semantics.

Section RunSemantics.
Variable L : Library.

Lemma unary_tables_unary_over p (w : World L) unary wu :
  np_choice_spec L ->
  Forall token (domain_inputs (alphabet p) (n_repeats p)) ->
  unary_tables L p w = (Ok unary, wu) ->
  forall r, In r unary ->
    stored (unary_over (domain_inputs (alphabet p) (n_repeats p)))
           (heap wu) r.
Proof.
  intros Hnp Htok H r Hr. unfold unary_tables in H.
  apply bind_inv in H as ([] & w1 & H1 & H). injection H1 as <-.
  apply bind_inv in H as ([] & w2 & H2 & H). injection H2 as <-.
  destruct (create_N_tables L _ _ _ _ _ _ _ _ Hnp H)
    as [outputs [_ [_ [Hin [_ [_ [Hvalid Hmap]]]]]]].
  rewrite Forall_forall in Hvalid. split; [now apply Hvalid|].
  apply (in_map (deref (heap wu))) in Hr. rewrite Hmap in Hr.
  apply in_map_iff in Hr as [io [<- Hio]].
  apply in_enumerate, Hin in Hio.
  pose proof (permutations_permutation _ _ Hio) as Hp.
  split.
  - now rewrite unary_table_index.
  - rewrite data_unary_table by exact Hio.
    apply Forall_forall. intros v Hv.
    assert (Hvi : In v (domain_inputs (alphabet p) (n_repeats p)))
      by (eapply Permutation_in; eassumption).
    split; [|exact Hvi].
    rewrite Forall_forall in Htok. now apply Htok.
Qed.

Lemma make_tables_computes p (w : World L) tb w1 :
  np_choice_spec L ->
  NoDup (domain_inputs (alphabet p) (n_repeats p)) ->
  Forall token (domain_inputs (alphabet p) (n_repeats p)) ->
  make_tables L p w = (Ok tb, w1) ->
  Forall2 (fun fs r =>
     computes (is_intermediate p)
       (domain_inputs (alphabet p) (n_repeats p))
       (map (deref (heap w1)) fs) (deref (heap w1) r))
    (all_tuples p (tb_unary tb)) (tb_multiary tb).
Proof.
  intros Hnp HD Htok Hm.
  set (D := domain_inputs (alphabet p) (n_repeats p)) in *.
  set (b := is_intermediate p).
  destruct (make_tables_inv L _ _ _ _ Hm)
    as (wu & pd & Hu & _ & _ & Hpd & Hfl & _).
  pose proof (unary_tables_unary_over _ _ _ _ Hnp Htok Hu) as Hun.
  fold D in Hun.
  assert (Step : forall (repeat : Z) (wa : World L) rs wb,
            In repeat (py_range 2 (max_composition_train p + 1)) ->
            extends (heap wu) (heap wa) ->
            mapM (reduce (compose_ref L b))
                 (product (tb_unary tb) (Z.to_nat repeat)) wa = (Ok rs, wb) ->
            Forall2 (fun fs r =>
                       stored (computes b D (map (deref (heap wu)) fs))
                              (heap wb) r)
                    (product (tb_unary tb) (Z.to_nat repeat)) rs /\
            extends (heap wa) (heap wb)).
  { intros repeat wa rs wb _ Ea Hrs.
    assert (Step2 : forall (fs : list ref) (wc : World L) r wd,
              In fs (product (tb_unary tb) (Z.to_nat repeat)) ->
              extends (heap wa) (heap wc) ->
              reduce (compose_ref L b) fs wc = (Ok r, wd) ->
              stored (computes b D (map (deref (heap wu)) fs)) (heap wd) r /\
              extends (heap wc) (heap wd)).
    { intros fs wc r wd Hfs Ec Hr.
      assert (E : extends (heap wu) (heap wc))
        by (eapply extends_trans; eassumption).
      assert (Hys : forall y, In y fs -> stored (unary_over D) (heap wc) y).
      { intros y Hy. eapply stored_extends; [|exact E].
        apply Hun. eapply product_elem_In; eassumption. }
      destruct (reduce_compose_computes L b D HD fs wc r wd Hys Hr) as [C E2].
      split; [|exact E2].
      replace (map (deref (heap wu)) fs) with (map (deref (heap wc)) fs);
        [exact C|].
      apply map_ext_in. intros y Hy. apply (extends_deref _ _ _ E).
      apply Hun. eapply product_elem_In; eassumption. }
    exact (mapM_Forall2 L (reduce (compose_ref L b))
             (fun fs r h => stored (computes b D (map (deref (heap wu)) fs)) h r)
             (product (tb_unary tb) (Z.to_nat repeat))
             (fun _ _ _ _ C E => stored_extends _ _ _ _ C E)
             wa Step2 rs wb Hrs). }
  destruct (mapM_Forall2 L
              (fun repeat =>
                 mapM (reduce (compose_ref L b))
                      (product (tb_unary tb) (Z.to_nat repeat)))
              (fun repeat rs h =>
                 Forall2 (fun fs r =>
                            stored (computes b D (map (deref (heap wu)) fs)) h r)
                         (product (tb_unary tb) (Z.to_nat repeat)) rs)
              (py_range 2 (max_composition_train p + 1))
              (fun _ _ _ _ F E =>
                 Forall2_impl _ _ _ _
                   (fun fs r _ _ C => stored_extends _ _ _ _ C E) F)
              wu Step pd w1 Hpd) as [F E].
  assert (Em : tb_multiary tb = concat pd).
  { destruct pd as [|l pd']; [discriminate|].
    rewrite flatten_ok in Hfl by discriminate. now injection Hfl. }
  rewrite Em. unfold all_tuples. rewrite flat_map_concat_map.
  apply Forall2_concat.
  clear -F E Hun. induction F as [|repeat rs ds pds Hrs F IH];
    simpl; constructor; [|exact IH].
  eapply Forall2_impl; [|exact Hrs].
  intros fs r Hfs _ [_ C].
  replace (map (deref (heap w1)) fs) with (map (deref (heap wu)) fs);
    [exact C|].
  apply map_ext_in. intros y Hy. symmetry. apply (extends_deref _ _ _ E).
  apply Hun. eapply product_elem_In; eassumption.
Qed.


(** Over distinct inputs that are tokens, the table composed for a tuple
    of unary tables has a row for each input of the domain, and its value
    there is what the chain of the tables gives, the last table of the
    tuple applied first: all the outputs along the chain when the
    intermediate steps are kept, the last output otherwise. *)
Theorem compositions_compute_chains p (w : World L) tb w1 :
  np_choice_spec L ->
  NoDup (domain_inputs (alphabet p) (n_repeats p)) ->
  Forall token (domain_inputs (alphabet p) (n_repeats p)) ->
  make_tables L p w = (Ok tb, w1) ->
  Forall2 (fun fs r =>
     computes (is_intermediate p)
       (domain_inputs (alphabet p) (n_repeats p))
       (map (deref (heap w1)) fs) (deref (heap w1) r))
    (all_tuples p (tb_unary tb)) (tb_multiary tb).
Proof. apply make_tables_computes. Qed.

Lemma make_tables_values p (w : World L) tb w1 :
  np_choice_spec L ->
  NoDup (domain_inputs (alphabet p) (n_repeats p)) ->
  Forall token (domain_inputs (alphabet p) (n_repeats p)) ->
  make_tables L p w = (Ok tb, w1) ->
  Forall2 (fun fs r =>
     forall v, In v (data (deref (heap w1) r)) ->
       length (split v)
       = if is_intermediate p then length fs else 1%nat)
    (all_tuples p (tb_unary tb)) (tb_multiary tb).
Proof.
  intros Hnp HD Htok Hm.
  pose proof (make_tables_computes _ _ _ _ Hnp HD Htok Hm) as F.
  destruct (make_tables_unary L _ _ _ _ Hm) as (wu & Hu & Eu).
  pose proof (unary_tables_unary_over _ _ _ _ Hnp Htok Hu) as Hun.
  eapply Forall2_impl; [|exact F].
  intros fs r Hfs _ [Hp Hc] v Hv.
  apply in_map_iff in Hv as [[i v'] [Ev Hrow]]. simpl in Ev. subst v'.
  assert (Hn : NoDup (index (deref (heap w1) r)))
    by (eapply Permutation_NoDup; [apply Permutation_sym, Hp|exact HD]).
  assert (Hi : In i (domain_inputs (alphabet p) (n_repeats p))).
  { eapply Permutation_in; [exact Hp|].
    change i with (fst (i, v)). now apply in_map. }
  destruct (Hc i Hi) as (outputs & Hch & Hlen & Hl).
  rewrite (lookup_in _ _ _ Hn Hrow) in Hl. injection Hl as ->.
  assert (Hfsu : forall t, In t (rev (map (deref (heap w1)) fs)) ->
            Forall token (data t)).
  { intros t Ht. apply in_rev in Ht. apply in_map_iff in Ht as [y [<- Hy]].
    assert (Hyu : In y (tb_unary tb)).
    { unfold all_tuples in Hfs. apply in_flat_map in Hfs as [k [_ Hfs]].
      eapply product_elem_In; eassumption. }
    destruct (stored_extends _ _ _ _ (Hun y Hyu) Eu) as [_ [_ Hd]].
    eapply Forall_impl; [|exact Hd]. now intros a [Ha _]. }
  pose proof (chain_tokens _ _ _ Hfsu Hch) as Htoks.
  rewrite length_map in Hlen.
  unfold target. destruct (is_intermediate p).
  - now rewrite split_join.
  - destruct outputs as [|o os].
    + destruct fs as [|f fs']; [|discriminate].
      exfalso. unfold all_tuples in Hfs.
      apply in_flat_map in Hfs as [k [Hk Hfs]].
      apply product_elem_length in Hfs. simpl in Hfs.
      unfold py_range in Hk. apply in_map_iff in Hk as [j [<- _]]. lia.
    + assert (Hin : In (last (o :: os) "") (o :: os)).
      { destruct (exists_last (l := o :: os)) as (l' & a & E);
          [discriminate|].
        rewrite E, last_last. apply in_or_app. right. now left. }
      rewrite Forall_forall in Htoks. now rewrite (Htoks _ Hin).
Qed.

(** So the targets have a fixed number of tokens: with the intermediate
    steps kept, every value of a table composed of [k] unary tables has
    [k] tokens; without them every value is one token. *)
Theorem composition_values_tokens p (w : World L) tb w1 :
  np_choice_spec L ->
  NoDup (domain_inputs (alphabet p) (n_repeats p)) ->
  Forall token (domain_inputs (alphabet p) (n_repeats p)) ->
  make_tables L p w = (Ok tb, w1) ->
  Forall2 (fun fs r =>
     forall v, In v (data (deref (heap w1) r)) ->
       length (split v)
       = if is_intermediate p then length fs else 1%nat)
    (all_tuples p (tb_unary tb)) (tb_multiary tb).
Proof. apply make_tables_values. Qed.

End RunSemantics.

Lemma compositions_compute_chains_witness :
  exists tb w1,
    make_tables Toy.lib Toy.params Toy.world0 = (Ok tb, w1) /\
    Forall2 (fun fs r =>
       computes true Toy.domain2
         (map (deref (heap w1)) fs) (deref (heap w1) r))
      (all_tuples Toy.params (tb_unary tb)) (tb_multiary tb).
Proof.
  destruct (make_tables Toy.lib Toy.params Toy.world0) as [[tb|e] w1] eqn:E1;
    [|vm_compute in E1; discriminate E1].
  exists tb, w1. split; [reflexivity|].
  refine (compositions_compute_chains Toy.lib Toy.params Toy.world0 tb w1
            toy_np_choice_spec toy_domain_NoDup _ E1).
  repeat constructor.
Defined.

Lemma composition_values_tokens_witness :
  exists tb w1,
    make_tables Toy.lib Toy.params Toy.world0 = (Ok tb, w1) /\
    Forall2 (fun (fs : list ref) r =>
       forall v, In v (data (deref (heap w1) r)) ->
         length (split v) = length fs)
      (all_tuples Toy.params (tb_unary tb)) (tb_multiary tb).
Proof.
  destruct (make_tables Toy.lib Toy.params Toy.world0) as [[tb|e] w1] eqn:E1;
    [|vm_compute in E1; discriminate E1].
  exists tb, w1. split; [reflexivity|].
  refine (composition_values_tokens Toy.lib Toy.params Toy.world0 tb w1
            toy_np_choice_spec toy_domain_NoDup _ E1).
  repeat constructor.
Defined.

(** ** The targets of the longer compositions *)

Lemma unary_over_domain D t : unary_over D t -> over_domain D t.
Proof.
  intros [Hp Hv]. split; [exact Hp|].
  eapply Forall_impl; [|exact Hv]. intros v [Ht Hin].
  exists v. split; [now apply token_last_token|exact Hin].
Qed.

(** A unary table composed on the left of a table with [k] tokens in
    each value, intermediate steps kept: one token more. *)
Lemma compose_valued D k x y c :
  NoDup D -> unary_over D x -> valued D k y ->
  compose_table_lookups x y true = Ok c -> valued D (S k) c.
Proof.
  intros HD Hx [Hy Vy] Hc. split.
  - exact (compose_over_domain D x y true c HD (unary_over_domain _ _ Hx) Hy Hc).
  - apply Forall_forall. intros v Hv. unfold data in Hv.
    rewrite (compose_rows _ _ _ _ Hc), map_map in Hv.
    apply in_map_iff in Hv as (m & <- & Hm).
    apply in_merge in Hm as (l & r & Hl & Hr & ->). cbn [fst snd].
    rewrite split_spaced, length_app.
    rewrite Forall_forall in Vy. rewrite (Vy (snd r)) by now apply in_map.
    destruct Hx as [_ Vx]. rewrite Forall_forall in Vx.
    destruct (Vx (snd l)) as [Ht _]; [now apply in_map|].
    rewrite Ht. simpl. lia.
Qed.

Lemma Forall2_and {A B} (P Q : A -> B -> Prop) l1 l2 :
  Forall2 P l1 l2 -> Forall2 Q l1 l2 ->
  Forall2 (fun x y => P x y /\ Q x y) l1 l2.
Proof.
  intros HP. induction HP; intros HQ; inversion HQ; subst; constructor; auto.
Qed.

Section LongerValues.
Variable L : Library.

Lemma compose_ref_valued D x y k (w : World L) r w' :
  NoDup D ->
  stored (unary_over D) (heap w) x -> stored (valued D k) (heap w) y ->
  compose_ref L true x y w = (Ok r, w') ->
  stored (valued D (S k)) (heap w') r /\ extends (heap w) (heap w').
Proof.
  intros HD [Hx Ux] [Hy Vy] H. rewrite compose_ref_spec in H.
  destruct (compose_table_lookups _ _ true) as [c|e] eqn:Ec; [|discriminate].
  injection H as <- <-. cbn [heap]. split; [|now exists [c]].
  split; [rewrite length_app; simpl; lia|].
  rewrite deref_new. exact (compose_valued _ _ _ _ _ HD Ux Vy Ec).
Qed.

(** The longer compositions are always made with the intermediate steps
    kept, whatever [is_intermediate]: each turn of the loop adds a token
    to every value. With [is_intermediate] the values of the [i]-th list
    (counting from 0) have [max_composition_train + 1 + i] tokens; without
    it they have [2 + i], while every value of the training compositions
    has one. *)
Theorem longer_values_tokens p (w : World L) tb w1 ls li ln w2 :
  np_choice_spec L ->
  NoDup (domain_inputs (alphabet p) (n_repeats p)) ->
  Forall token (domain_inputs (alphabet p) (n_repeats p)) ->
  Forall good_name (unary_names p) ->
  make_tables L p w = (Ok tb, w1) ->
  longer_tables L p tb w1 = (Ok (ls, li, ln), w2) ->
  forall i l,
    nth_error ls i = Some l \/ nth_error li i = Some l \/
    nth_error ln i = Some l ->
    forall r, In r l ->
    forall v, In v (data (deref (heap w2) r)) ->
      length (split v)
      = ((if is_intermediate p then Z.to_nat (max_composition_train p)
          else 1) + 1 + i)%nat.
Proof.
  intros Hnp HD Htok Hgood Hm H.
  set (D := domain_inputs (alphabet p) (n_repeats p)) in *.
  set (m := if is_intermediate p then Z.to_nat (max_composition_train p)
            else 1%nat).
  destruct (make_tables_composed L _ _ _ _ Hnp HD Hgood Hm)
    as (h0 & _ & Fm & _).
  pose proof (make_tables_values L _ _ _ _ Hnp HD Htok Hm) as Fv.
  pose proof (Forall2_and _ _ _ _ Fm Fv) as F.
  destruct (make_tables_inv L _ _ _ _ Hm)
    as (wu & pd & Hu & _ & _ & Hpd & Hfl & _).
  pose proof (unary_tables_unary_over L _ _ _ _ Hnp Htok Hu) as Hun.
  fold D in Hun.
  assert (Hcl : forall t1 t2 b c, over_domain D t1 -> over_domain D t2 ->
            compose_table_lookups t1 t2 b = Ok c -> over_domain D c)
    by (intros t1 t2 b c; now apply compose_over_domain).
  assert (Hun' : forall x, In x (tb_unary tb) ->
            stored (over_domain D) (heap wu) x).
  { intros x Hx. destruct (Hun x Hx) as [Hl Hx'].
    split; [exact Hl|now apply unary_over_domain]. }
  destruct (compositions_closed L _ Hcl _ _ _ _ _ _ Hun' Hpd) as [Hmul E1].
  assert (Em : tb_multiary tb = concat pd).
  { destruct pd as [|l pd']; [discriminate|].
    rewrite flatten_ok in Hfl by discriminate. now injection Hfl. }
  destruct (longer_tables_levels L
              (fun h x => stored (unary_over D) h x)
              (fun h k r => stored (valued D k) h r)
              (fun h h' x C E => stored_extends _ h h' x C E)
              (fun h h' k r C E => stored_extends _ h h' r C E)
              (fun x y k w0 r w' Hx Hy Hc =>
                 compose_ref_valued D x y k w0 r w' HD Hx Hy Hc)
              p tb w1 ls li ln w2 m) as (R1 & R2 & R3).
  - intros x Hx. eapply stored_extends; [now apply Hun|exact E1].
  - intros y Hy Et.
    destruct (Forall2_In_r _ _ _ _ F Hy) as (fs & _ & C & Hv).
    destruct (Hmul y) as [Hl Ho]; [now rewrite <- Em|].
    split; [exact Hl|]. split; [exact Ho|].
    apply Forall_forall. intros v Hin. rewrite (Hv v Hin).
    unfold m. destruct (is_intermediate p); [|reflexivity].
    destruct C as (_ & Hs & _). unfold name_in in Et. rewrite Hs in Et.
    rewrite length_map in Et. lia.
  - exact H.
  - intros i l Hi r Hr v Hv.
    assert (C : stored (valued D (S m + i)) (heap w2) r).
    { destruct Hi as [Hi|[Hi|Hi]];
        [eapply R1|eapply R2|eapply R3]; eassumption. }
    destruct C as [_ [_ Hall]]. rewrite Forall_forall in Hall.
    rewrite (Hall v Hv). lia.
Qed.

End LongerValues.

Lemma longer_values_tokens_witness :
  exists tb w1 ls li ln w2,
    make_tables Toy.lib (with_is_intermediate false Toy.params) Toy.world0
      = (Ok tb, w1) /\
    longer_tables Toy.lib (with_is_intermediate false Toy.params) tb w1
      = (Ok (ls, li, ln), w2) /\
    forall l, nth_error ls 0 = Some l ->
      forall r, In r l ->
      forall v, In v (data (deref (heap w2) r)) -> length (split v) = 2%nat.
Proof.
  destruct (make_tables Toy.lib (with_is_intermediate false Toy.params)
              Toy.world0) as [[tb|e] w1] eqn:E1;
    [|vm_compute in E1; discriminate E1].
  exists tb, w1.
  destruct (longer_tables Toy.lib (with_is_intermediate false Toy.params) tb w1)
    as [[[[ls li] ln]|e] w2] eqn:E2.
  - exists ls, li, ln, w2. split; [reflexivity|]. split; [reflexivity|].
    intros l Hl.
    refine (longer_values_tokens Toy.lib
              (with_is_intermediate false Toy.params) Toy.world0
              tb w1 ls li ln w2
              toy_np_choice_spec toy_domain_NoDup _
              (proj1 (default_namer_names
                        (with_is_intermediate false Toy.params) eq_refl))
              E1 E2 0%nat l (or_introl Hl)).
    repeat constructor.
  - vm_compute in E1. injection E1 as <- <-.
    vm_compute in E2. discriminate E2.
Defined.

(** ** The examples of the building blocks are correct compositions *)

Lemma lookup_examples tg D h0 unary fs t :
  fs <> [] -> incl fs unary ->
  split (name t) = map (name_in h0) fs ->
  NoDup D -> Permutation (index t) D ->
  (forall i, In i D ->
     exists outputs,
       chain (rev (map (deref h0) fs)) i = Some outputs /\
       length outputs = length (map (deref h0) fs) /\
       lookup t i = Some (tg outputs)) ->
  examples tg D h0 unary t.
Proof.
  intros Hne Hin Hnm HD Hp Hc. apply Forall_forall. intros [i v] Hrow.
  assert (Hn : NoDup (index t))
    by (eapply Permutation_NoDup; [apply Permutation_sym, Hp|exact HD]).
  assert (Hi : In i D).
  { eapply Permutation_in; [exact Hp|].
    change i with (fst (i, v)). now apply in_map. }
  destruct (Hc i Hi) as (outputs & Hch & Hlen & Hl).
  rewrite (lookup_in _ _ _ Hn Hrow) in Hl. injection Hl as ->.
  rewrite length_map in Hlen.
  exists fs, outputs. cbn [fst snd]. repeat split; assumption.
Qed.

Lemma computes_examples b D h0 unary fs t :
  fs <> [] -> incl fs unary ->
  split (name t) = map (name_in h0) fs ->
  NoDup D ->
  computes b D (map (deref h0) fs) t ->
  examples (target b) D h0 unary t.
Proof.
  intros Hne Hin Hnm HD [Hp Hc]. now apply (lookup_examples _ _ _ _ fs).
Qed.

Lemma computes_from_examples c D h0 unary fs t :
  fs <> [] -> incl fs unary ->
  split (name t) = map (name_in h0) fs ->
  NoDup D ->
  computes_from c D (map (deref h0) fs) t ->
  examples (target_from c) D h0 unary t.
Proof.
  intros Hne Hin Hnm HD [Hp Hc]. now apply (lookup_examples _ _ _ _ fs).
Qed.

Lemma getitem_examples tg D h0 unary t labels s :
  getitem t labels = Ok s ->
  examples tg D h0 unary t -> examples tg D h0 unary s.
Proof.
  unfold getitem. destruct (forallb _ labels); [|discriminate].
  intros E H. injection E as <-. unfold examples in *. cbn [name rows].
  rewrite Forall_forall in *. intros row Hr.
  apply in_flat_map in Hr as [l [_ Hr]].
  apply filter_In in Hr as [Hr _]. now apply H.
Qed.

Lemma drop_examples tg D h0 unary t labels s :
  drop t labels = Ok s ->
  examples tg D h0 unary t -> examples tg D h0 unary s.
Proof.
  unfold drop. destruct (forallb _ labels); [|discriminate].
  intros E H. injection E as <-. unfold examples in *. cbn [name rows].
  rewrite Forall_forall in *. intros row Hr.
  apply filter_In in Hr as [Hr _]. now apply H.
Qed.

Lemma formatted_rows_examples tg D h0 unary is_reverse eos t row :
  examples tg D h0 unary t ->
  In row (rows (formatted is_reverse eos t)) ->
  formatted_example tg D h0 unary is_reverse eos row.
Proof.
  intros H Hr. unfold formatted, map_index in Hr. cbn [rows] in Hr.
  apply in_map_iff in Hr as [[i v] [<- Hin]]. cbn [fst snd].
  unfold examples in H. rewrite Forall_forall in H.
  exists (name t), i. split; [now apply H|reflexivity].
Qed.

Lemma map_eq_in {A B} (f g : A -> B) l :
  map f l = map g l -> forall x, In x l -> f x = g x.
Proof.
  induction l as [|a l IH]; simpl; intros H x Hx; [destruct Hx|].
  injection H as Ha Hl. destruct Hx as [<-|Hx]; auto.
Qed.

Lemma NoDup_map_NoDup {A B} (f : A -> B) l : NoDup (map f l) -> NoDup l.
Proof.
  induction l as [|a l IH]; simpl; intros H; [constructor|].
  inversion H as [|? ? Hn Hl]; subst. constructor; [|auto].
  intros Ha. apply Hn. now apply in_map.
Qed.

Section Examples.
Variable L : Library.

(** *** The tables of [make_tables] *)

Lemma make_tables_tuples p (w : World L) tb wa :
  np_choice_spec L ->
  NoDup (domain_inputs (alphabet p) (n_repeats p)) ->
  Forall token (domain_inputs (alphabet p) (n_repeats p)) ->
  Forall good_name (unary_names p) ->
  make_tables L p w = (Ok tb, wa) ->
  exists wu,
    unary_tables L p w = (Ok (tb_unary tb), wu) /\
    extends (heap wu) (heap wa) /\
    (forall x, In x (tb_unary tb) ->
       stored (unary_over (domain_inputs (alphabet p) (n_repeats p)))
              (heap wu) x /\
       composed_of (heap wu) [name_in (heap wu) x] x) /\
    (tb_names_train tb ++ tb_names_test tb)%list
      = map (name_in (heap wu)) (tb_unary tb) /\
    forall r, In r (tb_multiary tb) ->
      exists fs, (2 <= length fs)%nat /\ incl fs (tb_unary tb) /\
        composed_of (heap wa) (map (name_in (heap wu)) fs) r /\
        computes (is_intermediate p)
          (domain_inputs (alphabet p) (n_repeats p))
          (map (deref (heap wu)) fs) (deref (heap wa) r).
Proof.
  intros Hnp HD Htok Hgood Hm.
  set (D := domain_inputs (alphabet p) (n_repeats p)) in *.
  destruct (make_tables_unary L _ _ _ _ Hm) as (wu & Hu & Eu).
  exists wu. split; [exact Hu|]. split; [exact Eu|].
  pose proof (unary_tables_unary_over L _ _ _ _ Hnp Htok Hu) as Hun.
  fold D in Hun.
  destruct (unary_tables_composed L _ _ _ _ Hnp HD Hgood Hu)
    as [Hnames Hsingle].
  pose proof (make_tables_computes L _ _ _ _ Hnp HD Htok Hm) as Fc.
  destruct (make_tables_composed L _ _ _ _ Hnp HD Hgood Hm)
    as (h0 & Hn0 & Fn & _).
  destruct (make_tables_inv L _ _ _ _ Hm)
    as (wu' & pd & Hu' & Etr & Ete & _).
  rewrite Hu in Hu'. injection Hu' as <-.
  pose proof (Forall2_and _ _ _ _ Fc Fn) as F. clear Fc Fn.
  assert (Hnm : forall x, In x (tb_unary tb) ->
            name_in h0 x = name_in (heap wu) x).
  { apply map_eq_in. now rewrite Hn0, Hnames. }
  split; [|split].
  - intros x Hx. split; [now apply Hun|now apply Hsingle].
  - now rewrite Etr, Ete, <- map_app, slices_app.
  - intros r Hr.
    destruct (Forall2_In_r _ _ _ _ F Hr) as (fs & Hfs & Hc & Hn).
    unfold all_tuples in Hfs. apply in_flat_map in Hfs as [k [Hk Hfs]].
    pose proof (product_elem_In _ _ _ Hfs) as Hin.
    apply product_elem_length in Hfs.
    unfold py_range in Hk. apply in_map_iff in Hk as [j [<- _]].
    exists fs. split; [lia|]. split; [exact Hin|]. split.
    + replace (map (name_in (heap wu)) fs) with (map (name_in h0) fs);
        [exact Hn|].
      apply map_ext_in. intros x Hx. now apply Hnm, Hin.
    + replace (map (deref (heap wu)) fs) with (map (deref (heap wa)) fs);
        [exact Hc|].
      apply map_ext_in. intros x Hx. apply (extends_deref _ _ _ Eu).
      now apply Hun, Hin.
Qed.

Lemma make_tables_examples p (w : World L) tb wa :
  np_choice_spec L ->
  NoDup (domain_inputs (alphabet p) (n_repeats p)) ->
  Forall token (domain_inputs (alphabet p) (n_repeats p)) ->
  Forall good_name (unary_names p) ->
  make_tables L p w = (Ok tb, wa) ->
  exists wu,
    unary_tables L p w = (Ok (tb_unary tb), wu) /\
    extends (heap wu) (heap wa) /\
    (forall r, In r (tb_unary tb) ->
       (r < length (heap wu))%nat /\
       length (split (name_in (heap wa) r)) = 1%nat) /\
    (forall r, In r (tb_multiary tb) ->
       (2 <= length (split (name_in (heap wa) r)))%nat /\
       composed_over (name_in (heap wa))
         (tb_names_train tb ++ tb_names_test tb) r) /\
    forall r, In r (tb_unary tb ++ tb_multiary tb) ->
      stored (examples (target (is_intermediate p))
                (domain_inputs (alphabet p) (n_repeats p))
                (heap wu) (tb_unary tb)) (heap wa) r.
Proof.
  intros Hnp HD Htok Hgood Hm.
  destruct (make_tables_tuples _ _ _ _ Hnp HD Htok Hgood Hm)
    as (wu & Hu & Eu & Hun & Euni & Hmul).
  set (D := domain_inputs (alphabet p) (n_repeats p)) in *.
  exists wu. split; [exact Hu|]. split; [exact Eu|].
  split; [|split].
  - intros r Hr. destruct (Hun r Hr) as [[Hlt _] (_ & Hs & _)].
    split; [exact Hlt|].
    rewrite (name_in_extends _ _ _ Eu) by exact Hlt.
    unfold name_in. now rewrite Hs.
  - intros r Hr. destruct (Hmul r Hr) as (fs & Hl & Hin & (_ & Hs & _) & _).
    unfold name_in. rewrite Hs, length_map. split; [exact Hl|].
    split.
    + rewrite Hs. destruct fs; [simpl in Hl; lia|discriminate].
    + intros tok Ht. rewrite Hs in Ht.
      apply in_map_iff in Ht as [x [<- Hx]].
      rewrite Euni. apply in_map. now apply Hin.
  - intros r Hr. apply in_app_or in Hr as [Hr|Hr].
    + apply (stored_extends _ (heap wu)); [|exact Eu].
      destruct (Hun r Hr) as [[Hlt Hov] (_ & Hs & _)]. split; [exact Hlt|].
      apply (computes_examples _ _ _ _ [r]).
      * discriminate.
      * intros x [<-|[]]. exact Hr.
      * exact Hs.
      * exact HD.
      * cbn [map]. now apply unary_computes.
    + destruct (Hmul r Hr) as (fs & Hl & Hin & (Hlt & Hs & _) & Hc).
      split; [exact Hlt|].
      apply (computes_examples _ _ _ _ fs); try assumption.
      destruct fs; [simpl in Hl; lia|discriminate].
Qed.

(** *** The tables of the held-out split *)

Lemma heldout_split_refs p pool (w : World L) train hi hc w' :
  heldout_split L p pool w = (Ok (train, hi, hc), w') ->
  exists n k, (length (heap w) <= n)%nat /\
    hi = seq n k /\ train = seq (n + k) k.
Proof.
  intros H. unfold heldout_split in H.
  set (kept := slice_to (- n_heldout_compositions p) pool) in H.
  apply bind_inv in H as (labels & wa & Hl & H).
  apply bind_inv in H as (hi' & wb & Hh & H).
  apply bind_inv in H as (tr' & wc & Ht & H).
  injection H as -> -> _ _.
  assert (Ea : extends (heap w) (heap wa)).
  { pose proof (alloc_only_mapM L
      (fun table => bind (load L table)
         (fun t => np_random_choice L (index t) (n_heldout_inputs p)))
      kept
      (fun table => alloc_only_bind L _ _ (alloc_only_load L table)
         (fun t => alloc_only_np_random_choice L _ _)) w) as E.
    now rewrite Hl in E. }
  destruct (mapM_fresh L
              (fun ht : list string * ref => getitem_ref L (snd ht) (fst ht))
              (combine labels kept)) with (2 := Hh) as [-> Hlb].
  { intros x w1 r w2 _ Hg.
    apply getitem_ref_spec in Hg as (s & _ & -> & ->).
    rewrite length_app. simpl. split; [reflexivity|lia]. }
  destruct (mapM_fresh L
              (fun ht : list string * ref => drop_ref L (snd ht) (fst ht))
              (combine labels kept)) with (2 := Ht) as [-> _].
  { intros x w1 r w2 _ Hg.
    apply drop_ref_spec in Hg as (s & _ & -> & ->).
    rewrite length_app. simpl. split; [reflexivity|lia]. }
  exists (length (heap wa)), (length (combine labels kept)).
  rewrite Hlb. split; [now apply extends_length|]. now split.
Qed.

Lemma in_slice_from {A} j (l : list A) x : In x (slice_from j l) -> In x l.
Proof.
  intros H. rewrite <- (slices_app j l). apply in_or_app. now right.
Qed.

Lemma heldout_stage_examples p (w : World L) tb pool train hi hc w1 :
  np_choice_spec L -> py_shuffle_spec L ->
  NoDup (domain_inputs (alphabet p) (n_repeats p)) ->
  Forall token (domain_inputs (alphabet p) (n_repeats p)) ->
  Forall good_name (unary_names p) -> NoDup (unary_names p) ->
  heldout_stage L p w = (Ok (tb, pool, (train, hi, hc)), w1) ->
  exists wu,
    unary_tables L p w = (Ok (tb_unary tb), wu) /\
    NoDup (tb_unary tb ++ train ++ hi ++ hc ++ tb_unseen tb ++ tb_new tb) /\
    forall r,
      In r (tb_unary tb ++ train ++ hi ++ hc ++ tb_unseen tb ++ tb_new tb) ->
      stored (examples (target (is_intermediate p))
                (domain_inputs (alphabet p) (n_repeats p))
                (heap wu) (tb_unary tb)) (heap w1) r.
Proof.
  intros Hnp Hsh HD Htok Hgood Hnames H.
  set (D := domain_inputs (alphabet p) (n_repeats p)) in *.
  destruct (heldout_stage_inv L _ _ _ _ _ _ H) as (wa & wb & Hm & Hs & Hh).
  destruct (make_tables_examples _ _ _ _ Hnp HD Htok Hgood Hm)
    as (wu & Hu & Eu & HU & HM & Hex).
  fold D in Hex.
  destruct (make_tables_distinct L _ _ _ _ Hnp HD Hgood Hnames Hm)
    as (Hnm & Hvalid & Eseen).
  destruct (make_tables_inv L _ _ _ _ Hm) as (_ & _ & _ & _ & _ & _ & _ & Esp).
  destruct (random_shuffle_spec L _ _ _ _ Hsh Hs) as [Hperm Ehb].
  assert (Hpool : forall r, In r pool ->
            (r < length (heap wb))%nat /\ NoDup (index (deref (heap wb) r))).
  { intros r Hr. rewrite Ehb. apply Hvalid.
    apply (Permutation_in _ Hperm) in Hr. rewrite Eseen in Hr.
    now apply filter_In in Hr. }
  destruct (heldout_split_spec L _ _ _ _ _ _ _ Hnp Hpool Hh)
    as (Ehc & Ext & labels & Hlen & _ & Fh & Ft).
  rewrite Ehb in Ext.
  destruct (heldout_split_refs _ _ _ _ _ _ _ Hh) as (n & k & Hn & Ehi & Etr).
  rewrite Ehb in Hn.
  exists wu. split; [exact Hu|].
  unfold _split_seen_unseen_new in Esp. injection Esp as Es Eun Enw.
  set (nf := name_in (heap wa)) in *.
  assert (Hcover : forall x,
            In x (tb_names_train tb ++ tb_names_test tb)%list <->
            In x (tb_names_train tb) \/ In x (tb_names_test tb))
    by (intros x; apply in_app_iff).
  pose proof (fun r Hr =>
    one_class nf _ (tb_names_train tb) (tb_names_test tb) Hcover r
      (proj2 (HM r Hr))) as Hone.
  assert (NM : NoDup (tb_multiary tb)) by exact (NoDup_map_NoDup _ _ Hnm).
  assert (NU : NoDup (tb_unary tb)).
  { destruct (unary_tables_names L _ _ _ _ Hnp Hu) as [_ E].
    apply (NoDup_map_NoDup (name_in (heap wu))). now rewrite E. }
  assert (Hseen : forall r, In r hc ->
            In r (tb_multiary tb) /\
            is_seen nf (tb_names_test tb) r = true).
  { intros r Hr. rewrite Ehc in Hr. apply in_slice_from in Hr.
    apply (Permutation_in _ Hperm) in Hr. rewrite Es in Hr.
    now apply filter_In in Hr. }
  assert (Hunseen : forall r, In r (tb_unseen tb) ->
            In r (tb_multiary tb) /\
            is_unseen nf (tb_names_train tb) (tb_names_test tb) r = true).
  { intros r Hr. rewrite Eun in Hr. now apply filter_In in Hr. }
  assert (Hnew : forall r, In r (tb_new tb) ->
            In r (tb_multiary tb) /\
            is_new nf (tb_names_train tb) r = true).
  { intros r Hr. rewrite Enw in Hr. now apply filter_In in Hr. }
  assert (Hlow : forall r, In r (tb_multiary tb) ->
            (r < length (heap wa))%nat)
    by (intros r Hr; now apply Hvalid).
  assert (HUlow : forall r, In r (tb_unary tb) -> (r < length (heap wa))%nat).
  { intros r Hr. destruct (HU r Hr) as [Hl _].
    pose proof (extends_length _ _ Eu). lia. }
  assert (HUM : forall r, In r (tb_unary tb) -> ~ In r (tb_multiary tb)).
  { intros r Hr Hr'. destruct (HU r Hr) as [_ H1].
    destruct (HM r Hr') as [H2 _]. lia. }
  split.
  - apply NoDup_app; [exact NU| |].
    + apply NoDup_app; [rewrite Etr; apply seq_NoDup| |].
      * apply NoDup_app; [rewrite Ehi; apply seq_NoDup| |].
        -- apply NoDup_app.
           ++ rewrite Ehc.
              apply (NoDup_app_remove_l
                       (slice_to (- n_heldout_compositions p) pool)).
              rewrite slices_app.
              eapply Permutation_NoDup; [apply Permutation_sym, Hperm|].
              rewrite Es. now apply NoDup_filter.
           ++ apply NoDup_app.
              ** rewrite Eun. now apply NoDup_filter.
              ** rewrite Enw. now apply NoDup_filter.
              ** intros r Hr Hr'. destruct (Hunseen r Hr) as [Hr0 F1].
                 destruct (Hnew r Hr') as [_ F2].
                 destruct (Hone r Hr0) as [(_&A&B)|[(_&A&B)|(_&A&B)]];
                   congruence.
           ++ intros r Hr Hr'. destruct (Hseen r Hr) as [Hr0 F1].
              apply in_app_or in Hr' as [Hr'|Hr'].
              ** destruct (Hunseen r Hr') as [_ F2].
                 destruct (Hone r Hr0) as [(A&B&_)|[(A&B&_)|(A&B&_)]];
                   congruence.
              ** destruct (Hnew r Hr') as [_ F2].
                 destruct (Hone r Hr0) as [(A&_&B)|[(A&_&B)|(A&_&B)]];
                   congruence.
        -- intros r Hr Hr'. rewrite Ehi in Hr. apply in_seq in Hr.
           assert (In r (tb_multiary tb)).
           { apply in_app_or in Hr' as [Hr'|Hr'];
               [now apply Hseen|].
             apply in_app_or in Hr' as [Hr'|Hr'];
               [now apply Hunseen|now apply Hnew]. }
           pose proof (Hlow r H0). lia.
      * intros r Hr Hr'. rewrite Etr in Hr. apply in_seq in Hr.
        apply in_app_or in Hr' as [Hr'|Hr'].
        -- rewrite Ehi in Hr'. apply in_seq in Hr'. lia.
        -- assert (In r (tb_multiary tb)).
           { apply in_app_or in Hr' as [Hr'|Hr'];
               [now apply Hseen|].
             apply in_app_or in Hr' as [Hr'|Hr'];
               [now apply Hunseen|now apply Hnew]. }
           pose proof (Hlow r H0). lia.
    + intros r Hr Hr'. pose proof (HUlow r Hr) as Hl.
      apply in_app_or in Hr' as [Hr'|Hr'].
      { rewrite Etr in Hr'. apply in_seq in Hr'. lia. }
      apply in_app_or in Hr' as [Hr'|Hr'].
      { rewrite Ehi in Hr'. apply in_seq in Hr'. lia. }
      apply (HUM r Hr).
      apply in_app_or in Hr' as [Hr'|Hr']; [now apply Hseen|].
      apply in_app_or in Hr' as [Hr'|Hr'];
        [now apply Hunseen|now apply Hnew].
  - assert (Hold : forall r, In r (tb_unary tb ++ tb_multiary tb) ->
              stored (examples (target (is_intermediate p)) D (heap wu) (tb_unary tb))
                     (heap w1) r).
    { intros r Hr. eapply stored_extends; [now apply Hex|exact Ext]. }
    assert (Hkept : forall t,
              In t (slice_to (- n_heldout_compositions p) pool) ->
              In t (tb_multiary tb)).
    { intros t Ht. apply in_slice_to in Ht.
      apply (Permutation_in _ Hperm) in Ht. rewrite Es in Ht.
      now apply filter_In in Ht. }
    intros r Hr. apply in_app_or in Hr as [Hr|Hr].
    { apply Hold. apply in_or_app. now left. }
    apply in_app_or in Hr as [Hr|Hr].
    { destruct (Forall2_In_r _ _ _ _ Ft Hr) as ([ls t] & Hin & (_ & Hlt & Hd)).
      cbn [fst snd] in Hd. split; [exact Hlt|].
      apply (drop_examples _ _ _ _ _ _ _ Hd).
      apply in_combine_r in Hin.
      apply Hold. apply in_or_app. right. now apply Hkept. }
    apply in_app_or in Hr as [Hr|Hr].
    { destruct (Forall2_In_r _ _ _ _ Fh Hr) as ([ls t] & Hin & (_ & Hlt & Hd)).
      cbn [fst snd] in Hd. split; [exact Hlt|].
      apply (getitem_examples _ _ _ _ _ _ _ Hd).
      apply in_combine_r in Hin.
      apply Hold. apply in_or_app. right. now apply Hkept. }
    apply Hold. apply in_or_app. right.
    apply in_app_or in Hr as [Hr|Hr]; [now apply Hseen|].
    apply in_app_or in Hr as [Hr|Hr]; [now apply Hunseen|now apply Hnew].
Qed.

(** *** The blocks of [_merge_format_inputs], row by row *)

Lemma mapM_format_concat_ok is_reverse eos list_dfs :
  forall (w : World L) blocks w',
  mapM (fun dfs => bind (mapM (format_input L is_reverse eos) dfs)
                        (fun fs => pd_concat L fs)) list_dfs w
    = (Ok blocks, w') ->
  ~ In [] list_dfs /\
  heap w' = formatted_store is_reverse eos (concat list_dfs) (heap w).
Proof.
  induction list_dfs as [|dfs rest IH]; intros w blocks w' H.
  - simpl in H. injection H as _ <-. split; [intros []|reflexivity].
  - apply mapM_cons_inv in H as (y & ys & w1 & Hy & Hys & _).
    rewrite format_concat_spec in Hy.
    destruct dfs as [|x dfs]; [discriminate|].
    cbv zeta in Hy. injection Hy as _ <-.
    destruct (IH _ _ _ Hys) as [Hne Eh]. cbn [heap] in Eh.
    split.
    + intros [Hd|Hd]; [discriminate|contradiction].
    + cbn [concat]. now rewrite formatted_store_app.
Qed.

Lemma merge_format_store list_dfs is_shuffle seed is_reverse eos
    (w : World L) blocks w' :
  _merge_format_inputs L list_dfs is_shuffle seed is_reverse eos w
    = (Ok blocks, w') ->
  heap w' = formatted_store is_reverse eos (concat list_dfs) (heap w).
Proof.
  intros H. unfold _merge_format_inputs in H.
  apply bind_inv in H as (list_df & w1 & Hm & H). injection H as _ <-.
  now destruct (mapM_format_concat_ok _ _ _ _ _ _ Hm).
Qed.

Lemma merge_format_rows list_dfs is_shuffle seed is_reverse eos
    (w : World L) blocks w' :
  df_sample_spec L -> NoDup (concat list_dfs) ->
  _merge_format_inputs L list_dfs is_shuffle seed is_reverse eos w
    = (Ok blocks, w') ->
  forall row, In row (concat blocks) ->
    exists r, In r (concat list_dfs) /\
      In row (rows (formatted is_reverse eos (deref (heap w) r))).
Proof.
  intros Hdf Hn H row Hrow. unfold _merge_format_inputs in H.
  apply bind_inv in H as (list_df & w1 & Hm & H). injection H as <- _.
  destruct (mapM_format_concat_ok _ _ _ _ _ _ Hm) as [Hne _].
  rewrite (mapM_format_concat L is_reverse eos _ _ Hn Hne) in Hm.
  injection Hm as <- _.
  assert (Hin : In row (concat (map (fun dfs =>
            flat_map (fun r => rows (formatted is_reverse eos
                                       (deref (heap w) r))) dfs) list_dfs))).
  { destruct is_shuffle; [|exact Hrow].
    apply in_concat in Hrow as (bl & Hbl & Hrow).
    apply in_map_iff in Hbl as (d & <- & Hd).
    apply in_concat. exists d. split; [exact Hd|].
    eapply Permutation_in; [|exact Hrow].
    now apply sample_frac1_permutation. }
  apply in_concat in Hin as (bl & Hbl & Hin).
  apply in_map_iff in Hbl as (dfs & <- & Hdfs).
  apply in_flat_map in Hin as (r & Hr & Hin).
  exists r. split; [|exact Hin]. apply in_concat. now exists dfs.
Qed.

Lemma build_blocks_rows p tb train hi hc (w : World L) b w' :
  df_sample_spec L ->
  NoDup (tb_unary tb ++ train ++ hi ++ hc ++ tb_unseen tb ++ tb_new tb) ->
  build_blocks L p tb (train, hi, hc) w = (Ok b, w') ->
  forall row, In row (block_rows b) ->
    exists r,
      In r (tb_unary tb ++ train ++ hi ++ hc ++ tb_unseen tb ++ tb_new tb) /\
      In row (rows (formatted (is_reverse p) (eos p) (deref (heap w) r))).
Proof.
  intros Hdf Hn H row Hrow. unfold build_blocks in H.
  apply bind_inv in H as (blocks & w1 & Hm & H). cbn [fst snd] in Hm.
  destruct blocks as [|b1 [|b2 [|b3 [|b4 [|b5 [|b6 [|]]]]]]];
    try discriminate.
  injection H as <- _.
  unfold merge_format in Hm.
  assert (Hn' : NoDup (concat [tb_unary tb; train; hi; hc;
                                tb_unseen tb; tb_new tb]))
    by (cbn [concat]; now rewrite app_nil_r).
  assert (Hrow' : In row (concat [b1; b2; b3; b4; b5; b6]))
    by (cbn [concat]; rewrite app_nil_r; exact Hrow).
  destruct (merge_format_rows _ _ _ _ _ _ _ _ Hdf Hn' Hm row Hrow')
    as (r & Hr & Hin).
  exists r. split; [|exact Hin].
  cbn [concat] in Hr. now rewrite app_nil_r in Hr.
Qed.

(** *** The longer compositions are new objects *)

Lemma longer_tables_fresh p tb (w : World L) ls li ln w' :
  longer_tables L p tb w = (Ok (ls, li, ln), w') ->
  forall r, In r (concat ls ++ concat li ++ concat ln) ->
    (length (heap w) <= r)%nat.
Proof.
  intros H.
  set (n0 := length (heap w)).
  set (U := fun (_ : list Series) (_ : nat) => True).
  set (P := fun (h : list Series) (k r : nat) =>
              (n0 <= length h)%nat /\ ((0 < k)%nat -> (n0 <= r)%nat)).
  assert (Hlev : levels (P (heap w')) 1 ls /\ levels (P (heap w')) 1 li /\
                 levels (P (heap w')) 1 ln).
  { apply (longer_tables_levels L U P) with (p := p) (tb := tb) (w := w).
    - unfold U. auto.
    - unfold P. intros h h' k r [Hl Hr] E. apply extends_length in E.
      split; [lia|exact Hr].
    - unfold P. intros x y k w1 r w2 _ [Hl _] Hc.
      rewrite compose_ref_spec in Hc.
      destruct (compose_table_lookups _ _ true) as [c|e]; [|discriminate].
      injection Hc as <- <-. cbn [heap]. rewrite length_app. simpl.
      split; [split; lia|now exists [c]].
    - unfold U. auto.
    - unfold P. intros y _ _. split; [unfold n0; lia|lia].
    - exact H. }
  assert (Hone : forall ll, levels (P (heap w')) 1 ll ->
            forall r, In r (concat ll) -> (n0 <= r)%nat).
  { intros ll Hl r Hr. apply in_concat in Hr as (l & Hl' & Hr).
    apply In_nth_error in Hl' as (i & Hi).
    destruct (Hl i l Hi r Hr) as [_ Hp]. apply Hp. lia. }
  destruct Hlev as (H1 & H2 & H3).
  intros r Hr. apply in_app_or in Hr as [Hr|Hr]; [now apply (Hone ls)|].
  apply in_app_or in Hr as [Hr|Hr]; [now apply (Hone li)|now apply (Hone ln)].
Qed.

(** The store in which the six blocks are formatted: what the held-out
    stage left, for every table that existed then. *)
Lemma building_blocks_stages p (w : World L) tb lg b w' :
  building_blocks L p w = (Ok (tb, lg, b), w') ->
  exists mt ho w1 w5,
    heldout_stage L p w = (Ok (tb, mt, ho), w1) /\
    (forall r, (r < length (heap w1))%nat ->
       deref (heap w5) r = deref (heap w1) r) /\
    build_blocks L p tb ho w5 = (Ok b, w').
Proof.
  intros H. unfold building_blocks in H.
  apply bind_inv in H as ([[tb' mt] ho] & w1 & Hs & H). cbn [fst snd] in H.
  apply bind_inv in H as ([[ls li] ln] & w2 & Hl & H). cbn [fst snd] in H.
  apply bind_inv in H as (s1 & w3 & H1 & H).
  apply bind_inv in H as (s2 & w4 & H2 & H).
  apply bind_inv in H as (s3 & w5 & H3 & H).
  apply bind_inv in H as (b' & w6 & Hb & H).
  injection H as -> _ -> ->.
  exists mt, ho, w1, w5. split; [exact Hs|]. split; [|exact Hb].
  intros r Hr.
  pose proof (longer_tables_fresh _ _ _ _ _ _ _ Hl) as Hfresh.
  pose proof (alloc_only_longer_tables L p tb w1) as E. rewrite Hl in E.
  cbn [snd] in E.
  unfold merge_format in H1, H2, H3.
  apply merge_format_store in H1, H2, H3.
  rewrite H3, H2, H1.
  rewrite !formatted_store_other.
  - now apply extends_deref.
  - intros Hin. specialize (Hfresh r). rewrite !in_app_iff in Hfresh.
    assert (length (heap w1) <= r)%nat by auto. lia.
  - intros Hin. specialize (Hfresh r). rewrite !in_app_iff in Hfresh.
    assert (length (heap w1) <= r)%nat by auto. lia.
  - intros Hin. specialize (Hfresh r). rewrite !in_app_iff in Hfresh.
    assert (length (heap w1) <= r)%nat by auto. lia.
Qed.

(** Over distinct inputs that are tokens and distinct table names that the
    composer hands on unchanged: every row of the six building blocks is
    an example of a composition of unary tables of the run. Its label is
    the formatted label of an input of the domain under a name whose
    tokens are the names of some unary tables, and its value is the target
    of the chain of these tables on the input, the last one applied
    first; the unary tables are as [create_N_table_lookup] made them. *)
Theorem building_blocks_examples p (w : World L) tb lg b w' :
  np_choice_spec L -> py_shuffle_spec L -> df_sample_spec L ->
  NoDup (domain_inputs (alphabet p) (n_repeats p)) ->
  Forall token (domain_inputs (alphabet p) (n_repeats p)) ->
  Forall good_name (unary_names p) -> NoDup (unary_names p) ->
  building_blocks L p w = (Ok (tb, lg, b), w') ->
  exists wu,
    unary_tables L p w = (Ok (tb_unary tb), wu) /\
    Forall (formatted_example (target (is_intermediate p))
              (domain_inputs (alphabet p) (n_repeats p))
              (heap wu) (tb_unary tb) (is_reverse p) (eos p))
           (block_rows b).
Proof.
  intros Hnp Hsh Hdf HD Htok Hgood Hnames H.
  destruct (building_blocks_stages _ _ _ _ _ _ H)
    as (mt & [[train hi] hc] & w1 & w5 & Hs & Hsame & Hb).
  destruct (heldout_stage_examples _ _ _ _ _ _ _ _
              Hnp Hsh HD Htok Hgood Hnames Hs) as (wu & Hu & Hn & Hex).
  exists wu. split; [exact Hu|].
  apply Forall_forall. intros row Hrow.
  destruct (build_blocks_rows _ _ _ _ _ _ _ _ Hdf Hn Hb row Hrow)
    as (r & Hr & Hin).
  destruct (Hex r Hr) as [Hlt Hexr].
  rewrite (Hsame r Hlt) in Hin.
  exact (formatted_rows_examples _ _ _ _ _ _ _ _ Hexr Hin).
Qed.

End Examples.

Lemma building_blocks_examples_witness :
  exists tb lg b w' wu,
    building_blocks Toy.lib Toy.params Toy.world0 = (Ok (tb, lg, b), w') /\
    unary_tables Toy.lib Toy.params Toy.world0 = (Ok (tb_unary tb), wu) /\
    Forall (formatted_example (target true) Toy.domain2 (heap wu) (tb_unary tb)
              true (Some "."))
           (block_rows b).
Proof.
  destruct (building_blocks Toy.lib Toy.params Toy.world0)
    as [[[[tb lg] b]|e] w'] eqn:E1; [|vm_compute in E1; discriminate E1].
  destruct (building_blocks_examples Toy.lib Toy.params Toy.world0 tb lg b w'
              toy_np_choice_spec toy_py_shuffle_spec toy_df_sample_spec
              toy_domain_NoDup)
    as (wu & Hu & H).
  - repeat constructor.
  - exact (proj1 (default_namer_names Toy.params eq_refl)).
  - exact (proj2 (default_namer_names Toy.params eq_refl)).
  - exact E1.
  - exists tb, lg, b, w', wu. split; [reflexivity|]. split; [exact Hu|exact H].
Defined.

(** ** The examples of the longer compositions *)

Lemma string_app_assoc (a b c : string) : (a ++ b) ++ c = a ++ b ++ c.
Proof. induction a as [|x a IH]; simpl; [reflexivity|now rewrite IH]. Qed.

Lemma join_snoc a l : a <> [] -> join " " (a ++ [l]) = join " " a ++ " " ++ l.
Proof.
  induction a as [|x a IH]; intros H; [congruence|].
  destruct a as [|y a]; [reflexivity|].
  change (join " " ((x :: y :: a) ++ [l]))
    with (x ++ " " ++ join " " ((y :: a) ++ [l])).
  rewrite IH by discriminate.
  change (join " " (x :: y :: a)) with (x ++ " " ++ join " " (y :: a)).
  now rewrite !string_app_assoc.
Qed.

Lemma last_default {A} (l : list A) d d' : l <> [] -> last l d = last l d'.
Proof.
  induction l as [|x l IH]; intros H; [congruence|].
  destruct l as [|y l]; [reflexivity|].
  change (last (x :: y :: l) d) with (last (y :: l) d).
  change (last (x :: y :: l) d') with (last (y :: l) d').
  apply IH. discriminate.
Qed.

Lemma last_cons_default {A} (v : A) os d : last (v :: os) d = last os v.
Proof.
  destruct os as [|o os]; [reflexivity|].
  change (last (v :: o :: os) d) with (last (o :: os) d).
  apply last_default. discriminate.
Qed.

Lemma last_opt_last {A} (l : list A) d : l <> [] -> last_opt l = Some (last l d).
Proof.
  induction l as [|x l IH]; intros H; [congruence|].
  destruct l as [|y l]; [reflexivity|].
  change (last_opt (x :: y :: l)) with (last_opt (y :: l)).
  change (last (x :: y :: l) d) with (last (y :: l) d).
  apply IH. discriminate.
Qed.

Lemma in_skipn {A} n (l : list A) x : In x (skipn n l) -> In x l.
Proof.
  intros H. rewrite <- (firstn_skipn n l). apply in_or_app. now right.
Qed.

Lemma skipn_not_empty {A} n (l : list A) :
  (n < length l)%nat -> skipn n l <> [].
Proof.
  intros H E. apply (f_equal (@length A)) in E.
  rewrite length_skipn in E. simpl in E. lia.
Qed.

Lemma last_skipn {A} n (l : list A) d :
  (n < length l)%nat -> last (skipn n l) d = last l d.
Proof.
  revert l. induction n as [|n IH]; intros l H; [reflexivity|].
  destruct l as [|x l]; [simpl in H; lia|].
  cbn [skipn]. simpl in H. rewrite IH by lia.
  destruct l as [|y l]; [simpl in H; lia|reflexivity].
Qed.

Lemma skipn_snoc {A} n (l : list A) x :
  (n <= length l)%nat -> skipn n (l ++ [x]) = (skipn n l ++ [x])%list.
Proof.
  intros H. rewrite skipn_app.
  replace (n - length l)%nat with 0%nat by lia. reflexivity.
Qed.

Lemma skipn_pred_last {A} (l : list A) d :
  l <> [] -> skipn (length l - 1) l = [last l d].
Proof.
  induction l as [|x l IH]; intros H; [congruence|].
  destruct l as [|y l]; [reflexivity|].
  change (last (x :: y :: l) d) with (last (y :: l) d).
  rewrite <- IH by discriminate.
  cbn [length].
  replace (S (S (length l)) - 1)%nat with (S (S (length l) - 1)) by lia.
  reflexivity.
Qed.

(** One more table at the end of a chain. *)
Lemma chain_snoc x l ts : forall i outs,
  chain ts i = Some outs ->
  lookup x (last outs i) = Some l ->
  chain (ts ++ [x]) i = Some (outs ++ [l])%list.
Proof.
  induction ts as [|t rest IH]; intros i outs H Hl; simpl in H.
  - injection H as <-. simpl in *. now rewrite Hl.
  - destruct (lookup t i) as [v|] eqn:El; [|discriminate].
    destruct (chain rest v) as [os|] eqn:Ec; [|discriminate].
    injection H as <-. rewrite last_cons_default in Hl.
    cbn [app chain]. rewrite El, (IH v os Ec Hl). reflexivity.
Qed.

(** The outputs of a chain of unary tables are inputs and tokens. *)
Lemma chain_unary D tables : forall i outputs,
  (forall t, In t tables -> unary_over D t) ->
  chain tables i = Some outputs ->
  Forall (fun v => token v /\ In v D) outputs.
Proof.
  induction tables as [|t rest IH]; intros i outputs Ht H; simpl in H.
  - injection H as <-. constructor.
  - destruct (lookup t i) as [v|] eqn:El; [|discriminate].
    destruct (chain rest v) as [os|] eqn:Ec; [|discriminate].
    injection H as <-. constructor.
    + destruct (Ht t (or_introl eq_refl)) as [_ Hv].
      rewrite Forall_forall in Hv. apply Hv.
      apply lookup_row in El. unfold data.
      change v with (snd (i, v)). now apply in_map.
    + eapply IH; [|exact Ec]. intros t' Ht'. apply Ht. now right.
Qed.

(** A training composition as the base of the longer ones. *)
Lemma computes_base b D tables t :
  tables <> [] ->
  computes b D tables t ->
  computes_from (if b then 0 else length tables - 1) D tables t.
Proof.
  intros Hne [Hp Hc]. split; [exact Hp|]. intros i Hi.
  destruct (Hc i Hi) as (outputs & Hch & Hlen & Hl).
  exists outputs. split; [exact Hch|]. split; [exact Hlen|].
  rewrite Hl. f_equal. unfold target, target_from. destruct b; [reflexivity|].
  rewrite <- Hlen.
  assert (Ho : outputs <> []).
  { intros ->. destruct tables; [congruence|discriminate]. }
  now rewrite (skipn_pred_last outputs "" Ho).
Qed.

(** One more unary table on the left of a composition, the intermediate
    steps kept: the new table is applied last, and its output is added to
    the target. *)
Lemma compose_left_computes c D tables x y z :
  NoDup D -> unary_over D x ->
  (forall t, In t tables -> unary_over D t) ->
  (c < length tables)%nat ->
  computes_from c D tables y ->
  compose_table_lookups x y true = Ok z ->
  computes_from c D (x :: tables) z.
Proof.
  intros HD Hx Hts Hc [Py Hy] Hz.
  pose proof (unary_over_NoDup _ _ HD Hx) as Hnx.
  assert (Hny : NoDup (index y))
    by (eapply Permutation_NoDup; [apply Permutation_sym, Py|exact HD]).
  destruct Hx as [Px Vx].
  assert (Hrow : forall i v, In (i, v) (rows y) ->
            exists outputs k l,
              chain (rev tables) i = Some outputs /\
              length outputs = length tables /\
              v = target_from c outputs /\
              last_token v = Some k /\ k = last outputs i /\
              In k D /\ In (k, l) (rows x)).
  { intros i v Hin.
    assert (Hi : In i D).
    { eapply Permutation_in; [exact Py|].
      change i with (fst (i, v)). now apply in_map. }
    destruct (Hy i Hi) as (outputs & Hch & Hlen & Hl).
    rewrite (lookup_in _ _ _ Hny Hin) in Hl. injection Hl as ->.
    assert (Hu : Forall (fun v => token v /\ In v D) outputs).
    { apply (chain_unary D (rev tables) i); [|exact Hch].
      intros t Ht. apply Hts. now apply in_rev. }
    assert (Hlt : (c < length outputs)%nat) by lia.
    assert (Hne : outputs <> []) by (intros ->; simpl in Hlt; lia).
    assert (Htok : Forall token (skipn c outputs)).
    { apply Forall_forall. intros o Ho. apply in_skipn in Ho.
      rewrite Forall_forall in Hu. now apply Hu. }
    assert (Hlast : In (last outputs i) outputs).
    { destruct (exists_last Hne) as (l' & a & ->).
      rewrite last_last. apply in_or_app. right. now left. }
    assert (HkD : In (last outputs i) D).
    { rewrite Forall_forall in Hu. now apply Hu. }
    assert (Hkx : In (last outputs i) (index x))
      by (eapply Permutation_in; [apply Permutation_sym, Px|exact HkD]).
    destruct (in_index_row _ _ Hkx) as [l Hl].
    exists outputs, (last outputs i), l.
    split; [exact Hch|]. split; [exact Hlen|]. split; [reflexivity|].
    split; [|split; [reflexivity|split; assumption]].
    unfold last_token, target_from. rewrite (split_join _ Htok).
    rewrite (last_opt_last _ i) by now apply skipn_not_empty.
    now rewrite last_skipn. }
  split.
  - rewrite <- Py. apply (compose_index_total _ _ _ _ Hz Hnx).
    apply Forall_forall. intros v Hv. unfold data in Hv.
    apply in_map_iff in Hv as [[i v'] [Ev Hin]]. simpl in Ev. subst v'.
    destruct (Hrow i v Hin) as (outputs & k & l & _ & _ & _ & Hk & _ & HkD & _).
    exists k. split; [exact Hk|].
    eapply Permutation_in; [apply Permutation_sym, Px|exact HkD].
  - intros i Hi.
    assert (Hiy : In i (index y))
      by (eapply Permutation_in; [apply Permutation_sym, Py|exact Hi]).
    destruct (in_index_row _ _ Hiy) as [v Hin].
    destruct (Hrow i v Hin)
      as (outputs & k & l & Hch & Hlen & Ev & Hk & Ek & _ & Hl).
    exists (outputs ++ [l])%list. cbn [rev].
    split; [|split].
    + apply chain_snoc; [exact Hch|]. rewrite <- Ek.
      now apply lookup_in.
    + rewrite length_app. cbn [length]. lia.
    + apply lookup_filter.
      rewrite (compose_row x y true z i v k l Hnx Hny Hz Hin Hk Hl).
      do 2 f_equal. rewrite Ev. unfold target_from.
      rewrite skipn_snoc by lia.
      rewrite join_snoc; [reflexivity|].
      apply skipn_not_empty. lia.
Qed.

Section LongerLevels.
Variable L : Library.
Variables (D : list string) (h0 : list Series) (unary : list ref) (c : nat).
Hypothesis D_NoDup : NoDup D.
Hypothesis unary_ok : forall x, In x unary ->
  stored (unary_over D) h0 x /\ composed_of h0 [name_in h0 x] x.

Lemma longer_unary_extends h h' x :
  longer_unary h0 unary h x -> extends h h' -> longer_unary h0 unary h' x.
Proof.
  intros [Hx E] E'. split; [exact Hx|]. eapply extends_trans; eassumption.
Qed.

Lemma longer_level_extends h h' k r :
  longer_level c D h0 unary h k r -> extends h h' ->
  longer_level c D h0 unary h' k r.
Proof.
  intros (fs & Hl & Hc & Hin & Hco & Hcp) E.
  exists fs. split; [exact Hl|]. split; [exact Hc|]. split; [exact Hin|].
  split; [exact (composed_of_extends _ _ _ _ Hco E)|].
  rewrite (extends_deref _ _ _ E); [exact Hcp|]. now destruct Hco.
Qed.

Lemma longer_level_step x y k (w : World L) r w' :
  longer_unary h0 unary (heap w) x ->
  longer_level c D h0 unary (heap w) k y ->
  compose_ref L true x y w = (Ok r, w') ->
  longer_level c D h0 unary (heap w') (S k) r /\ extends (heap w) (heap w').
Proof.
  intros [Hx E0] (fs & Hl & Hc & Hin & Hco & Hcp) H.
  destruct (unary_ok x Hx) as [[Hlt Hux] Hcx].
  pose proof (composed_of_extends _ _ _ _ Hcx E0) as Hcx'.
  destruct (compose_ref_composed L _ _ _ _ _ _ _ _ Hcx' Hco H) as [Hcr E].
  split; [|exact E].
  rewrite compose_ref_spec in H.
  destruct (compose_table_lookups _ _ true) as [z|e] eqn:Ez; [|discriminate].
  injection H as <- <-. cbn [heap] in *.
  exists (x :: fs). split; [simpl; now rewrite Hl|]. split; [lia|].
  split; [intros a [<-|Ha]; [exact Hx|now apply Hin]|].
  split; [exact Hcr|].
  rewrite deref_new. cbn [map].
  rewrite (extends_deref _ _ _ E0 Hlt) in Ez.
  refine (compose_left_computes c D _ _ _ z D_NoDup Hux _ _ Hcp Ez).
  - intros t Ht. apply in_map_iff in Ht as [a [<- Ha]].
    now destruct (unary_ok a (Hin a Ha)) as [[_ Hu] _].
  - rewrite length_map. unfold ref in *. lia.
Qed.

Lemma longer_level_class h k r :
  longer_level c D h0 unary h k r ->
  (r < length h)%nat /\ composed_over (name_in h) (map (name_in h0) unary) r.
Proof.
  intros (fs & Hl & Hc & Hin & (Hlt & Hs & _) & _).
  split; [exact Hlt|]. unfold composed_over, name_in. rewrite Hs. split.
  - destruct fs; [simpl in Hl; lia|discriminate].
  - intros tok Ht. apply in_map_iff in Ht as [a [<- Ha]].
    apply in_map. now apply Hin.
Qed.

Lemma longer_level_examples h k r :
  longer_level c D h0 unary h k r ->
  stored (examples (target_from c) D h0 unary) h r.
Proof.
  intros (fs & Hl & Hc & Hin & (Hlt & Hs & _) & Hcp).
  split; [exact Hlt|].
  apply (computes_from_examples _ _ _ _ fs); try assumption.
  destruct fs; [simpl in Hl; lia|discriminate].
Qed.

Lemma levels_concat (P : nat -> nat -> Prop) k0 ll r :
  levels P k0 ll -> In r (concat ll) -> exists k, P k r.
Proof.
  intros Hl Hr. apply in_concat in Hr as (l & Hl' & Hr).
  apply In_nth_error in Hl' as (i & Hi).
  exists (k0 + i)%nat. exact (Hl i l Hi r Hr).
Qed.

(** The longer compositions of a run: no table is in two lists, and every
    row is an example. *)
Lemma longer_tables_examples p tb (w : World L) ls li ln w' m :
  py_sample_spec L ->
  tb_unary tb = unary ->
  (tb_names_train tb ++ tb_names_test tb)%list = map (name_in h0) unary ->
  extends h0 (heap w) ->
  (forall y, In y (tb_multiary tb) ->
     Z.of_nat (length (split (name_in (heap w) y))) = max_composition_train p ->
     longer_level c D h0 unary (heap w) m y) ->
  longer_tables L p tb w = (Ok (ls, li, ln), w') ->
  NoDup (concat ls ++ concat li ++ concat ln) /\
  forall r, In r (concat ls ++ concat li ++ concat ln) ->
    stored (examples (target_from c) D h0 unary) (heap w') r.
Proof.
  intros Hsp Eu Euni E0 Hbase H.
  assert (HU : forall x, In x (tb_unary tb) ->
            longer_unary h0 unary (heap w) x).
  { intros x Hx. rewrite Eu in Hx. now split. }
  split.
  - apply (longer_tables_distinct L (longer_unary h0 unary)
             (longer_level c D h0 unary)
             longer_unary_extends longer_level_extends longer_level_step
             p tb w ls li ln w' m Hsp); [|exact HU|exact Hbase|exact H].
    intros h k r Hr. rewrite Euni. now apply (longer_level_class h k).
  - destruct (longer_tables_levels L (longer_unary h0 unary)
                (longer_level c D h0 unary)
                longer_unary_extends longer_level_extends longer_level_step
                p tb w ls li ln w' m HU Hbase H) as (H1 & H2 & H3).
    intros r Hr.
    assert (Hk : exists k, longer_level c D h0 unary (heap w') k r).
    { apply in_app_or in Hr as [Hr|Hr];
        [exact (levels_concat _ _ _ _ H1 Hr)|].
      apply in_app_or in Hr as [Hr|Hr];
        [exact (levels_concat _ _ _ _ H2 Hr)
        |exact (levels_concat _ _ _ _ H3 Hr)]. }
    destruct Hk as [k Hk]. exact (longer_level_examples _ _ _ Hk).
Qed.

End LongerLevels.

Section LongerBlocks.
Variable L : Library.

Lemma building_blocks_longer p (w : World L) tb ss si sn b w' :
  building_blocks L p w = (Ok (tb, (ss, si, sn), b), w') ->
  exists mt ho w1 ls li ln w2 w3 w4,
    heldout_stage L p w = (Ok (tb, mt, ho), w1) /\
    longer_tables L p tb w1 = (Ok (ls, li, ln), w2) /\
    merge_format L p ls w2 = (Ok ss, w3) /\
    merge_format L p li w3 = (Ok si, w4) /\
    (exists w5, merge_format L p ln w4 = (Ok sn, w5)).
Proof.
  intros H. unfold building_blocks in H.
  apply bind_inv in H as ([[tb' mt] ho] & w1 & Hs & H). cbn [fst snd] in H.
  apply bind_inv in H as ([[ls li] ln] & w2 & Hl & H). cbn [fst snd] in H.
  apply bind_inv in H as (s1 & w3 & H1 & H).
  apply bind_inv in H as (s2 & w4 & H2 & H).
  apply bind_inv in H as (s3 & w5 & H3 & H).
  apply bind_inv in H as (b' & w6 & Hb & H).
  injection H as -> -> -> -> _ _.
  exists mt, ho, w1, ls, li, ln, w2, w3, w4.
  repeat split; try assumption. now exists w5.
Qed.

(** Over distinct inputs that are tokens and distinct table names that the
    composer hands on unchanged: every row of the blocks of longer
    compositions is an example of a composition of unary tables of the
    run, under its formatted label. Its target lists the outputs of the
    chain from the first one on when the training compositions keep the
    intermediate steps, and otherwise from the output of the longest
    training composition on: the steps after it are always kept. *)
Theorem longer_blocks_examples p (w : World L) tb ss si sn b w' :
  np_choice_spec L -> py_sample_spec L -> df_sample_spec L ->
  NoDup (domain_inputs (alphabet p) (n_repeats p)) ->
  Forall token (domain_inputs (alphabet p) (n_repeats p)) ->
  Forall good_name (unary_names p) ->
  building_blocks L p w = (Ok (tb, (ss, si, sn), b), w') ->
  exists wu,
    unary_tables L p w = (Ok (tb_unary tb), wu) /\
    Forall (formatted_example (target_from (longer_from p))
              (domain_inputs (alphabet p) (n_repeats p))
              (heap wu) (tb_unary tb) (is_reverse p) (eos p))
           (concat ss ++ concat si ++ concat sn).
Proof.
  intros Hnp Hsp Hdf HD Htok Hgood H.
  set (D := domain_inputs (alphabet p) (n_repeats p)) in *.
  destruct (building_blocks_longer _ _ _ _ _ _ _ _ H)
    as (mt & ho & w1 & ls & li & ln & w2 & w3 & w4 & Hs & Hl & H1 & H2
        & w5 & H3).
  destruct ho as [[train hi] hc].
  destruct (heldout_stage_inv L _ _ _ _ _ _ Hs) as (wa & wb & Hm & Hsh & Hh).
  destruct (make_tables_tuples L _ _ _ _ Hnp HD Htok Hgood Hm)
    as (wu & Hu & Eu & Hun & Euni & Hmul).
  fold D in Hun, Hmul.
  exists wu. split; [exact Hu|].
  assert (Ea1 : extends (heap wa) (heap w1)).
  { pose proof (alloc_only_random_shuffle L (tb_seen tb) wa) as E1.
    rewrite Hsh in E1.
    pose proof (alloc_only_heldout_split L p mt wb) as E2.
    rewrite Hh in E2. eapply extends_trans; eassumption. }
  assert (E01 : extends (heap wu) (heap w1))
    by (eapply extends_trans; eassumption).
  set (m := Z.to_nat (max_composition_train p)).
  assert (Hbase : forall y, In y (tb_multiary tb) ->
            Z.of_nat (length (split (name_in (heap w1) y)))
            = max_composition_train p ->
            longer_level (longer_from p) D (heap wu) (tb_unary tb)
                         (heap w1) m y).
  { intros y Hy Ht.
    destruct (Hmul y Hy) as (fs & Hlen & Hin & Hco & Hcp).
    pose proof (composed_of_extends _ _ _ _ Hco Ea1) as Hco1.
    assert (Elen : length fs = m).
    { destruct Hco1 as (_ & Es & _). unfold name_in in Ht.
      rewrite Es, length_map in Ht. unfold m. lia. }
    exists fs. split; [exact Elen|]. split.
    { unfold longer_from. destruct (is_intermediate p); fold m; lia. }
    split; [exact Hin|]. split; [exact Hco1|].
    rewrite (extends_deref _ _ _ Ea1) by now destruct Hco.
    assert (Hne : map (deref (heap wu)) fs <> [])
      by (destruct fs; [simpl in Hlen; lia|discriminate]).
    pose proof (computes_base _ _ _ _ Hne Hcp) as Hb.
    rewrite length_map in Hb. unfold longer_from. fold m.
    now rewrite Elen in Hb. }
  destruct (longer_tables_examples L D (heap wu) (tb_unary tb)
              (longer_from p) HD Hun p tb w1 ls li ln w2 m
              Hsp eq_refl Euni E01 Hbase Hl) as [Hn Hex].
  unfold merge_format in H1, H2, H3.
  pose proof (merge_format_store L _ _ _ _ _ _ _ _ H1) as S1.
  pose proof (merge_format_store L _ _ _ _ _ _ _ _ H2) as S2.
  assert (N1 : NoDup (concat ls)) by (eapply NoDup_app_remove_r; exact Hn).
  assert (N23 : NoDup (concat li ++ concat ln))
    by (eapply NoDup_app_remove_l; exact Hn).
  assert (N2 : NoDup (concat li)) by (eapply NoDup_app_remove_r; exact N23).
  assert (N3 : NoDup (concat ln)) by (eapply NoDup_app_remove_l; exact N23).
  apply Forall_forall. intros row Hrow.
  apply in_app_or in Hrow as [Hrow|Hrow].
  - destruct (merge_format_rows L _ _ _ _ _ _ _ _ Hdf N1 H1 row Hrow)
      as (r & Hr & Hin).
    destruct (Hex r) as [_ Hexr]; [apply in_or_app; now left|].
    exact (formatted_rows_examples _ _ _ _ _ _ _ _ Hexr Hin).
  - apply in_app_or in Hrow as [Hrow|Hrow].
    + destruct (merge_format_rows L _ _ _ _ _ _ _ _ Hdf N2 H2 row Hrow)
        as (r & Hr & Hin).
      rewrite S1, formatted_store_other in Hin.
      * destruct (Hex r) as [_ Hexr];
          [apply in_or_app; right; apply in_or_app; now left|].
        exact (formatted_rows_examples _ _ _ _ _ _ _ _ Hexr Hin).
      * intros Hr1. apply (NoDup_app_disjoint _ _ Hn r Hr1).
        apply in_or_app. now left.
    + destruct (merge_format_rows L _ _ _ _ _ _ _ _ Hdf N3 H3 row Hrow)
        as (r & Hr & Hin).
      rewrite S2, formatted_store_other in Hin.
      * rewrite S1, formatted_store_other in Hin.
        -- destruct (Hex r) as [_ Hexr];
             [apply in_or_app; right; apply in_or_app; now right|].
           exact (formatted_rows_examples _ _ _ _ _ _ _ _ Hexr Hin).
        -- intros Hr1. apply (NoDup_app_disjoint _ _ Hn r Hr1).
           apply in_or_app. now right.
      * intros Hr2. exact (NoDup_app_disjoint _ _ N23 r Hr2 Hr).
Qed.

End LongerBlocks.

Lemma longer_blocks_examples_witness :
  exists tb ss si sn b w' wu,
    building_blocks Toy.lib Toy.params Toy.world0
      = (Ok (tb, (ss, si, sn), b), w') /\
    unary_tables Toy.lib Toy.params Toy.world0 = (Ok (tb_unary tb), wu) /\
    Forall (formatted_example (target_from 0) Toy.domain2 (heap wu)
              (tb_unary tb) true (Some "."))
           (concat ss ++ concat si ++ concat sn).
Proof.
  destruct (building_blocks Toy.lib Toy.params Toy.world0)
    as [[[[tb [[ss si] sn]] b]|e] w'] eqn:E1;
    [|vm_compute in E1; discriminate E1].
  destruct (longer_blocks_examples Toy.lib Toy.params Toy.world0
              tb ss si sn b w'
              toy_np_choice_spec toy_py_sample_spec toy_df_sample_spec
              toy_domain_NoDup)
    as (wu & Hu & H).
  - repeat constructor.
  - exact (proj1 (default_namer_names Toy.params eq_refl)).
  - exact E1.
  - exists tb, ss, si, sn, b, w', wu.
    split; [reflexivity|]. split; [exact Hu|exact H].
Defined.
